(** * Sparse MRF training for collaborative filtering (MSD-low-memory)

    A shallow embedding of the training core of the notebook
    [MSD-low-memory.ipynb]: [filter_XtX], [calculate_sparsity_pattern],
    [sparse_parameter_estimation], [sparse_solution] and the final
    re-scaling cell.

    Numbers are exact rationals ([Qc], canonical fractions, so that Leibniz
    equality is numeric equality); the rounding of float32/float64 and the
    non-finite values [inf]/[nan] are outside the model, with one exception:
    where a float product is turned into a count ([np.ceil] for the size of
    the set D, [int] for the size of a held-out sample) the rounding decides
    the count, and the product is computed in binary64.  A scipy sparse
    matrix is its shape together with the finite map of its stored entries;
    a stored entry may hold the value 0 (an "explicit zero"), exactly as in
    scipy.  Library routines whose result is not determined by their
    documentation (the order [np.argsort] gives to ties, which side of the
    pivot [bn.argpartition] puts equal keys, the algorithm of
    [np.linalg.inv], the real power [np.power]) are the operations of the
    class [NumLib], constrained by their documented contracts only. *)

From Stdlib Require Import QArith Qcanon Qcabs Qround Qpower.
From stdpp Require Import base numbers option list list_numbers gmap sorting.

(** ** Python exceptions and the two monads of the embedding *)

Inductive exn :=
  | ZeroDivisionError
  | UnboundLocalError
  | NameError
  | IndexError
  | ValueError
  | TypeError
  | LinAlgError.

Inductive result (A : Type) :=
  | Ok (a : A)
  | Raise (e : exn).
Arguments Ok {A} a.
Arguments Raise {A} e.

Global Instance exn_eq_dec : EqDecision exn.
Proof. solve_decision. Defined.

Global Instance result_ret : MRet result := λ A a, Ok a.
Global Instance result_bind : MBind result := λ A B f m,
  match m with Ok a => f a | Raise e => Raise e end.
Global Instance result_fmap : FMap result := λ A B f m,
  match m with Ok a => Ok (f a) | Raise e => Raise e end.

Definition is_Ok {A} (m : result A) : Prop := ∃ a, m = Ok a.

(** [for x in l: body] over an accumulator, stopping at the first exception. *)
Fixpoint foldM {A B} (body : B → A → result B) (acc : B) (l : list A) : result B :=
  match l with
  | [] => Ok acc
  | x :: l' => acc' ← body acc x; foldM body acc' l'
  end.

(** ** Rational helpers *)

Definition Qc_of_nat (n : nat) : Qc := Qc_of_Z (Z.of_nat n).

(** [int(np.ceil(q))] *)
Definition Qc_ceil (q : Qc) : Z := Qceiling (this q).

Definition Qcsum (l : list Qc) : Qc := foldr Qcplus 0%Qc l.

Definition Qcmax (x y : Qc) : Qc := if decide (x ≤ y)%Qc then y else x.

Global Instance Qc_inhabited : Inhabited Qc := populate 0%Qc.

(** [x / y] on Python numbers: a zero divisor is a [ZeroDivisionError]. *)
Definition py_div (x y : Qc) : result Qc :=
  if decide (y = 0%Qc) then Raise ZeroDivisionError else Ok (x / y)%Qc.

(** ** Binary64 numbers

    A Python float is a binary64 number: a significand of 53 bits and a
    binary exponent.  The exponent is not bounded here: overflow and the
    subnormal numbers are outside the model. *)

(** [2 ** z] for an integer exponent. *)
Definition pow2 (z : Z) : Qc := Q2Qc (2 ^ z)%Q.

(** The integer nearest to [q]; a tie goes to the even one. *)
Definition round_half_even (q : Qc) : Z :=
  let f := Qfloor (this q) in
  let d := (q - Qc_of_Z f)%Qc in
  if decide (d < Q2Qc (1 # 2))%Qc then f
  else if decide (Q2Qc (1 # 2) < d)%Qc then (f + 1)%Z
  else if Z.even f then f else (f + 1)%Z.

(** The binary exponent [e] of a positive number: [2 ** e <= q < 2 ** (e + 1)]. *)
Definition Qc_ilog2 (q : Qc) : Z :=
  let e := (Z.log2 (Qnum (this q)) - Z.log2 (Z.pos (Qden (this q))))%Z in
  if decide (pow2 e ≤ q)%Qc then e else (e - 1)%Z.

Definition b64_round_pos (q : Qc) : Qc :=
  let e := Qc_ilog2 q in
  (Qc_of_Z (round_half_even (q * pow2 (52 - e))) * pow2 (e - 52))%Qc.

(** The binary64 number nearest to [q], ties to the even significand.  A
    float argument of the program is given by a rational; rounding it gives
    the number the program holds (a binary64 number is its own rounding). *)
Definition b64_round (q : Qc) : Qc :=
  if decide (q = 0%Qc) then 0%Qc
  else if decide (0 < q)%Qc then b64_round_pos q
  else (- b64_round_pos (- q))%Qc.

(** [float(n)], the conversion an [int] undergoes in a product with a
    float. *)
Definition float_of_nat (n : nat) : Qc := b64_round (Qc_of_nat n).

(** [x * y] on floats. *)
Definition float_mul (x y : Qc) : Qc := b64_round (x * y).

(** The lengths that [float] converts without rounding: every integer
    below [2 ** 53] is a binary64 number. *)
Definition float_exact (n : nat) : Prop := (Z.of_nat n < 2 ^ 53)%Z.

(** ** One-dimensional arrays *)

(** NumPy broadcasting of two 1-D operands of an element-wise operation:
    equal lengths pair up, a length-1 operand is repeated, anything else is
    a [ValueError]. *)
Definition broadcast (xs ys : list Qc) : result (list (Qc * Qc)) :=
  if decide (length xs = length ys) then Ok (zip xs ys)
  else match xs, ys with
       | [x], _ => Ok (zip (replicate (length ys) x) ys)
       | _, [y] => Ok (zip xs (replicate (length xs) y))
       | _, _ => Raise ValueError
       end.

(** [l[idx]] for an index array whose entries are in range. *)
Definition take_idx {A} `{Inhabited A} (l : list A) (idx : list nat) : list A :=
  (λ i, l !!! i) <$> idx.

(** Python's slice [lo:hi] on an axis of length [n], as the list of the
    selected positions (they are consecutive). *)
Definition slice_bound (b : Z) (n : nat) : nat :=
  if decide (b < 0)%Z then Z.to_nat (Z.max (b + Z.of_nat n) 0)
  else Nat.min (Z.to_nat b) n.

Definition py_slice (lo hi : Z) (n : nat) : list nat :=
  seq (slice_bound lo n) (slice_bound hi n - slice_bound lo n).

(** ** Sparse matrices *)

Record spmatrix := SpMatrix {
  nrows : nat;
  ncols : nat;
  entries : gmap (nat * nat) Qc
}.

(** [M[r, c]]: the stored value, 0 where nothing is stored. *)
Definition getv (M : spmatrix) (r c : nat) : Qc :=
  default 0%Qc (entries M !! (r, c)).

(** [M[r, c] = v] for one coordinate: the entry becomes stored. *)
Definition setitem (M : spmatrix) (r c : nat) (v : Qc) : spmatrix :=
  SpMatrix (nrows M) (ncols M) (<[(r, c) := v]> (entries M)).

(** [M.eliminate_zeros()] *)
Definition eliminate_zeros (M : spmatrix) : spmatrix :=
  SpMatrix (nrows M) (ncols M) (filter (λ kv, kv.2 ≠ 0%Qc) (entries M)).

(** [M.getnnz(axis=0)[c]]: number of stored entries of column [c]. *)
Definition getnnz_col (M : spmatrix) (c : nat) : nat :=
  length (filter (λ r, is_Some (entries M !! (r, c))) (seq 0 (nrows M))).

Definition getnnz_axis0 (M : spmatrix) : list nat :=
  getnnz_col M <$> seq 0 (ncols M).

(** [M[:, c].nonzero()[0]]: rows of column [c] holding a nonzero value,
    in increasing order. *)
Definition nonzero_rows (M : spmatrix) (c : nat) : list nat :=
  filter (λ r, getv M r c ≠ 0%Qc) (seq 0 (nrows M)).

(** [M.nonzero()]: coordinates holding a nonzero value, column by column. *)
Definition nonzero (M : spmatrix) : list (nat * nat) :=
  c ← seq 0 (ncols M); (λ r, (r, c)) <$> nonzero_rows M c.

(** [sparse.find(M)]: the (row, column, value) triples of the nonzero
    entries, column by column. *)
Definition find (M : spmatrix) : list (nat * nat * Qc) :=
  (λ rc, (rc, getv M rc.1 rc.2)) <$> nonzero M.

(** [sparse.csc_matrix((data, (rows, cols)), shape)] on coordinate triples:
    values given for the same coordinate are summed, and the sum is stored
    even when it is 0. *)
Definition add_entry (m : gmap (nat * nat) Qc) (t : nat * nat * Qc) : gmap (nat * nat) Qc :=
  <[t.1 := (default 0 (m !! t.1) + t.2)%Qc]> m.

Definition from_triples (n1 n2 : nat) (ts : list (nat * nat * Qc)) : spmatrix :=
  SpMatrix n1 n2 (foldl add_entry ∅ ts).

(** The constructor on separate data and coordinate arrays: the lengths
    must agree. *)
Definition csc_matrix (n1 n2 : nat) (data : list Qc) (coords : list (nat * nat)) : result spmatrix :=
  if decide (length data = length coords) then Ok (from_triples n1 n2 (zip coords data))
  else Raise ValueError.

(** [M.diagonal()] *)
Definition diagonal (M : spmatrix) : list Qc :=
  (λ i, getv M i i) <$> seq 0 (Nat.min (nrows M) (ncols M)).

(** [np.diag_indices(n)] *)
Definition diag_indices (n : nat) : list (nat * nat) := (λ i, (i, i)) <$> seq 0 n.

(** [M[idx] = vals] for an array of coordinates and an array (or scalar,
    given as a one-element list) of values. *)
Definition setitems (M : spmatrix) (idx : list (nat * nat)) (vals : list Qc) : result spmatrix :=
  if decide (length vals = length idx) then
    Ok (foldl (λ M' iv, setitem M' iv.1.1 iv.1.2 iv.2) M (zip idx vals))
  else match vals with
       | [v] => Ok (foldl (λ M' rc, setitem M' rc.1 rc.2 v) M idx)
       | _ => Raise ValueError
       end.

(** Stored entries lie inside the shape. *)
Definition in_shape (M : spmatrix) : Prop :=
  ∀ r c v, entries M !! (r, c) = Some v → r < nrows M ∧ c < ncols M.

(** No explicit zero is stored. *)
Definition no_stored_zero (M : spmatrix) : Prop :=
  ∀ rc, entries M !! rc ≠ Some 0%Qc.

(** [M.nnz]: the number of stored entries. *)
Definition nnz (M : spmatrix) : nat := size (entries M).

(** The sparsity [M.nnz * 1.0 / A.shape[0] / A.shape[0]] that the functions
    print: the division fails on a matrix without rows. *)
Definition printed_sparsity (M A : spmatrix) : result Qc :=
  q ← py_div (Qc_of_nat (nnz M) * 1) (Qc_of_nat (nrows A));
  py_div q (Qc_of_nat (nrows A)).

(** ** Dense matrices (NumPy 2-D arrays) as lists of rows *)

Definition dense := list (list Qc).

Definition dget (T : dense) (a b : nat) : Qc := (T !!! a) !!! b.

(** [np.where(P(T))] on a 2-D array: the positions satisfying [P], row by
    row. *)
Definition np_where2 (P : Qc → Prop) `{∀ x, Decision (P x)} (T : dense) : list (nat * nat) :=
  a ← seq 0 (length T);
  (λ b, (a, b)) <$> filter (λ b, P (dget T a b)) (seq 0 (length (T !!! a))).

(** ** The numeric library *)

Class NumLib := {
  (** [np.power(x, y)] *)
  np_power : Qc → Qc → Qc;
  (** [np.argsort(l)]: indices that sort [l] into non-decreasing order;
      the order among equal keys is not specified. *)
  np_argsort : list Qc → list nat;
  np_argsort_perm : ∀ l, np_argsort l ≡ₚ seq 0 (length l);
  np_argsort_sorted : ∀ l i j a b,
    i ≤ j → np_argsort l !! i = Some a → np_argsort l !! j = Some b →
    (l !!! a ≤ l !!! b)%Qc;
  (** [bn.argpartition(l, kth)] for [kth < len(l)]: a permutation of the
      indices in which no key before position [kth] is larger than a key at
      or after it. *)
  bn_argpartition : list Qc → nat → list nat;
  bn_argpartition_perm : ∀ l kth,
    kth < length l → bn_argpartition l kth ≡ₚ seq 0 (length l);
  bn_argpartition_pivot : ∀ l kth p q a b,
    kth < length l → p < kth → kth ≤ q →
    bn_argpartition l kth !! p = Some a → bn_argpartition l kth !! q = Some b →
    (l !!! a ≤ l !!! b)%Qc;
  (** [np.linalg.inv(T)] of a square array; [None] is [LinAlgError]. *)
  linalg_inv : dense → option dense;
  linalg_inv_shape : ∀ T T',
    linalg_inv T = Some T' →
    length T' = length T ∧ Forall (λ row, length row = length T) T';
  linalg_inv_empty : linalg_inv [] = Some []
}.

(** ** Pre-computation of the training data: [filter_XtX] *)

(** The global [alpha = 0.75]. *)
Definition alpha : Qc := Q2Qc (3 # 4).

Section covariance.
Context `{NumLib}.

(** [np.sum(train_data, axis=0)[c]] *)
Definition column_sum (X : spmatrix) (c : nat) : Qc :=
  Qcsum ((λ u, getv X u c) <$> seq 0 (nrows X)).

(** Entry for columns [i], [j] of [X[:, I].T.dot(X[:, J])]. *)
Definition dot_columns (X : spmatrix) (i j : nat) : Qc :=
  Qcsum ((λ u, getv X u i * getv X u j)%Qc <$> seq 0 (nrows X)).

Definition mu_of (train_data : spmatrix) : list Qc :=
  (λ c, column_sum train_data c / Qc_of_nat (nrows train_data))%Qc
    <$> seq 0 (ncols train_data).

Definition rescaling_of (train_data : spmatrix) : list Qc :=
  (λ m, np_power ((m - m * m) * Qc_of_nat (nrows train_data)) (alpha / 2))%Qc
    <$> mu_of train_data.

Definition scaling_of (train_data : spmatrix) : list Qc :=
  (λ x, 1 / x)%Qc <$> rescaling_of train_data.

(** The dense tile [XtX_tmp] of the block pair [(ii, jj)] after centering
    and rescaling.  [np.squeeze] turns the mean vector of a one-item
    matrix into a scalar, whose slicing is an [IndexError]. *)
Definition tile (train_data : spmatrix) (bs : Z) (ii jj : nat) : result dense :=
  let N := ncols train_data in
  let userCount := Qc_of_nat (nrows train_data) in
  let mu := mu_of train_data in
  let scaling := scaling_of train_data in
  let I := py_slice (bs * Z.of_nat ii) (bs * (Z.of_nat ii + 1)) N in
  let J := py_slice (bs * Z.of_nat jj) (bs * (Z.of_nat jj + 1)) N in
  if decide (N = 1) then Raise IndexError
  else Ok ((λ i, (λ j,
         let XtX_tmp := dot_columns train_data i j in
         let XtX_tmp := (XtX_tmp - (mu !!! i) * ((mu !!! j) * userCount))%Qc in
         ((scaling !!! i) * XtX_tmp * (scaling !!! j))%Qc) <$> J) <$> I).

(** Sparsification filter 1 on one tile: the kept values with their
    global coordinates [ix[0] + bs*ii], [ix[1] + bs*jj]. *)
Definition tile_nz (bs : Z) (thd : Qc) (ii jj : nat) (XtX_tmp : dense)
  : list (nat * nat * Qc) :=
  (λ ab, ((Z.to_nat (Z.of_nat ab.1 + bs * Z.of_nat ii),
           Z.to_nat (Z.of_nat ab.2 + bs * Z.of_nat jj)),
          dget XtX_tmp ab.1 ab.2))
    <$> np_where2 (λ v, thd < Qcabs v)%Qc XtX_tmp.

(** The double loop over the blocks.  The accumulator is [None] while
    [flag] is [False], that is while [ixs] and [XtX_nzs] are unbound; the
    two arrays grow in lockstep and are kept as one list of triples. *)
Definition block_loop (train_data : spmatrix) (bs : Z) (thd : Qc) (blocks : Z)
  : result (option (list (nat * nat * Qc))) :=
  foldM (λ acc ii,
    foldM (λ acc jj,
      XtX_tmp ← tile train_data bs ii jj;
      let nz := tile_nz bs thd ii jj XtX_tmp in
      Ok (Some (default [] acc ++ nz)))
      acc (seq 0 (Z.to_nat blocks)))
    None (seq 0 (Z.to_nat blocks)).

Definition filter_XtX (train_data : spmatrix) (block_size : Z) (thd4mem thd4comp : Qc)
  : result (spmatrix * list Qc * list Qc * spmatrix) :=
  let XtXshape := ncols train_data in
  let bs := block_size in
  blocks ← (if decide (bs = 0%Z) then Raise ZeroDivisionError
            else Ok (Z.of_nat XtXshape `div` bs + 1)%Z);
  let thd := thd4mem in
  let rescaling := rescaling_of train_data in
  acc ← block_loop train_data bs thd blocks;
  XtX_nzs ← (match acc with Some ts => Ok ts | None => Raise UnboundLocalError end);
  (* sparsification filter 2 *)
  let AA_nzs := filter (λ t, thd4comp ≤ Qcabs t.2)%Qc XtX_nzs in
  let XtX := from_triples XtXshape XtXshape XtX_nzs in
  (* [np.squeeze(ixs[:, ix2])] also drops the coordinate axis when exactly
     one entry is selected, and the sparse constructor rejects the result *)
  if decide (length AA_nzs = 1) then Raise TypeError else
  let AA := from_triples XtXshape XtXshape AA_nzs in
  Ok (XtX, rescaling, diagonal XtX, AA).

(** The same quantity computed naively, without blocks and without a
    filter: [X^T X] centered by the outer product of the item means times
    the user count, rows and columns scaled by [1 / rescaling]. *)
Definition naive_XtX (train_data : spmatrix) (i j : nat) : Qc :=
  let mu := mu_of train_data in
  let scaling := scaling_of train_data in
  ((scaling !!! i)
   * (dot_columns train_data i j
      - (mu !!! i) * (mu !!! j) * Qc_of_nat (nrows train_data))
   * (scaling !!! j))%Qc.

End covariance.

(** ** Objects and references

    [XtX] and [AtA] are module-level objects that the functions below reach
    through references and mutate in place.  The heap maps a reference to
    the matrix it currently denotes; an exception leaves the mutations done
    so far in place. *)

Definition loc := nat.

Definition M (A : Type) : Type := gmap loc spmatrix → result A * gmap loc spmatrix.

Global Instance M_ret : MRet M := λ A a h, (Ok a, h).
Global Instance M_bind : MBind M := λ A B f m h,
  match m h with
  | (Ok a, h') => f a h'
  | (Raise e, h') => (Raise e, h')
  end.

Definition lift {A} (r : result A) : M A := λ h, (r, h).

Definition deref (l : loc) : M spmatrix := λ h,
  match h !! l with
  | Some A => (Ok A, h)
  | None => (Raise NameError, h)
  end.

Definition store (l : loc) (A : spmatrix) : M unit := λ h, (Ok (), <[l := A]> h).

Fixpoint for_each {A} (l : list A) (body : A → M unit) : M unit :=
  match l with
  | [] => mret ()
  | x :: l' => _ ← body x; for_each l' body
  end.

(** ** Sparse MRF model *)

Section sparse_model.
Context `{NumLib}.

(** *** Section 3.1: [calculate_sparsity_pattern] *)

(** One pass of the loop [for ii in iiList] on the matrix [A] that the
    reference denotes at that moment.  [bn.argpartition] returns an empty
    array as it is, and checks the pivot against the length otherwise. *)
Definition cap_column (maxInColumn : nat) (A : spmatrix) (ii : nat) : result spmatrix :=
  let jj := nonzero_rows A ii in
  let keys := (λ j, - Qcabs (getv A j ii))%Qc <$> jj in
  kk ← (if decide (keys = []) then Ok []
        else if decide (maxInColumn < length keys)
        then Ok (drop maxInColumn (bn_argpartition keys maxInColumn))
        else Raise ValueError);
  setitems A ((λ k, (jj !!! k, ii)) <$> kk) [0%Qc].

Definition calculate_sparsity_pattern (AtA : loc) (maxInColumn : nat) : M loc :=
  let AA := AtA in
  A0 ← deref AA;
  let countInColumns := getnnz_axis0 A0 in
  let iiList :=
    filter (λ ii, maxInColumn < countInColumns !!! ii) (seq 0 (length countInColumns)) in
  _ ← for_each iiList (λ ii,
        A ← deref AA;
        A' ← lift (cap_column maxInColumn A ii);
        store AA A');
  A ← deref AA;
  _ ← store AA (eliminate_zeros A);
  A ← deref AA;
  _ ← lift (printed_sparsity A A);
  mret AA.

(** *** Section 3.2, steps 1, 2 and 4: the list of blocks *)

(** [np.argsort(AAcountInColumns + XtXdiag / 2.0 / np.max(XtXdiag))[::-1]] *)
Definition sortedList_of (AA : spmatrix) (XtXdiag : list Qc) : result (list nat) :=
  let AAcountInColumns := (λ n, Qc_of_nat n) <$> getnnz_axis0 AA in
  mx ← (match XtXdiag with
        | [] => Raise ValueError
        | d :: ds => Ok (foldr Qcmax d ds)
        end);
  keys ← broadcast AAcountInColumns ((λ d, d / 2 / mx)%Qc <$> XtXdiag);
  Ok (reverse (np_argsort ((λ p, p.1 + p.2)%Qc <$> keys))).

(** [max(1, int(np.ceil(len(nn) * rr)))]: the product of the length and
    the float [rr] is a binary64 product. *)
Definition dd_count (rr : Qc) (len : nat) : nat :=
  Z.to_nat (Z.max 1 (Qc_ceil (float_mul (float_of_nat len) (b64_round rr)))).

(** The block of item [ii]: the rows of its column in [AA] holding a nonzero
    value, by decreasing magnitude. *)
Definition block_of (AA : spmatrix) (ii : nat) : list nat :=
  let nn := nonzero_rows AA ii in
  let vals := (λ r, getv AA r ii) <$> nn in
  let kk := reverse (np_argsort (Qcabs <$> vals)) in
  take_idx nn kk.

(** [todoIndicators[dd] = 0] *)
Definition clear_todo (todoIndicators : list Qc) (dd : list nat) : result (list Qc) :=
  if decide (Forall (λ d, d < length todoIndicators) dd)
  then Ok (foldl (λ t d, <[d := 0%Qc]> t) todoIndicators dd)
  else Raise IndexError.

(** The body of [for ii in sortedList]; the state is [todoIndicators] and
    [blockList]. *)
Definition partition_step (rr : Qc) (AA : spmatrix)
    (st : list Qc * list (list nat)) (ii : nat) : result (list Qc * list (list nat)) :=
  let '(todoIndicators, blockList) := st in
  match todoIndicators !! ii with
  | None => Raise IndexError
  | Some t =>
      if decide (t = 1%Qc) then
        let nn := block_of AA ii in
        let blockList := blockList ++ [nn] in
        let dd := take (dd_count rr (length nn)) nn in
        todoIndicators ← clear_todo todoIndicators dd;
        Ok (todoIndicators, blockList)
      else Ok (todoIndicators, blockList)
  end.

Definition partition_loop (rr : Qc) (AA : spmatrix) (sortedList : list nat)
  : result (list Qc * list (list nat)) :=
  foldM (partition_step rr AA) (replicate (ncols AA) 1%Qc, []) sortedList.

(** The set D of a block. *)
Definition retired (rr : Qc) (nn : list nat) : list nat :=
  take (dd_count rr (length nn)) nn.

(** *** Section 3.2, step 3: the dense solution of one block *)

(** [np.array(XtX[np.ix_(nn, nn)].todense())] *)
Definition submatrix (XtX : spmatrix) (nn : list nat) : result dense :=
  if decide (Forall (λ a, a < nrows XtX ∧ a < ncols XtX) nn)
  then Ok ((λ a, (λ b, getv XtX a b) <$> nn) <$> nn)
  else Raise IndexError.

(** [BBblock /= -np.diag(BBblock)]: the vector of negated diagonal entries
    is broadcast along the rows, so entry [(a, j)] is divided by the negated
    diagonal entry of its column [j]. *)
Definition divide_by_neg_diag (BBblock : dense) : dense :=
  (λ row, imap (λ j x, x / - dget BBblock j j)%Qc row) <$> BBblock.

(** The triples one block appends to [BBlist_ix1], [BBlist_ix2] and
    [BBlist_val]; the three lists grow in lockstep and are kept as one. *)
Definition solve_block (rr : Qc) (XtX : spmatrix) (nn : list nat)
  : result (list (nat * nat * Qc)) :=
  sub ← submatrix XtX nn;
  BBblock ← (match linalg_inv sub with
             | Some B => Ok B
             | None => Raise LinAlgError
             end);
  let BBblock := divide_by_neg_diag BBblock in
  let dd := retired rr nn in
  Ok (a ← seq 0 (length nn);
      (λ j, ((nn !!! a, dd !!! j), dget BBblock a j)) <$> seq 0 (length dd)).

Definition solve_blocks (rr : Qc) (XtX : spmatrix) (blockList : list (list nat))
  : result (list (nat * nat * Qc)) :=
  foldM (λ BBlist nn, ts ← solve_block rr XtX nn; Ok (BBlist ++ ts)) [] blockList.

(** *** Final step: averaging, zero diagonal, sparsity pattern *)

Definition aggregate (n1 n2 : nat) (ii_diag : list (nat * nat))
    (BBlist : list (nat * nat * Qc)) : result spmatrix :=
  let BBsum := from_triples n1 n2 BBlist in
  let BBcnt := from_triples n1 n2 ((λ t, (t.1, 1%Qc)) <$> BBlist) in
  let b_div := snd <$> find BBcnt in
  let b_3 := find BBsum in
  quot ← broadcast (snd <$> b_3) b_div;
  BBavg ← csc_matrix n1 n2 ((λ p, p.1 / p.2)%Qc <$> quot) (fst <$> b_3);
  setitems BBavg ii_diag [0%Qc].

(** [sparse.csr_matrix((BBavg[AA.nonzero()].flatten(), AA.nonzero()), shape)] *)
Definition force_pattern (BBavg AA : spmatrix) : result spmatrix :=
  let ix := nonzero AA in
  if decide (Forall (λ rc, rc.1 < nrows BBavg ∧ rc.2 < ncols BBavg) ix)
  then Ok (from_triples (nrows BBavg) (ncols BBavg)
             ((λ rc, (rc, getv BBavg rc.1 rc.2)) <$> ix))
  else Raise IndexError.

(** The function on the matrices its two reference arguments denote; it
    reads them and the global [ii_diag], and mutates nothing.  Its last
    step prints the sparsity of the result. *)
Definition sparse_parameter_estimation_on (ii_diag : list (nat * nat)) (rr : Qc)
    (XtX AA : spmatrix) (XtXdiag : list Qc) : result spmatrix :=
  sortedList ← sortedList_of AA XtXdiag;
  st ← partition_loop rr AA sortedList;
  let blockList := st.2 in
  BBlist ← solve_blocks rr XtX blockList;
  BBavg ← aggregate (nrows XtX) (ncols XtX) ii_diag BBlist;
  BBavg ← force_pattern BBavg AA;
  _ ← printed_sparsity BBavg AA;
  Ok BBavg.

Definition sparse_parameter_estimation (ii_diag : list (nat * nat)) (rr : Qc)
    (XtX AA : loc) (XtXdiag : list Qc) : M spmatrix :=
  X ← deref XtX;
  A ← deref AA;
  lift (sparse_parameter_estimation_on ii_diag rr X A XtXdiag).

(** *** [sparse_solution] and the training cell *)

(** The module-level names the function reads. *)
Record globals := Globals {
  g_XtX : loc;
  g_AtA : loc;
  g_XtXdiag : list Qc;
  g_ii_diag : list (nat * nat)
}.

(** [X[ii_diag] = vals] on the object behind a reference. *)
Definition set_diagonal (X : loc) (ii_diag : list (nat * nat)) (vals : list Qc) : M unit :=
  A ← deref X;
  A' ← lift (setitems A ii_diag vals);
  store X A'.

Definition sparse_solution (g : globals) (rr : Qc) (maxInColumn : nat) (L2reg : Qc)
  : M spmatrix :=
  _ ← set_diagonal (g_XtX g) (g_ii_diag g) (g_XtXdiag g);
  AA ← calculate_sparsity_pattern (g_AtA g) maxInColumn;
  let regularized := (λ d, d + L2reg)%Qc <$> g_XtXdiag g in
  _ ← set_diagonal (g_XtX g) (g_ii_diag g) regularized;
  sparse_parameter_estimation (g_ii_diag g) rr (g_XtX g) AA regularized.

(** [sparse.diags(scaling).dot(BB).dot(sparse.diags(rescaling))]; a sparse
    product stores only the nonzero results. *)
Definition scale_entries (f : nat * nat → Qc) (B : spmatrix) : spmatrix :=
  eliminate_zeros
    (SpMatrix (nrows B) (ncols B) (map_imap (λ rc v, Some (f rc * v)%Qc) (entries B))).

Definition rescale_back (scaling rescaling : list Qc) (BB : spmatrix) : result spmatrix :=
  if decide (length scaling = nrows BB ∧ length rescaling = ncols BB)
  then Ok (scale_entries (λ rc, rescaling !!! rc.2)
             (scale_entries (λ rc, scaling !!! rc.1) BB))
  else Raise ValueError.

Definition train (g : globals) (scaling rescaling : list Qc)
    (rr : Qc) (maxInColumn : nat) (L2reg : Qc) : M spmatrix :=
  BBsparse ← sparse_solution g rr maxInColumn L2reg;
  lift (rescale_back scaling rescaling BBsparse).

End sparse_model.

(** ** A reference implementation of the numeric library

    Used to run the functions on concrete inputs: a merge sort for
    [np.argsort] and [bn.argpartition] (a fully sorted order is a valid
    partition), the adjugate formula for [np.linalg.inv], and a power that
    is exact where the result is a rational number it finds by integer roots
    (in particular on the bases 0 and 1, the only ones the examples raise
    to a fractional exponent) and is the real power rounded down to a
    multiple of [2 ** -64] elsewhere. *)

Definition key_le (l : list Qc) (a b : nat) : Prop := (l !!! a ≤ l !!! b)%Qc.

Global Instance key_le_dec l : RelDecision (key_le l).
Proof. intros a b. unfold key_le. apply _. Defined.

Definition argsort_ref (l : list Qc) : list nat :=
  merge_sort (key_le l) (seq 0 (length l)).

Definition minor (T : dense) (a b : nat) : dense := delete b <$> delete a T.

Definition sign (k : nat) : Qc := if Nat.even k then 1%Qc else (-1)%Qc.

Fixpoint det (n : nat) (T : dense) : Qc :=
  match n with
  | 0 => 1%Qc
  | S n' => Qcsum (imap (λ j x, sign j * x * det n' (minor T 0 j))%Qc (T !!! 0))
  end.

Definition inv_ref (T : dense) : option dense :=
  let m := length T in
  let d := det m T in
  if decide (d = 0%Qc) then None
  else Some ((λ a, (λ b, sign (a + b) * det (m - 1) (minor T b a) / d)%Qc
                     <$> seq 0 m) <$> seq 0 m).

(** Bisection for an integer root: the bits below [bits] are added to [r],
    from the highest down, as long as the [n]-th power stays within [a]. *)
Fixpoint root_bits (n : positive) (a : Z) (bits : nat) (r : Z) : Z :=
  match bits with
  | 0 => r
  | S b =>
      let r' := (r + 2 ^ Z.of_nat b)%Z in
      root_bits n a b (if decide (r' ^ Z.pos n ≤ a)%Z then r' else r)
  end.

(** The integer part of the [n]-th root of [a >= 0]. *)
Definition Z_root (n : positive) (a : Z) : Z :=
  root_bits n a (Z.to_nat (Z.log2 a) + 1) 0.

(** [x ** (p / q)] for [x >= 0]: the quotient of the roots of [a ** p] and
    [b ** p] when these are integers, and otherwise the root of
    [x ** p], scaled by [2 ** 64], rounded down. *)
Definition power_pos (x : Qc) (p q : positive) : Qc :=
  let a := (Qnum (this x) ^ Z.pos p)%Z in
  let b := (Z.pos (Qden (this x)) ^ Z.pos p)%Z in
  let ra := Z_root q a in
  let rb := Z_root q b in
  if decide (ra ^ Z.pos q = a ∧ rb ^ Z.pos q = b)%Z
  then (Qc_of_Z ra / Qc_of_Z rb)%Qc
  else (Qc_of_Z (Z_root q ((a * 2 ^ (64 * Z.pos q)) `div` b)) / Qc_of_Z (2 ^ 64))%Qc.

(** A negative base has no real power with a fractional exponent ([nan],
    outside the model); a negative exponent inverts. *)
Definition power_ref (x y : Qc) : Qc :=
  let q := Qden (this y) in
  let pw (p : positive) : Qc :=
    if decide (0 ≤ x)%Qc then power_pos x p q
    else if decide (q = 1%positive)
         then (if Z.even (Z.pos p) then power_pos (- x) p 1
               else - power_pos (- x) p 1)%Qc
         else 0%Qc in
  match Qnum (this y) with
  | Z0 => 1%Qc
  | Z.pos p => pw p
  | Z.neg p => (1 / pw p)%Qc
  end.

(** The reference implementation meets the contracts of [NumLib]: the
    merge sort returns a permutation of the positions, sorted by key, which
    is also a valid answer of [bn.argpartition] for every pivot; the
    adjugate formula returns a square array of the argument's size. *)
Global Instance numlib_ref : NumLib.
Proof.
  assert (∀ l i j a b,
    i ≤ j → argsort_ref l !! i = Some a → argsort_ref l !! j = Some b →
    (l !!! a ≤ l !!! b)%Qc) as Hsorted.
  { intros l i j a b Hij Ha Hb.
    assert (Transitive (key_le l)) by (intros x y z; apply Qcle_trans).
    assert (Total (key_le l)) by (intros x y; apply Qc_le_total).
    pose proof (StronglySorted_merge_sort (key_le l) (seq 0 (length l))) as Hs.
    fold (argsort_ref l) in Hs. revert i j Hij Ha Hb.
    induction Hs as [|x l' Hs IH Hall]; intros i j Hij Ha Hb.
    - by rewrite lookup_nil in Ha.
    - destruct i as [|i], j as [|j]; simplify_eq/=.
      + apply Qcle_refl.
      + rewrite Forall_forall in Hall. apply Hall. by eapply list_elem_of_lookup_2.
      + lia.
      + eapply IH; [|done..]. lia. }
  refine {| np_power := power_ref;
            np_argsort := argsort_ref;
            bn_argpartition := λ l _, argsort_ref l;
            linalg_inv := inv_ref |}.
  - intros l. apply merge_sort_Permutation.
  - exact Hsorted.
  - intros l kth _. apply merge_sort_Permutation.
  - intros l kth p q a b _ Hp Hq. apply Hsorted. lia.
  - intros T T'. unfold inv_ref. case_decide; [done|]. intros [= <-]. split.
    + by rewrite length_fmap, length_seq.
    + apply Forall_fmap, Forall_forall. intros a _. simpl.
      by rewrite length_fmap, length_seq.
  - reflexivity.
Defined.

(** ** Notions the statements are written in *)

(** The values a list of triples gives for the coordinate [k]. *)
Definition contributions (k : nat * nat) (ts : list (nat * nat * Qc)) : list Qc :=
  snd <$> filter (λ t, t.1 = k) ts.

Section notions.
Context `{NumLib}.

(** The entry of a tile in terms of the two items. *)
Definition tile_entry (train_data : spmatrix) (i j : nat) : Qc :=
  ((scaling_of train_data !!! i)
   * (dot_columns train_data i j
      - (mu_of train_data !!! i)
        * ((mu_of train_data !!! j) * Qc_of_nat (nrows train_data)))
   * (scaling_of train_data !!! j))%Qc.

Definition tile_dense (train_data : spmatrix) (bs : Z) (ii jj : nat) : dense :=
  let N := ncols train_data in
  (λ i, (λ j, tile_entry train_data i j)
          <$> py_slice (bs * Z.of_nat jj) (bs * (Z.of_nat jj + 1)) N)
    <$> py_slice (bs * Z.of_nat ii) (bs * (Z.of_nat ii + 1)) N.

(** Everything the double loop collects, tile after tile. *)
Definition all_tiles (X : spmatrix) (bs : Z) (thd : Qc) (B : nat)
  : list (nat * nat * Qc) :=
  ii ← seq 0 B; jj ← seq 0 B; tile_nz bs thd ii jj (tile_dense X bs ii jj).

(** The coordinates whose naive value passes both filters. *)
Definition kept_for_AtA (X : spmatrix) (thd4mem thd4comp : Qc) : list (nat * nat) :=
  filter (λ k, thd4mem < Qcabs (naive_XtX X k.1 k.2)
               ∧ thd4comp ≤ Qcabs (naive_XtX X k.1 k.2))%Qc
    (i ← seq 0 (ncols X); (λ j, (i, j)) <$> seq 0 (ncols X)).

(** The positions [bn.argpartition] returns for the column [c] of [A], and
    the rows before and from position [K]. *)
Definition partitioned (K : nat) (A : spmatrix) (c : nat) : list nat :=
  bn_argpartition ((λ j, - Qcabs (getv A j c))%Qc <$> nonzero_rows A c) K.

Definition kept_rows (K : nat) (A : spmatrix) (c : nat) : list nat :=
  (λ k, nonzero_rows A c !!! k) <$> take K (partitioned K A c).

Definition dropped_rows (K : nat) (A : spmatrix) (c : nat) : list nat :=
  if decide (nonzero_rows A c = []) then []
  else (λ k, nonzero_rows A c !!! k) <$> drop K (partitioned K A c).

(** The columns the loop gets through: without a nonzero value, or with
    more than [K] of them. *)
Definition cappable (K : nat) (A : spmatrix) (c : nat) : Prop :=
  nonzero_rows A c = [] ∨ K < length (nonzero_rows A c).

Definition cap_body (AA : loc) (maxInColumn : nat) (ii : nat) : M () :=
  A ← deref AA; A' ← lift (cap_column maxInColumn A ii); store AA A'.

(** The state of the loop: an item's flag is cleared exactly when a block
    emitted so far retires it. *)
Definition flags_agree (rr : Qc) (N : nat) (st : list Qc * list (list nat)) : Prop :=
  length st.1 = N ∧
  ∀ i, i < N →
    (st.1 !! i = Some 0%Qc ∧ ∃ nn, nn ∈ st.2 ∧ i ∈ retired rr nn) ∨
    (st.1 !! i = Some 1%Qc ∧ ∀ nn, nn ∈ st.2 → i ∉ retired rr nn).

(** How many of the emitted blocks retire the item [i]. *)
Definition times_retired (rr : Qc) (blockList : list (list nat)) (i : nat) : nat :=
  length (filter (λ nn, i ∈ retired rr nn) blockList).

(** ** The notebook, from the training data to the weight matrix

    The cells that call [filter_XtX], bind the module-level names
    ([ii_diag], [scaling]) and train and re-scale the sparse model. *)
Definition notebook (train_data : spmatrix) (block_size : Z)
    (thd4mem thd4comp rr : Qc) (maxInColumn : nat) (L2reg : Qc) : result spmatrix :=
  '(XtX, rescaling, XtXdiag, AtA) ← filter_XtX train_data block_size thd4mem thd4comp;
  let ii_diag := diag_indices (nrows XtX) in
  let scaling := (λ x, 1 / x)%Qc <$> rescaling in
  let g := Globals 0 1 XtXdiag ii_diag in
  let h : gmap loc spmatrix := <[0 := XtX]> (<[1 := AtA]> ∅) in
  (train g scaling rescaling rr maxInColumn L2reg h).1.

End notions.

(** The coordinates of a shape, column by column. *)
Definition grid_cm (n1 n2 : nat) : list (nat * nat) :=
  c ← seq 0 n2; (λ r, (r, c)) <$> seq 0 n1.

(** The arithmetic mean of what the blocks contribute to a coordinate
    (0 when nothing is contributed). *)
Definition mean_contribution (BBlist : list (nat * nat * Qc)) (k : nat * nat) : Qc :=
  (Qcsum (contributions k BBlist) / Qc_of_nat (length (contributions k BBlist)))%Qc.

(** ** Example data *)

(** The sparse matrix holding the nonzero entries of a dense array. *)
Definition of_rows (n1 n2 : nat) (rows : list (list Q)) : spmatrix :=
  from_triples n1 n2
    (filter (λ t, t.2 ≠ 0%Qc)
       (mjoin (imap (λ i row, imap (λ j x, ((i, j), Q2Qc x)) row) rows))).

(** Four users, three items; every item has two of the four users, so
    that [variance_times_userCount] is 1 and the rescaling is exactly 1. *)
Definition X_ex : spmatrix :=
  of_rows 4 3 [[1; 1; 0]; [1; 0; 1]; [0; 1; 1]; [0; 0; 0]]%Q.

Definition half : Qc := Q2Qc (1 # 2).

(** A chain of four items; the magnitudes in every column are pairwise
    distinct, so no result below depends on how ties are broken. *)
Definition A_ex : spmatrix :=
  of_rows 4 4 [[4; 1; 0; 0]; [1; 5; 2; 0]; [0; 2; 6; 3]; [0; 0; 3; 7]]%Q.

(** Module-level state: [XtX] at reference 0, [AtA] at reference 1. *)
Definition g_ex : globals := Globals 0 1 (diagonal A_ex) (diag_indices 4).

Definition h_ex : gmap loc spmatrix := <[0 := A_ex]> (<[1 := A_ex]> ∅).

(** One item only; two items, each with half of the play counts of the four
    users (the rescaling is exactly 1), the first user having played the
    second item twice; a column that stores an explicit zero. *)
Definition X_one : spmatrix := of_rows 2 1 [[1]; [0]]%Q.

Definition X_two : spmatrix := of_rows 4 2 [[1; 2]; [1; 0]; [0; 0]; [0; 0]]%Q.

Definition A_zero : spmatrix := setitem (of_rows 2 1 [[1]; [1]]%Q) 1 0 0.

(** ** Loading the pre-processed data

    What [pd.read_csv] returns for a file written by [numerize]: the rows
    [(uid, sid)], user index and item index, in file order. *)

(** [sparse.csr_matrix((np.ones_like(rows), (rows, cols)), shape=(n1, n2))]:
    an index outside the shape is a [ValueError]; a coordinate given
    several times holds the number of times it is given. *)
Definition csr_of_ones (n1 n2 : nat) (coords : list (nat * nat)) : result spmatrix :=
  if decide (Forall (λ rc, rc.1 < n1 ∧ rc.2 < n2) coords)
  then Ok (from_triples n1 n2 ((λ rc, (rc, 1%Qc)) <$> coords))
  else Raise ValueError.

(** [tp['uid'].max()] of a frame without rows is [nan], and the sparse
    constructor rejects the shape [(nan, n_items)] with a [TypeError]. *)
Definition load_train_data (n_items : nat) (tp : list (nat * nat)) : result spmatrix :=
  match tp with
  | [] => Raise TypeError
  | _ :: _ =>
      let n_users := max_list tp.*1 + 1 in
      csr_of_ones n_users n_items tp
  end.

(** Python's [min] and [max] keep their first argument when the second is
    [nan]: an empty second frame does not matter, an empty first frame makes
    both bounds [nan]. *)
Definition load_tr_te_data (n_items : nat) (tp_tr tp_te : list (nat * nat))
  : result (spmatrix * spmatrix) :=
  match tp_tr with
  | [] => Raise TypeError
  | (u0, _) :: _ =>
      let start_idx := foldr Nat.min u0 (tp_tr.*1 ++ tp_te.*1) in
      let end_idx := foldr Nat.max u0 (tp_tr.*1 ++ tp_te.*1) in
      let shift := λ rc : nat * nat, (rc.1 - start_idx, rc.2) in
      data_tr ← csr_of_ones (end_idx - start_idx + 1) n_items (shift <$> tp_tr);
      data_te ← csr_of_ones (end_idx - start_idx + 1) n_items (shift <$> tp_te);
      Ok (data_tr, data_te)
  end.

(** How often a row occurs in a frame. *)
Definition occurrences (rc : nat * nat) (tp : list (nat * nat)) : nat :=
  length (filter (λ x, x = rc) tp).

(** ** Ranking metrics

    [X_pred] is a dense array of the shape of [heldout_batch], given by its
    entries; its scores are finite.  A metric that NumPy evaluates to [nan]
    (the quotient 0/0 of a user without held-out items, or for [k = 0]) is
    [None]. *)

(** [np.log2] on the integers from 2 on: positive and non-decreasing. *)
Class LogLib := {
  np_log2 : nat → Qc;
  np_log2_pos : ∀ n, 2 ≤ n → (0 < np_log2 n)%Qc;
  np_log2_mono : ∀ m n, 2 ≤ m → m ≤ n → (np_log2 m ≤ np_log2 n)%Qc
}.

Section metrics.
Context `{NumLib} `{LogLib}.

(** [bn.argpartition(-X_pred, k, axis=1)], row by row.  The pivot is
    checked against the length of the axis before any row is looked at; an
    axis of length 0 is returned as it is. *)
Definition argpartition_rows (X_pred : nat → nat → Qc) (batch_users n_items k : nat)
  : result (list (list nat)) :=
  if decide (n_items = 0) then Ok (replicate batch_users [])
  else if decide (k < n_items)
  then Ok ((λ u, bn_argpartition ((λ i, - X_pred u i)%Qc <$> seq 0 n_items) k)
             <$> seq 0 batch_users)
  else Raise ValueError.

(** The columns where [(heldout_batch > 0).toarray()] is [True] in row [u]. *)
Definition true_items (heldout_batch : spmatrix) (u : nat) : list nat :=
  filter (λ i, (0 < getv heldout_batch u i)%Qc) (seq 0 (ncols heldout_batch)).

Definition Recall_at_k_batch (X_pred : nat → nat → Qc) (heldout_batch : spmatrix)
    (k : nat) : result (list (option Qc)) :=
  let batch_users := nrows heldout_batch in
  idx ← argpartition_rows X_pred batch_users (ncols heldout_batch) k;
  Ok ((λ u,
         (* the columns set to [True] in row [u] of [X_pred_binary] *)
         let X_pred_binary := take k (idx !!! u) in
         let X_true_binary := true_items heldout_batch u in
         let tmp := length (filter (λ i, i ∈ X_pred_binary) X_true_binary) in
         let denominator := Nat.min k (length X_true_binary) in
         if decide (denominator = 0) then None
         else Some (Qc_of_nat tmp / Qc_of_nat denominator)%Qc)
        <$> seq 0 batch_users).

(** [idx_topk[u]]: the first [k] positions of the partition, re-ordered by
    [np.argsort] of their negated scores. *)
Definition idx_topk_row (X_pred : nat → nat → Qc) (k u : nat) (part : list nat) : list nat :=
  let topk_part := (λ i, X_pred u i) <$> take k part in
  let idx_part := np_argsort ((λ x, - x)%Qc <$> topk_part) in
  (λ j, part !!! j) <$> idx_part.

(** The discount template [1. / np.log2(np.arange(2, k + 2))]. *)
Definition discount (k : nat) : list Qc :=
  (λ j, 1 / np_log2 (j + 2))%Qc <$> seq 0 k.

(** [heldout_batch.getnnz(axis=1)[u]] *)
Definition getnnz_row (M : spmatrix) (u : nat) : nat :=
  length (filter (λ i, is_Some (entries M !! (u, i))) (seq 0 (ncols M))).

(** With no item at all the product of the empty rows with the discount
    template only broadcasts for [k <= 1]. *)
Definition NDCG_binary_at_k_batch (X_pred : nat → nat → Qc) (heldout_batch : spmatrix)
    (k : nat) : result (list (option Qc)) :=
  let batch_users := nrows heldout_batch in
  let n_items := ncols heldout_batch in
  idx_topk_part ← argpartition_rows X_pred batch_users n_items k;
  let tp := discount k in
  if decide (n_items = 0 ∧ 1 < k) then Raise ValueError else
  Ok ((λ u,
         let idx_topk := idx_topk_row X_pred k u (idx_topk_part !!! u) in
         let DCG := Qcsum (zip_with (λ i t, getv heldout_batch u i * t)%Qc idx_topk tp) in
         let IDCG := Qcsum (take (Nat.min (getnnz_row heldout_batch u) k) tp) in
         if decide (IDCG = 0%Qc) then None else Some (DCG / IDCG)%Qc)
        <$> seq 0 batch_users).

End metrics.

(** A discrete logarithm for running the metrics on examples. *)
Global Instance loglib_ref : LogLib.
Proof.
  refine {| np_log2 := λ n, Qc_of_nat (Nat.log2 n) |}.
  - intros n Hn. pose proof (Nat.log2_pos n ltac:(lia)) as Hpos.
    change (0 * 1 < Z.of_nat (Nat.log2 n) * 1)%Z. lia.
  - intros m n _ Hmn. pose proof (Nat.log2_le_mono m n Hmn) as Hle.
    change (Z.of_nat (Nat.log2 m) * 1 ≤ Z.of_nat (Nat.log2 n) * 1)%Z. lia.
Defined.

(** Two users and four items: predicted scores and held-out items (the
    second user has none). *)
Definition P_ex (u i : nat) : Qc :=
  dget [[Q2Qc 3; Q2Qc 1; Q2Qc 2; Q2Qc 0]; [Q2Qc 1; Q2Qc 2; Q2Qc 3; Q2Qc 4]] u i.

Definition H_ex : spmatrix := of_rows 2 4 [[1; 0; 0; 1]; [0; 0; 0; 0]]%Q.

(** ** Pre-processing the play counts

    A data frame is the list of its rows, in order.  User and item
    identifiers are numbered: only their equality and their order (the
    order in which [groupby] goes through the groups) matter. *)

Record triplet := Triplet {
  userId : nat;
  songId : nat;
  playCount : nat
}.

Global Instance triplet_eq_dec : EqDecision triplet.
Proof. solve_decision. Defined.

Global Instance triplet_inhabited : Inhabited triplet := populate (Triplet 0 0 0).

(** The group keys of a column, in increasing order. *)
Definition sorted_keys (ids : list nat) : list nat :=
  merge_sort (≤) (remove_dups ids).

(** [get_count(tp, id)] on the column [id] of [tp]: a series indexed by the
    group keys, holding the size of each group (the [groupby(...).size()]
    of the pandas the notebook was written for). *)
Definition get_count (ids : list nat) : list (nat * nat) :=
  (λ x, (x, length (filter (λ y, y = x) ids))) <$> sorted_keys ids.

(** [tp[tp[id].isin(count.index[count >= min_c])]] for [count =
    get_count(tp, id)] *)
Definition keep_frequent (min_c : nat) (id : triplet → nat) (tp : list triplet)
  : list triplet :=
  let count := get_count (id <$> tp) in
  let index := fst <$> filter (λ kc, min_c ≤ kc.2) count in
  filter (λ t, id t ∈ index) tp.

Definition filter_triplets (tp : list triplet) (min_uc min_sc : nat)
  : list triplet * list (nat * nat) * list (nat * nat) :=
  let tp := if decide (0 < min_sc) then keep_frequent min_sc songId tp else tp in
  let tp := if decide (0 < min_uc) then keep_frequent min_uc userId tp else tp in
  let usercount := get_count (userId <$> tp) in
  let itemcount := get_count (songId <$> tp) in
  (tp, usercount, itemcount).

(** *** Train, validation and test users *)

(** [l[lo:hi]] *)
Definition slice {A} `{Inhabited A} (l : list A) (lo hi : Z) : list A :=
  take_idx l (py_slice lo hi (length l)).

(** The cell that cuts [unique_uid] into [tr_users], [vd_users] and
    [te_users]; an omitted bound of a slice is the end of the list. *)
Definition split_users {A} `{Inhabited A} (unique_uid : list A) (n_heldout_users : nat)
  : list A * list A * list A :=
  let n_users := Z.of_nat (length unique_uid) in
  let h := Z.of_nat n_heldout_users in
  let tr_users := slice unique_uid 0 (n_users - h * 2) in
  let vd_users := slice unique_uid (n_users - h * 2) (n_users - h) in
  let te_users := slice unique_uid (n_users - h) n_users in
  (tr_users, vd_users, te_users).

(** *** Numbering users and items *)

(** [pd.unique(l)]: the distinct values in order of first appearance. *)
Definition pd_unique (l : list nat) : list nat := reverse (remove_dups (reverse l)).

(** [dict((x, i) for (i, x) in enumerate(l))]: a later pair replaces an
    earlier one with the same key. *)
Definition enumerate_dict (l : list nat) : gmap nat nat :=
  foldl (λ m ix, <[ix.2 := ix.1]> m) ∅ (imap pair l).

(** [numerize(tp)] with the dictionaries it reads; [None] is the [KeyError]
    of a user or an item that is not a key. *)
Definition numerize (profile2id show2id : gmap nat nat) (tp : list triplet)
  : option (list (nat * nat)) :=
  uid ← mapM (λ t, profile2id !! userId t) tp;
  sid ← mapM (λ t, show2id !! songId t) tp;
  Some (zip uid sid).

(** The cells from the choice of the training users to [train.csv]: the
    rows of the training users, the item set they use, the two
    dictionaries, and the numbered training frame. *)
Definition train_frame (raw_data : list triplet) (unique_uid tr_users : list nat)
  : list nat * option (list (nat * nat)) :=
  let train_plays := filter (λ t, userId t ∈ tr_users) raw_data in
  let unique_sid := pd_unique (songId <$> train_plays) in
  let show2id := enumerate_dict unique_sid in
  let profile2id := enumerate_dict unique_uid in
  (unique_sid, numerize profile2id show2id train_plays).

(** *** Fold-in and held-out rows of a user *)

(** [np.random.choice(n, size=size, replace=False)] for [size <= n]: [size]
    distinct positions below [n].  The first argument counts the calls made
    since [np.random.seed]. *)
Class RandomLib := {
  np_random_choice : nat → nat → nat → list nat;
  np_random_choice_NoDup : ∀ call n size,
    size ≤ n → NoDup (np_random_choice call n size);
  np_random_choice_length : ∀ call n size,
    size ≤ n → length (np_random_choice call n size) = size;
  np_random_choice_lt : ∀ call n size x,
    size ≤ n → x ∈ np_random_choice call n size → x < n
}.

(** [int(q)]: truncation towards zero. *)
Definition Qc_int (q : Qc) : Z := Z.quot (Qnum (this q)) (Z.pos (Qden (this q))).

(** The number of rows of a group that the split holds out:
    [int(test_prop * n_items_u)], a binary64 product, for a group of at
    least five rows. *)
Definition held_out (test_prop : Qc) (group : list triplet) : nat :=
  if decide (5 ≤ length group)
  then Z.to_nat (Qc_int (float_mul (b64_round test_prop) (float_of_nat (length group))))
  else 0.

Section split_proportion.
Context `{RandomLib}.

(** The groups of [data.groupby('userId')], by increasing user. *)
Definition groups_by_user (data : list triplet) : list (list triplet) :=
  (λ u, filter (λ t, userId t = u) data) <$> sorted_keys (userId <$> data).

(** The body of the loop: the state is the number of calls of
    [np.random.choice] so far, [tr_list] and [te_list].  A negative sample
    size and one above the size of the group are a [ValueError]. *)
Definition split_group (test_prop : Qc)
    (st : nat * list (list triplet) * list (list triplet)) (group : list triplet)
  : result (nat * list (list triplet) * list (list triplet)) :=
  let '(calls, tr_list, te_list) := st in
  let n_items_u := length group in
  if decide (5 ≤ n_items_u) then
    let size := Qc_int (float_mul (b64_round test_prop) (float_of_nat n_items_u)) in
    if decide (0 ≤ size ∧ size ≤ Z.of_nat n_items_u)%Z then
      let chosen := np_random_choice calls n_items_u (Z.to_nat size) in
      let tr := (λ p, group !!! p) <$> filter (λ p, p ∉ chosen) (seq 0 n_items_u) in
      let te := (λ p, group !!! p) <$> filter (λ p, p ∈ chosen) (seq 0 n_items_u) in
      Ok (S calls, tr_list ++ [tr], te_list ++ [te])
    else Raise ValueError
  else Ok (calls, tr_list ++ [group], te_list).

(** [pd.concat(frames)]: nothing to concatenate is a [ValueError]. *)
Definition pd_concat {A} (frames : list (list A)) : result (list A) :=
  match frames with
  | [] => Raise ValueError
  | _ :: _ => Ok (mjoin frames)
  end.

Definition split_train_test_proportion (data : list triplet) (test_prop : Qc)
  : result (list triplet * list triplet) :=
  st ← foldM (split_group test_prop) (0, [], []) (groups_by_user data);
  let '(_, tr_list, te_list) := st in
  data_tr ← pd_concat tr_list;
  data_te ← pd_concat te_list;
  Ok (data_tr, data_te).

End split_proportion.

(** A sampler for running the split on examples: the last positions. *)
Global Instance randomlib_ref : RandomLib.
Proof.
  refine {| np_random_choice := λ _ n size, seq (n - size) size |}.
  - intros _ n size _. apply NoDup_seq.
  - intros _ n size _. apply length_seq.
  - intros _ n size x Hs Hx%elem_of_seq. lia.
Defined.

(** One user with a hundred rows. *)
Definition raw_hundred : list triplet := (λ i, Triplet 1 i 1) <$> seq 0 100.

(** Play counts of three users: user 4 has five rows, user 2 two rows and
    user 9 one row; item 30 is played by all three. *)
Definition raw_ex : list triplet :=
  [Triplet 4 30 1; Triplet 2 30 2; Triplet 4 10 1; Triplet 4 20 3;
   Triplet 9 30 1; Triplet 4 40 1; Triplet 2 10 5; Triplet 4 50 2].

(** * Properties *)

(** ** The result monad *)

Lemma result_bind_Ok {A B} (f : A → result B) (m : result A) (b : B) :
  m ≫= f = Ok b ↔ ∃ a, m = Ok a ∧ f a = Ok b.
Proof.
  destruct m as [a|e]; simpl.
  - split; [eauto | by intros (? & [= <-] & ?)].
  - split; [done | by intros (? & ? & ?)].
Qed.

Lemma Ok_inj {A} (x y : A) : Ok x = Ok y → x = y.
Proof. by intros [= ->]. Qed.

Lemma foldM_app {A B} (body : B → A → result B) acc l1 l2 :
  foldM body acc (l1 ++ l2) = acc' ← foldM body acc l1; foldM body acc' l2.
Proof.
  revert acc. induction l1 as [|x l1 IH]; intros acc; [done|].
  simpl. destruct (body acc x) as [acc'|e]; simpl; [apply IH | done].
Qed.

(** ** Lists *)

Lemma lookup_total_fmap_lt {A B} `{Inhabited A, Inhabited B} (f : A → B) (l : list A) i :
  i < length l → (f <$> l) !!! i = f (l !!! i).
Proof. apply list_lookup_total_fmap. Qed.

Lemma filter_none {A} (P : A → Prop) `{∀ x, Decision (P x)} (l : list A) :
  (∀ x, x ∈ l → ¬ P x) → filter P l = [].
Proof.
  induction l as [|x l IH]; intros Hl; [done|].
  rewrite filter_cons_False by (apply Hl; left).
  apply IH. intros y Hy. apply Hl. by right.
Qed.

Lemma filter_ext_in {A} (P Q : A → Prop)
    `{∀ x, Decision (P x), ∀ x, Decision (Q x)} (l : list A) :
  (∀ x, x ∈ l → P x ↔ Q x) → filter P l = filter Q l.
Proof.
  induction l as [|x l IH]; intros HPQ; [done|].
  rewrite !filter_cons, IH by (intros; apply HPQ; by right).
  destruct (decide (P x)) as [HP|HP], (decide (Q x)) as [HQ|HQ]; try done.
  - exfalso. apply HQ, HPQ; [by left | done].
  - exfalso. apply HP, HPQ; [by left | done].
Qed.

Lemma filter_length_mono {A} (P Q : A → Prop)
    `{∀ x, Decision (P x), ∀ x, Decision (Q x)} (l : list A) :
  (∀ x, x ∈ l → P x → Q x) → length (filter P l) ≤ length (filter Q l).
Proof.
  induction l as [|x l IH]; intros HPQ; [done|].
  rewrite !filter_cons.
  assert (length (filter P l) ≤ length (filter Q l)) by (apply IH; intros; apply HPQ; [by right|done]).
  destruct (decide (P x)) as [HP|HP], (decide (Q x)) as [HQ|HQ]; cbn; try lia.
  exfalso. apply HQ, HPQ; [by left | done].
Qed.

(** ** Sums of rationals *)

Lemma Qcsum_app l1 l2 : Qcsum (l1 ++ l2) = (Qcsum l1 + Qcsum l2)%Qc.
Proof.
  induction l1 as [|x l1 IH]; simpl.
  - by rewrite Qcplus_0_l.
  - by rewrite IH, Qcplus_assoc.
Qed.

Lemma Qcsum_perm l1 l2 : l1 ≡ₚ l2 → Qcsum l1 = Qcsum l2.
Proof.
  induction 1 as [|x l1 l2 _ IH|x y l|l1 l2 l3 _ IH1 _ IH2]; simpl.
  - done.
  - by rewrite IH.
  - rewrite !Qcplus_assoc. by rewrite (Qcplus_comm y x).
  - congruence.
Qed.

Lemma Qc_of_nat_0 : Qc_of_nat 0 = 0%Qc.
Proof. by apply Qc_is_canon. Qed.

Lemma Qc_of_nat_S n : Qc_of_nat (S n) = (1 + Qc_of_nat n)%Qc.
Proof.
  apply Qc_is_canon. unfold Qc_of_nat, Qc_of_Z.
  rewrite Nat2Z.inj_succ. unfold Z.succ. cbn [this Qcplus Q2Qc].
  rewrite !Qred_correct, inject_Z_plus. apply Qplus_comm.
Qed.

Lemma Qc_of_nat_neq_0 n : n ≠ 0 → Qc_of_nat n ≠ 0%Qc.
Proof.
  intros Hn Heq. apply (f_equal this) in Heq. unfold Qc_of_nat, Qc_of_Z in Heq.
  simpl in Heq. injection Heq as Heq. lia.
Qed.

Lemma Qcsum_ones {A} (l : list A) : Qcsum ((λ _, 1%Qc) <$> l) = Qc_of_nat (length l).
Proof.
  induction l as [|x l IH]; simpl.
  - by rewrite Qc_of_nat_0.
  - rewrite Qc_of_nat_S, <- IH. reflexivity.
Qed.

(** ** Binary64 rounding *)

Lemma pow2_this z : (this (pow2 z) == 2 ^ z)%Q.
Proof. unfold pow2. cbn [this Q2Qc]. apply Qred_correct. Qed.

Lemma pow2_pos z : (0 < pow2 z)%Qc.
Proof.
  unfold Qclt. rewrite pow2_this. change (this 0%Qc) with 0%Q.
  by apply Qpower_0_lt.
Qed.

Lemma pow2_add a b : pow2 (a + b) = (pow2 a * pow2 b)%Qc.
Proof.
  apply Qc_is_canon. cbn [this Qcmult Q2Qc]. rewrite Qred_correct.
  rewrite !pow2_this. by apply Qpower_plus.
Qed.

Lemma pow2_0 : pow2 0 = 1%Qc.
Proof. by apply Qc_is_canon. Qed.

Lemma pow2_le a b : (a ≤ b)%Z → (pow2 a ≤ pow2 b)%Qc.
Proof.
  intros Hab. unfold Qcle. rewrite !pow2_this.
  by apply Qpower_le_compat_l.
Qed.

Lemma pow2_lt a b : (a < b)%Z → (pow2 a < pow2 b)%Qc.
Proof.
  intros Hab. unfold Qclt. rewrite !pow2_this.
  by apply Qpower_lt_compat_l.
Qed.

Lemma pow2_lt_inv a b : (pow2 a < pow2 b)%Qc → (a < b)%Z.
Proof.
  intros Hlt. destruct (Z.lt_ge_cases a b) as [?|Hge]; [done|].
  apply pow2_le in Hge. by apply Qcle_not_lt in Hge.
Qed.

Lemma pow2_Z z : (0 ≤ z)%Z → pow2 z = Qc_of_Z (2 ^ z).
Proof.
  intros Hz. apply Qc_is_canon. rewrite pow2_this.
  cbn [this Qc_of_Z Q2Qc]. symmetry. by apply Zpower_Qpower.
Qed.

(** *** The binary exponent *)

Lemma Qc_num_den (q : Qc) :
  (q * Qc_of_Z (Z.pos (Qden (this q))))%Qc = Qc_of_Z (Qnum (this q)).
Proof.
  apply Qc_is_canon. destruct q as [[a b] Hc].
  cbn [this Qcmult Q2Qc Qc_of_Z Qnum Qden]. etrans; [apply Qred_correct|].
  unfold Qeq, Qmult, inject_Z. cbn [Qnum Qden]. lia.
Qed.

Lemma Qc_num_pos (q : Qc) : (0 < q)%Qc → (0 < Qnum (this q))%Z.
Proof.
  unfold Qclt, Qlt. change (this 0%Qc) with (0 # 1)%Q. cbn [Qnum Qden]. lia.
Qed.

Lemma Z_log2_pow2 (a : Z) :
  (0 < a)%Z → (pow2 (Z.log2 a) ≤ Qc_of_Z a)%Qc ∧ (Qc_of_Z a < pow2 (Z.log2 a + 1))%Qc.
Proof.
  intros Ha. pose proof (Z.log2_spec a Ha) as [Hlo Hhi].
  pose proof (Z.log2_nonneg a).
  rewrite !pow2_Z by lia. split.
  - by rewrite <- Z2Qc_inj_le.
  - rewrite <- Z2Qc_inj_lt. by rewrite <- Z.add_1_r in Hhi.
Qed.

Lemma Qc_ilog2_spec (q : Qc) :
  (0 < q)%Qc → (pow2 (Qc_ilog2 q) ≤ q)%Qc ∧ (q < pow2 (Qc_ilog2 q + 1))%Qc.
Proof.
  intros Hq. unfold Qc_ilog2.
  set (a := Qnum (this q)). set (b := Z.pos (Qden (this q))).
  pose proof (Qc_num_den q) as Hab. fold a b in Hab.
  pose proof (Qc_num_pos q Hq) as Ha. fold a in Ha.
  destruct (Z_log2_pow2 a Ha) as [Ha1 Ha2].
  destruct (Z_log2_pow2 b ltac:(done)) as [Hb1 Hb2].
  set (e := (Z.log2 a - Z.log2 b)%Z).
  assert (0 < Qc_of_Z b)%Qc as Hb by (by apply (proj1 (Z2Qc_inj_lt 0 b))).
  assert (q < pow2 (e + 1))%Qc as Hup.
  { apply Qcnot_le_lt. intros Hle.
    apply (Qcmult_le_mono_nonneg_r _ _ (Qc_of_Z b)) in Hle; [|by apply Qclt_le_weak].
    rewrite Hab in Hle.
    apply (Qcmult_le_mono_nonneg_l _ _ (pow2 (e + 1))) in Hb1;
      [|apply Qclt_le_weak, pow2_pos].
    rewrite <- pow2_add in Hb1.
    replace (e + 1 + Z.log2 b)%Z with (Z.log2 a + 1)%Z in Hb1 by (unfold e; lia).
    eapply Qcle_not_lt; [|exact Ha2]. by etrans. }
  assert (pow2 (e - 1) ≤ q)%Qc as Hlow.
  { apply Qcnot_lt_le. intros Hlt.
    apply (Qcmult_lt_mono_pos_r _ _ (Qc_of_Z b)) in Hlt; [|done].
    rewrite Hab in Hlt.
    apply (Qcmult_lt_mono_pos_l _ _ (pow2 (e - 1))) in Hb2; [|apply pow2_pos].
    rewrite <- pow2_add in Hb2.
    replace (e - 1 + (Z.log2 b + 1))%Z with (Z.log2 a) in Hb2 by (unfold e; lia).
    eapply Qcle_not_lt; [exact Ha1|]. by etrans. }
  case_decide as He.
  - done.
  - split; [done|]. replace (e - 1 + 1)%Z with e by lia. by apply Qcnot_le_lt.
Qed.

Lemma Qc_ilog2_unique (q : Qc) (e : Z) :
  (pow2 e ≤ q)%Qc → (q < pow2 (e + 1))%Qc → Qc_ilog2 q = e.
Proof.
  intros Hlo Hhi.
  assert (0 < q)%Qc as Hq by (eapply Qclt_le_trans; [apply pow2_pos | done]).
  destruct (Qc_ilog2_spec q Hq) as [Hlo' Hhi'].
  assert (Qc_ilog2 q < e + 1)%Z
    by (apply pow2_lt_inv; eapply Qcle_lt_trans; done).
  assert (e < Qc_ilog2 q + 1)%Z
    by (apply pow2_lt_inv; eapply Qcle_lt_trans; done).
  lia.
Qed.

Lemma Qc_ilog2_mono (q1 q2 : Qc) :
  (0 < q1)%Qc → (q1 ≤ q2)%Qc → (Qc_ilog2 q1 ≤ Qc_ilog2 q2)%Z.
Proof.
  intros Hq1 Hle.
  assert (0 < q2)%Qc as Hq2 by (by eapply Qclt_le_trans).
  destruct (Qc_ilog2_spec q1 Hq1) as [Hlo1 _].
  destruct (Qc_ilog2_spec q2 Hq2) as [_ Hhi2].
  assert (Qc_ilog2 q1 < Qc_ilog2 q2 + 1)%Z; [|lia].
  apply pow2_lt_inv. eapply Qcle_lt_trans; [|exact Hhi2]. by etrans.
Qed.

(** *** Rounding to an integer *)

Lemma Qc_floor_spec (q : Qc) :
  (Qc_of_Z (Qfloor (this q)) ≤ q)%Qc ∧ (q < Qc_of_Z (Qfloor (this q) + 1))%Qc.
Proof.
  unfold Qcle, Qclt. cbn [this Qc_of_Z Q2Qc]. split.
  - apply Qfloor_le.
  - apply Qlt_floor.
Qed.

Lemma Qc_floor_Z (z : Z) : Qfloor (this (Qc_of_Z z)) = z.
Proof. cbn [this Qc_of_Z Q2Qc]. apply Qfloor_Z. Qed.

Lemma Qc_floor_le (q1 q2 : Qc) :
  (q1 ≤ q2)%Qc → (Qfloor (this q1) ≤ Qfloor (this q2))%Z.
Proof. apply Qfloor_resp_le. Qed.

Lemma Qcminus_le_mono_r (x y z : Qc) : (x ≤ y)%Qc → (x - z ≤ y - z)%Qc.
Proof. intros Hxy. unfold Qcminus. by apply Qcplus_le_mono_r. Qed.

Lemma Qcminus_diag (x : Qc) : (x - x)%Qc = 0%Qc.
Proof. ring. Qed.

Lemma round_half_even_cases (q : Qc) :
  round_half_even q = Qfloor (this q) ∨ round_half_even q = (Qfloor (this q) + 1)%Z.
Proof. unfold round_half_even. repeat case_match; auto. Qed.

Lemma round_half_even_Z (z : Z) : round_half_even (Qc_of_Z z) = z.
Proof.
  unfold round_half_even. rewrite Qc_floor_Z, Qcminus_diag.
  by rewrite decide_True by done.
Qed.

Lemma round_half_even_lower (z : Z) (q : Qc) :
  (Qc_of_Z z ≤ q)%Qc → (z ≤ round_half_even q)%Z.
Proof.
  intros Hle. apply Qc_floor_le in Hle. rewrite Qc_floor_Z in Hle.
  destruct (round_half_even_cases q); lia.
Qed.

Lemma round_half_even_upper (z : Z) (q : Qc) :
  (q ≤ Qc_of_Z z)%Qc → (round_half_even q ≤ z)%Z.
Proof.
  intros Hle. pose proof (Qc_floor_le _ _ Hle) as Hf. rewrite Qc_floor_Z in Hf.
  destruct (decide (Qfloor (this q) = z)) as [Heq|Hne].
  - destruct (Qc_floor_spec q) as [Hlo _]. rewrite Heq in Hlo.
    assert (q = Qc_of_Z z) as -> by (by apply Qcle_antisym).
    by rewrite round_half_even_Z.
  - destruct (round_half_even_cases q); lia.
Qed.

Lemma round_half_even_mono (q1 q2 : Qc) :
  (q1 ≤ q2)%Qc → (round_half_even q1 ≤ round_half_even q2)%Z.
Proof.
  intros Hle. pose proof (Qc_floor_le _ _ Hle) as Hf.
  destruct (decide (Qfloor (this q1) = Qfloor (this q2))) as [Heq|Hne].
  - unfold round_half_even. rewrite Heq. set (f := Qfloor (this q2)).
    apply (Qcminus_le_mono_r _ _ (Qc_of_Z f)) in Hle.
    set (d1 := (q1 - Qc_of_Z f)%Qc) in *. set (d2 := (q2 - Qc_of_Z f)%Qc) in *.
    destruct (decide (d1 < Q2Qc (1 # 2))%Qc) as [H1|H1].
    { repeat case_match; lia. }
    apply Qcnot_lt_le in H1.
    rewrite (decide_False (P := (d2 < Q2Qc (1 # 2))%Qc))
      by (apply Qcle_not_lt; by etrans).
    destruct (decide (Q2Qc (1 # 2) < d1)%Qc) as [H2|H2].
    { rewrite (decide_True (P := (Q2Qc (1 # 2) < d2)%Qc)); [done|].
      by eapply Qclt_le_trans. }
    repeat case_match; lia.
  - destruct (round_half_even_cases q1), (round_half_even_cases q2); lia.
Qed.

(** *** The nearest binary64 number *)

Lemma scaled_bounds (q : Qc) :
  (0 < q)%Qc →
  (pow2 52 ≤ q * pow2 (52 - Qc_ilog2 q))%Qc ∧ (q * pow2 (52 - Qc_ilog2 q) < pow2 53)%Qc.
Proof.
  intros Hq. destruct (Qc_ilog2_spec q Hq) as [Hlo Hhi].
  set (e := Qc_ilog2 q) in *. split.
  - replace 52%Z with (e + (52 - e))%Z at 1 by lia. rewrite pow2_add.
    apply Qcmult_le_mono_nonneg_r; [apply Qclt_le_weak, pow2_pos | done].
  - replace 53%Z with (e + 1 + (52 - e))%Z by lia. rewrite pow2_add.
    apply Qcmult_lt_mono_pos_r; [apply pow2_pos | done].
Qed.

Lemma significand_bounds (q : Qc) :
  (0 < q)%Qc →
  (2 ^ 52 ≤ round_half_even (q * pow2 (52 - Qc_ilog2 q)) ≤ 2 ^ 53)%Z.
Proof.
  intros Hq. destruct (scaled_bounds q Hq) as [Hlo Hhi]. split.
  - apply round_half_even_lower. by rewrite <- pow2_Z by lia.
  - apply round_half_even_upper. rewrite <- pow2_Z by lia. by apply Qclt_le_weak.
Qed.

Lemma b64_round_pos_bounds (q : Qc) :
  (0 < q)%Qc →
  (pow2 (Qc_ilog2 q) ≤ b64_round_pos q)%Qc ∧ (b64_round_pos q ≤ pow2 (Qc_ilog2 q + 1))%Qc.
Proof.
  intros Hq. destruct (significand_bounds q Hq) as [Hlo Hhi].
  unfold b64_round_pos. cbn zeta. set (e := Qc_ilog2 q) in *.
  set (m := round_half_even _) in *. split.
  - replace e with (52 + (e - 52))%Z at 1 by lia. rewrite pow2_add.
    apply Qcmult_le_mono_nonneg_r; [apply Qclt_le_weak, pow2_pos|].
    rewrite pow2_Z by lia. by rewrite <- Z2Qc_inj_le.
  - replace (e + 1)%Z with (53 + (e - 52))%Z by lia. rewrite pow2_add.
    apply Qcmult_le_mono_nonneg_r; [apply Qclt_le_weak, pow2_pos|].
    rewrite pow2_Z by lia. by rewrite <- Z2Qc_inj_le.
Qed.

Lemma b64_round_pos_pos (q : Qc) : (0 < q)%Qc → (0 < b64_round_pos q)%Qc.
Proof.
  intros Hq. destruct (b64_round_pos_bounds q Hq) as [Hlo _].
  eapply Qclt_le_trans; [apply pow2_pos | exact Hlo].
Qed.

Lemma b64_round_pos_mono (q1 q2 : Qc) :
  (0 < q1)%Qc → (q1 ≤ q2)%Qc → (b64_round_pos q1 ≤ b64_round_pos q2)%Qc.
Proof.
  intros Hq1 Hle.
  assert (0 < q2)%Qc as Hq2 by (by eapply Qclt_le_trans).
  pose proof (Qc_ilog2_mono q1 q2 Hq1 Hle) as He.
  destruct (decide (Qc_ilog2 q1 = Qc_ilog2 q2)) as [Heq|Hne].
  - unfold b64_round_pos. cbn zeta. rewrite Heq.
    apply Qcmult_le_mono_nonneg_r; [apply Qclt_le_weak, pow2_pos|].
    rewrite <- Z2Qc_inj_le. apply round_half_even_mono.
    apply Qcmult_le_mono_nonneg_r; [apply Qclt_le_weak, pow2_pos | done].
  - destruct (b64_round_pos_bounds q1 Hq1) as [_ Hhi].
    destruct (b64_round_pos_bounds q2 Hq2) as [Hlo _].
    etrans; [exact Hhi|]. etrans; [|exact Hlo]. apply pow2_le. lia.
Qed.

Lemma b64_round_pos_exact (q : Qc) (m : Z) :
  (q * pow2 (52 - Qc_ilog2 q))%Qc = Qc_of_Z m → b64_round_pos q = q.
Proof.
  intros Hm. unfold b64_round_pos. cbn zeta. rewrite Hm, round_half_even_Z, <- Hm.
  rewrite <- Qcmult_assoc, <- pow2_add.
  replace (52 - Qc_ilog2 q + (Qc_ilog2 q - 52))%Z with 0%Z by lia.
  by rewrite pow2_0, Qcmult_1_r.
Qed.

Lemma Qcopp_pos (q : Qc) : (q < 0)%Qc → (0 < - q)%Qc.
Proof. intros Hq. apply Qclt_minus_iff in Hq. by rewrite Qcplus_0_l in Hq. Qed.

Lemma Qcopp_le (x y : Qc) : (x ≤ y)%Qc → (- y ≤ - x)%Qc.
Proof. apply Qcopp_le_compat. Qed.

Lemma b64_round_neg (q : Qc) :
  (q < 0)%Qc → b64_round q = (- b64_round_pos (- q))%Qc.
Proof.
  intros Hq. unfold b64_round.
  rewrite decide_False by (by apply Qclt_not_eq).
  by rewrite decide_False by (apply Qcle_not_lt; by apply Qclt_le_weak).
Qed.

Lemma b64_round_pos_eq (q : Qc) : (0 < q)%Qc → b64_round q = b64_round_pos q.
Proof.
  intros Hq. unfold b64_round.
  rewrite decide_False by (intros ->; by apply (Qclt_not_eq _ _ Hq)).
  by rewrite decide_True.
Qed.

Lemma b64_round_0 : b64_round 0 = 0%Qc.
Proof. done. Qed.

(** Rounding keeps the sign. *)
Lemma b64_round_sign (q : Qc) :
  ((0 < q)%Qc → (0 < b64_round q)%Qc) ∧ ((q < 0)%Qc → (b64_round q < 0)%Qc).
Proof.
  split; intros Hq.
  - rewrite b64_round_pos_eq by done. by apply b64_round_pos_pos.
  - rewrite b64_round_neg by done.
    pose proof (b64_round_pos_pos (- q) (Qcopp_pos q Hq)) as Hp.
    apply Qclt_minus_iff. by rewrite Qcplus_0_l, Qcopp_involutive.
Qed.

Lemma b64_round_nonneg (q : Qc) : (0 ≤ q)%Qc → (0 ≤ b64_round q)%Qc.
Proof.
  intros [Hq| <-]%Qcle_lt_or_eq; [|done].
  by apply Qclt_le_weak, b64_round_sign.
Qed.

Lemma b64_round_nonpos (q : Qc) : (q ≤ 0)%Qc → (b64_round q ≤ 0)%Qc.
Proof.
  intros [Hq| ->]%Qcle_lt_or_eq; [|done].
  by apply Qclt_le_weak, b64_round_sign.
Qed.

(** Rounding is monotone. *)
Lemma b64_round_mono (q1 q2 : Qc) :
  (q1 ≤ q2)%Qc → (b64_round q1 ≤ b64_round q2)%Qc.
Proof.
  intros Hle. destruct (Qc_dec 0 q1) as [[H1|H1]| <-].
  - assert (0 < q2)%Qc by (by eapply Qclt_le_trans).
    rewrite !b64_round_pos_eq by done. by apply b64_round_pos_mono.
  - destruct (Qclt_le_dec q2 0) as [H2|H2].
    + rewrite !b64_round_neg by done. apply Qcopp_le.
      apply b64_round_pos_mono; [by apply Qcopp_pos | by apply Qcopp_le].
    + etrans; [apply b64_round_nonpos; by apply Qclt_le_weak|].
      by apply b64_round_nonneg.
  - by apply b64_round_nonneg.
Qed.

(** The integers of magnitude below [2 ** 53] are binary64 numbers. *)
Lemma b64_round_Z (z : Z) :
  (0 ≤ z < 2 ^ 53)%Z → b64_round (Qc_of_Z z) = Qc_of_Z z.
Proof.
  intros [Hz0 Hz]. destruct (decide (z = 0%Z)) as [->|Hne]; [by rewrite Z2Qc_inj_0|].
  assert (0 < Qc_of_Z z)%Qc as Hq by (apply (proj1 (Z2Qc_inj_lt 0 z)); lia).
  rewrite b64_round_pos_eq by done.
  destruct (Qc_ilog2_spec _ Hq) as [Hlo _].
  set (e := Qc_ilog2 (Qc_of_Z z)) in *.
  assert (e < 53)%Z as He.
  { apply pow2_lt_inv. eapply Qcle_lt_trans; [exact Hlo|].
    rewrite pow2_Z by lia. by rewrite <- Z2Qc_inj_lt. }
  apply (b64_round_pos_exact _ (z * 2 ^ (52 - e))). fold e.
  rewrite pow2_Z by lia. by rewrite Z2Qc_inj_mul.
Qed.

Lemma b64_round_nat (n : nat) :
  (Z.of_nat n < 2 ^ 53)%Z → float_of_nat n = Qc_of_nat n.
Proof. intros Hn. apply b64_round_Z. lia. Qed.

(** A binary64 number is its own rounding. *)
Lemma b64_round_pos_idemp (q : Qc) :
  (0 < q)%Qc → b64_round_pos (b64_round_pos q) = b64_round_pos q.
Proof.
  intros Hq. destruct (significand_bounds q Hq) as [Hlo Hhi].
  destruct (b64_round_pos_bounds q Hq) as [Blo Bhi].
  unfold b64_round_pos in Blo, Bhi |- * at 2 3. cbn zeta in *.
  set (e := Qc_ilog2 q) in *. set (m := round_half_even _) in *.
  destruct (decide (m = 2 ^ 53)%Z) as [Hm|Hm].
  - assert ((Qc_of_Z m * pow2 (e - 52))%Qc = pow2 (e + 1)) as Hr.
    { rewrite Hm, <- pow2_Z, <- pow2_add by lia. f_equal. lia. }
    rewrite Hr.
    assert (Qc_ilog2 (pow2 (e + 1)) = (e + 1)%Z) as Hl.
    { apply Qc_ilog2_unique; [done | apply pow2_lt; lia]. }
    apply (b64_round_pos_exact _ (2 ^ 52)). rewrite Hl, <- pow2_add, <- pow2_Z by lia.
    f_equal. lia.
  - assert (Qc_ilog2 (Qc_of_Z m * pow2 (e - 52)) = e) as Hl.
    { apply Qc_ilog2_unique; [done|].
      replace (e + 1)%Z with (53 + (e - 52))%Z by lia. rewrite pow2_add.
      apply Qcmult_lt_mono_pos_r; [apply pow2_pos|].
      rewrite pow2_Z by lia. rewrite <- Z2Qc_inj_lt. lia. }
    apply (b64_round_pos_exact _ m). rewrite Hl, <- Qcmult_assoc, <- pow2_add.
    replace (e - 52 + (52 - e))%Z with 0%Z by lia. by rewrite pow2_0, Qcmult_1_r.
Qed.

Lemma b64_round_idemp (q : Qc) : b64_round (b64_round q) = b64_round q.
Proof.
  destruct (Qc_dec 0 q) as [[Hq|Hq]| <-]; [| |done].
  - rewrite (b64_round_pos_eq q) by done.
    rewrite b64_round_pos_eq by (by apply b64_round_pos_pos).
    by apply b64_round_pos_idemp.
  - rewrite (b64_round_neg q) by done.
    pose proof (b64_round_pos_pos (- q) (Qcopp_pos q Hq)) as Hp.
    rewrite b64_round_neg.
    + by rewrite Qcopp_involutive, b64_round_pos_idemp by (by apply Qcopp_pos).
    + apply Qclt_minus_iff. by rewrite Qcplus_0_l, Qcopp_involutive.
Qed.

(** ** The sparse constructor sums what is given for a coordinate *)

Lemma fmap_eq_nil {A B} (f : A → B) (l : list A) : f <$> l = [] ↔ l = [].
Proof. by destruct l. Qed.

Lemma contributions_app k ts1 ts2 :
  contributions k (ts1 ++ ts2) = contributions k ts1 ++ contributions k ts2.
Proof. unfold contributions. by rewrite filter_app, fmap_app. Qed.

Lemma contributions_perm k ts1 ts2 :
  ts1 ≡ₚ ts2 → contributions k ts1 ≡ₚ contributions k ts2.
Proof. intros Hp. unfold contributions. by rewrite Hp. Qed.

Lemma contributions_nil_iff k ts : contributions k ts = [] ↔ k ∉ ts.*1.
Proof.
  unfold contributions. rewrite fmap_eq_nil. induction ts as [|t ts IH].
  - rewrite filter_nil. split; [intros _; apply not_elem_of_nil | done].
  - rewrite filter_cons. case_decide as Hk; rewrite fmap_cons, not_elem_of_cons.
    + split; [done | by intros [? _]].
    + rewrite IH. split; [by split | by intros [_ ?]].
Qed.

Lemma from_triples_lookup n1 n2 ts k :
  entries (from_triples n1 n2 ts) !! k =
    if decide (k ∈ ts.*1) then Some (Qcsum (contributions k ts)) else None.
Proof.
  unfold from_triples; cbn [entries].
  induction ts as [|t ts IH] using rev_ind.
  { rewrite decide_False; [done | set_solver]. }
  rewrite foldl_app, contributions_app, fmap_app. cbn [foldl]. unfold add_entry at 1.
  unfold contributions at 2. rewrite filter_cons, filter_nil.
  destruct (decide (t.1 = k)) as [Heq|Hne].
  - rewrite Heq, lookup_insert_eq, IH.
    rewrite (decide_True (P := k ∈ _ ++ _))
      by (apply elem_of_app; right; apply list_elem_of_singleton; done).
    f_equal. rewrite Qcsum_app. cbn [fmap list_fmap Qcsum foldr].
    rewrite Qcplus_0_r. f_equal. case_decide as Hc; [done|].
    apply contributions_nil_iff in Hc. by rewrite Hc.
  - rewrite lookup_insert_ne by done. rewrite IH. cbn [fmap list_fmap].
    rewrite app_nil_r. apply decide_ext.
    rewrite elem_of_app, list_elem_of_singleton. intuition congruence.
Qed.

Lemma from_triples_getv n1 n2 ts r c :
  getv (from_triples n1 n2 ts) r c = Qcsum (contributions (r, c) ts).
Proof.
  unfold getv. rewrite from_triples_lookup. case_decide as Hc; [done|].
  apply contributions_nil_iff in Hc. by rewrite Hc.
Qed.

Lemma from_triples_is_Some n1 n2 ts k :
  is_Some (entries (from_triples n1 n2 ts) !! k) ↔ k ∈ ts.*1.
Proof.
  rewrite from_triples_lookup. case_decide; [by split; eauto|].
  split; [by intros [? ?] | done].
Qed.

Lemma from_triples_perm n1 n2 ts1 ts2 :
  ts1 ≡ₚ ts2 → from_triples n1 n2 ts1 = from_triples n1 n2 ts2.
Proof.
  intros Hp. unfold from_triples. f_equal. apply map_eq. intros k.
  pose proof (from_triples_lookup n1 n2 ts1 k) as H1.
  pose proof (from_triples_lookup n1 n2 ts2 k) as H2.
  cbn [entries from_triples] in H1, H2. rewrite H1, H2.
  rewrite (Qcsum_perm _ _ (contributions_perm k _ _ Hp)).
  apply decide_ext. by rewrite Hp.
Qed.

(** With pairwise distinct coordinates the constructor stores each value
    as given. *)
Lemma contributions_NoDup k v ts :
  NoDup ts.*1 → (k, v) ∈ ts → contributions k ts = [v].
Proof.
  induction ts as [|t ts IH]; [set_solver|].
  rewrite fmap_cons, NoDup_cons, elem_of_cons. intros [Hnin Hnd] Hin.
  unfold contributions. rewrite filter_cons.
  destruct Hin as [<-|Hin]; cbn [fst snd].
  - rewrite decide_True by done. cbn [fmap list_fmap snd]. f_equal.
    by apply contributions_nil_iff in Hnin.
  - rewrite decide_False; [by apply IH|].
    intros Heq. apply Hnin. rewrite Heq. apply list_elem_of_fmap. by exists (k, v).
Qed.

Lemma from_triples_lookup_NoDup n1 n2 ts k v :
  NoDup ts.*1 →
  entries (from_triples n1 n2 ts) !! k = Some v ↔ (k, v) ∈ ts.
Proof.
  intros Hnd. rewrite from_triples_lookup. split.
  - case_decide as Hin; [|done]. intros [= <-].
    apply list_elem_of_fmap in Hin as [[k' v'] [-> Hin]]. cbn [fst] in *.
    rewrite (contributions_NoDup _ _ _ Hnd Hin).
    cbn [Qcsum foldr]. by rewrite Qcplus_0_r.
  - intros Hin. rewrite decide_True.
    + rewrite (contributions_NoDup _ _ _ Hnd Hin). cbn [Qcsum foldr].
      by rewrite Qcplus_0_r.
    + apply list_elem_of_fmap. by exists (k, v).
Qed.

(** ** [filter_XtX]: the blocks tile the item range *)

Section covariance_facts.
Context `{NumLib}.

Lemma tile_entry_naive X i j : tile_entry X i j = naive_XtX X i j.
Proof. unfold tile_entry, naive_XtX. cbn zeta. ring. Qed.

Lemma tile_Ok X bs ii jj :
  ncols X ≠ 1 → tile X bs ii jj = Ok (tile_dense X bs ii jj).
Proof. intros HN. unfold tile. cbn zeta. by rewrite decide_False. Qed.

Lemma tile_one_item X bs ii jj : ncols X = 1 → tile X bs ii jj = Raise IndexError.
Proof. intros HN. unfold tile. cbn zeta. by rewrite decide_True. Qed.

Lemma elem_of_py_slice (bs : Z) (ii N i : nat) :
  (0 < bs)%Z →
  i ∈ py_slice (bs * Z.of_nat ii) (bs * (Z.of_nat ii + 1)) N ↔
  Z.to_nat bs * ii ≤ i ∧ i < Z.to_nat bs * (ii + 1) ∧ i < N.
Proof.
  intros Hbs. unfold py_slice, slice_bound.
  rewrite !decide_False by nia. rewrite elem_of_seq.
  replace (Z.to_nat (bs * Z.of_nat ii)) with (Z.to_nat bs * ii) by nia.
  replace (Z.to_nat (bs * (Z.of_nat ii + 1))) with (Z.to_nat bs * (ii + 1)) by nia.
  nia.
Qed.

Lemma lookup_py_slice (bs : Z) (ii N a : nat) :
  (0 < bs)%Z →
  a < length (py_slice (bs * Z.of_nat ii) (bs * (Z.of_nat ii + 1)) N) →
  py_slice (bs * Z.of_nat ii) (bs * (Z.of_nat ii + 1)) N !!! a
    = Z.to_nat (Z.of_nat a + bs * Z.of_nat ii).
Proof.
  intros Hbs. unfold py_slice, slice_bound.
  rewrite !decide_False by nia. rewrite length_seq. intros Ha.
  rewrite list_lookup_total_alt, lookup_seq_lt by done. simpl. nia.
Qed.

Lemma py_slice_empty lo hi : py_slice lo hi 0 = [].
Proof.
  unfold py_slice, slice_bound.
  repeat case_decide; (replace (_ - _) with 0 by lia); done.
Qed.

(** Positions of a tile and the items they stand for. *)
Lemma elem_of_tile_nz X (bs : Z) thd (ii jj : nat) k v :
  (0 < bs)%Z →
  (k, v) ∈ tile_nz bs thd ii jj (tile_dense X bs ii jj) ↔
  k.1 ∈ py_slice (bs * Z.of_nat ii) (bs * (Z.of_nat ii + 1)) (ncols X) ∧
  k.2 ∈ py_slice (bs * Z.of_nat jj) (bs * (Z.of_nat jj + 1)) (ncols X) ∧
  v = tile_entry X k.1 k.2 ∧ (thd < Qcabs v)%Qc.
Proof.
  intros Hbs. unfold tile_nz, np_where2, tile_dense. cbn zeta.
  set (I := py_slice (bs * Z.of_nat ii) _ _).
  set (J := py_slice (bs * Z.of_nat jj) _ _).
  set (T := (λ i, (λ j, tile_entry X i j) <$> J) <$> I).
  assert (∀ a, a < length I → T !!! a = (λ j, tile_entry X (I !!! a) j) <$> J) as HT.
  { intros a Ha. unfold T. by rewrite lookup_total_fmap_lt. }
  assert (∀ a b, a < length I → b < length J →
            dget T a b = tile_entry X (I !!! a) (J !!! b)) as Hd.
  { intros a b Ha Hb. unfold dget. rewrite HT by done.
    by rewrite lookup_total_fmap_lt. }
  assert (length T = length I) as HlT by (unfold T; by rewrite length_fmap).
  rewrite list_elem_of_fmap. split.
  - intros ([a b] & Heq & Hin). cbn [fst snd] in Heq.
    apply list_elem_of_bind in Hin as (a' & Hin & Ha).
    apply list_elem_of_fmap in Hin as (b' & [= -> ->] & Hb).
    apply list_elem_of_filter in Hb as [HP Hb].
    apply elem_of_seq in Ha, Hb. rewrite HlT in Ha.
    rewrite HT, length_fmap in Hb by lia.
    rewrite Hd in Heq, HP by lia.
    injection Heq as -> ->. cbn [fst snd].
    rewrite <- (lookup_py_slice bs ii (ncols X) a') by (done || (fold I; lia)).
    rewrite <- (lookup_py_slice bs jj (ncols X) b') by (done || (fold J; lia)).
    fold I J.
    split_and!; [apply list_elem_of_lookup_total_2; lia..|done|done].
  - intros (Hi & Hj & -> & HP). destruct k as [i j]. cbn [fst snd] in *.
    apply list_elem_of_lookup_total in Hi as (a & Ha & Hia).
    apply list_elem_of_lookup_total in Hj as (b & Hb & Hjb).
    fold I in Ha, Hia. fold J in Hb, Hjb.
    exists (a, b). cbn [fst snd]. rewrite Hd by done. split.
    + rewrite Hia, Hjb. f_equal. f_equal.
      * rewrite <- Hia. unfold I. by rewrite lookup_py_slice.
      * rewrite <- Hjb. unfold J. by rewrite lookup_py_slice.
    + apply list_elem_of_bind. exists a. split; [|apply elem_of_seq; lia].
      apply list_elem_of_fmap. exists b. split; [done|].
      apply list_elem_of_filter. rewrite Hd, Hia, Hjb by done. split; [done|].
      apply elem_of_seq. rewrite HT, length_fmap by done. lia.
Qed.

End covariance_facts.

Lemma foldM_ext {A B} (f g : B → A → result B) acc l :
  (∀ acc x, x ∈ l → f acc x = g acc x) → foldM f acc l = foldM g acc l.
Proof.
  revert acc. induction l as [|x l IH]; intros acc Hfg; [done|].
  cbn [foldM]. rewrite Hfg by left.
  destruct (g acc x) as [acc'|e]; cbn; [|done].
  apply IH. intros ???. apply Hfg. by right.
Qed.

(** A loop that only appends to a list that is unbound before the first
    pass. *)
Lemma foldM_collect {A T} (f : A → list T) (acc : option (list T)) (l : list A) :
  foldM (λ acc x, Ok (Some (default [] acc ++ f x))) acc l
  = Ok (if decide (l = []) then acc else Some (default [] acc ++ (l ≫= f))).
Proof.
  revert acc. induction l as [|x l IH]; intros acc; [done|].
  cbn [foldM]. cbn [mbind result_bind]. rewrite IH.
  rewrite (decide_False (P := x :: l = [])) by done. f_equal.
  case_decide as Hl.
  - subst l. by rewrite bind_cons, app_nil_r.
  - cbn [default]. by rewrite bind_cons, app_assoc.
Qed.

Lemma bind_all_nil {A B} (f : A → list B) (l : list A) :
  (∀ x, f x = []) → l ≫= f = [].
Proof. intros Hf. induction l as [|x l IH]; [done|]. by rewrite bind_cons, Hf, IH. Qed.

Section covariance_loop.
Context `{NumLib}.

Lemma block_loop_Ok X bs thd blocks :
  ncols X ≠ 1 →
  block_loop X bs thd blocks
  = Ok (if decide (Z.to_nat blocks = 0) then None
        else Some (all_tiles X bs thd (Z.to_nat blocks))).
Proof.
  intros HN. unfold block_loop, all_tiles. set (B := Z.to_nat blocks).
  destruct (decide (B = 0)) as [HB|HB].
  { by rewrite HB. }
  assert (seq 0 B ≠ []) as Hseq.
  { intros Hs. apply (f_equal length) in Hs. rewrite length_seq in Hs. done. }
  erewrite foldM_ext.
  2:{ intros acc ii _. erewrite foldM_ext.
      2:{ intros acc' jj _. rewrite tile_Ok by done. cbn [mbind result_bind].
          reflexivity. }
      rewrite (foldM_collect (λ jj, tile_nz bs thd ii jj (tile_dense X bs ii jj))).
      rewrite decide_False by done. reflexivity. }
  rewrite (foldM_collect
    (λ ii, seq 0 B ≫= λ jj, tile_nz bs thd ii jj (tile_dense X bs ii jj))).
  by rewrite decide_False.
Qed.

Lemma block_loop_one_item X bs thd blocks :
  ncols X = 1 →
  block_loop X bs thd blocks
  = if decide (Z.to_nat blocks = 0) then Ok None else Raise IndexError.
Proof.
  intros HN. unfold block_loop. set (B := Z.to_nat blocks).
  destruct B as [|B]; [done|].
  rewrite decide_False by done. cbn [seq foldM]. by rewrite tile_one_item.
Qed.

Lemma elem_of_all_tiles X (bs : Z) thd k v :
  (0 < bs)%Z →
  (k, v) ∈ all_tiles X bs thd (Z.to_nat (Z.of_nat (ncols X) `div` bs + 1)) ↔
  k.1 < ncols X ∧ k.2 < ncols X ∧ v = tile_entry X k.1 k.2 ∧ (thd < Qcabs v)%Qc.
Proof.
  intros Hbs. unfold all_tiles. set (N := ncols X).
  set (B := Z.to_nat _).
  assert (∀ i, i < N → ∃ ii, ii < B ∧
            Z.to_nat bs * ii ≤ i ∧ i < Z.to_nat bs * (ii + 1)) as Hblock.
  { intros i Hi. exists (Z.to_nat (Z.of_nat i `div` bs)).
    pose proof (Z.div_le_mono (Z.of_nat i) (Z.of_nat N) bs Hbs ltac:(lia)).
    pose proof (Z.div_pos (Z.of_nat i) bs ltac:(lia) Hbs).
    pose proof (Z.mul_div_le (Z.of_nat i) bs Hbs).
    pose proof (Z.mul_succ_div_gt (Z.of_nat i) bs Hbs).
    unfold B. nia. }
  split.
  - intros (ii & Hin & _)%list_elem_of_bind.
    apply list_elem_of_bind in Hin as (jj & Hin & _).
    apply elem_of_tile_nz in Hin as (Hi & Hj & ? & ?); [|done].
    apply elem_of_py_slice in Hi, Hj; [|done..]. fold N in Hi, Hj.
    split_and!; [lia|lia|done|done].
  - intros (Hi & Hj & Hv & HP).
    destruct (Hblock _ Hi) as (ii & ? & ? & ?).
    destruct (Hblock _ Hj) as (jj & ? & ? & ?).
    apply list_elem_of_bind. exists ii. split; [|apply elem_of_seq; lia].
    apply list_elem_of_bind. exists jj. split; [|apply elem_of_seq; lia].
    apply elem_of_tile_nz; [done|]. rewrite !elem_of_py_slice by done.
    fold N. split_and!; try done; lia.
Qed.

Lemma NoDup_np_where2 (P : Qc → Prop) `{∀ x, Decision (P x)} T :
  NoDup (np_where2 P T).
Proof.
  unfold np_where2. apply NoDup_bind.
  - intros a1 a2 [a b] _ _ (? & [= -> ->] & _)%list_elem_of_fmap
      (? & [= -> ->] & _)%list_elem_of_fmap. done.
  - intros a _. apply NoDup_fmap_2_strong.
    + by intros ? ? _ _ [= ->].
    + apply NoDup_filter, NoDup_seq.
  - apply NoDup_seq.
Qed.

Lemma NoDup_tile_nz (bs : Z) thd ii jj T :
  (0 < bs)%Z → NoDup (tile_nz bs thd ii jj T).
Proof.
  intros Hbs. unfold tile_nz. apply NoDup_fmap_2_strong; [|apply NoDup_np_where2].
  intros [a b] [a' b'] _ _ [= Ha Hb _]. cbn [fst snd] in *. f_equal; nia.
Qed.

Lemma NoDup_all_tiles X (bs : Z) thd B :
  (0 < bs)%Z → NoDup (all_tiles X bs thd B).*1.
Proof.
  intros Hbs. apply NoDup_fmap_2_strong.
  - intros [k v] [k' v'] Hin Hin' Heq. cbn [fst] in Heq. subst k'.
    unfold all_tiles in Hin, Hin'.
    apply list_elem_of_bind in Hin as (? & (? & Hin & _)%list_elem_of_bind & _).
    apply list_elem_of_bind in Hin' as (? & (? & Hin' & _)%list_elem_of_bind & _).
    apply elem_of_tile_nz in Hin as (_ & _ & -> & _); [|done].
    apply elem_of_tile_nz in Hin' as (_ & _ & -> & _); [|done]. done.
  - unfold all_tiles. apply NoDup_bind; [| |apply NoDup_seq].
    + intros ii1 ii2 [k v] _ _ (? & Hin1 & _)%list_elem_of_bind
        (? & Hin2 & _)%list_elem_of_bind.
      apply elem_of_tile_nz in Hin1 as (Hi1 & _); [|done].
      apply elem_of_tile_nz in Hin2 as (Hi2 & _); [|done].
      apply elem_of_py_slice in Hi1, Hi2; [|done..]. nia.
    + intros ii _. apply NoDup_bind; [| |apply NoDup_seq].
      * intros jj1 jj2 [k v] _ _ Hin1 Hin2.
        apply elem_of_tile_nz in Hin1 as (_ & Hj1 & _); [|done].
        apply elem_of_tile_nz in Hin2 as (_ & Hj2 & _); [|done].
        apply elem_of_py_slice in Hj1, Hj2; [|done..]. nia.
      * intros jj _. by apply NoDup_tile_nz.
Qed.

(** With a negative block size the loop runs only for an empty item range,
    and then every tile is empty. *)
Lemma all_tiles_no_items X bs thd B : ncols X = 0 → all_tiles X bs thd B = [].
Proof.
  intros HN. unfold all_tiles.
  assert (∀ ii jj, tile_nz bs thd ii jj (tile_dense X bs ii jj) = []) as Ht.
  { intros ii jj. unfold tile_dense. cbn zeta. rewrite HN, !py_slice_empty. done. }
  apply bind_all_nil. intros ii. by apply bind_all_nil.
Qed.

End covariance_loop.

Lemma Qcabs_pos_iff (v : Qc) : (0 < Qcabs v)%Qc ↔ v ≠ 0%Qc.
Proof.
  split.
  - intros Hlt ->. rewrite Qcabs_pos in Hlt by apply Qcle_refl.
    by apply Qclt_not_eq in Hlt.
  - intros Hv. destruct (Qclt_le_dec 0 (Qcabs v)) as [|Hle]; [done|].
    exfalso. apply Hv, Qcabs_null. apply Qcle_antisym; [done | apply Qcabs_nonneg].
Qed.

Lemma Zdiv_pos_neg (n bs : Z) : (0 < n → bs < 0 → n `div` bs < 0)%Z.
Proof.
  intros Hn Hbs. pose proof (Z.div_mod n bs ltac:(lia)).
  pose proof (Z.mod_neg_bound n bs Hbs). nia.
Qed.

Section covariance_spec.
Context `{NumLib}.

(** What a normal return of [filter_XtX] consists of. *)
Lemma filter_XtX_inv X bs thd4mem thd4comp XtX rescaling XtXdiag AtA :
  filter_XtX X bs thd4mem thd4comp = Ok (XtX, rescaling, XtXdiag, AtA) →
  ∃ L : list (nat * nat * Qc),
    NoDup L.*1 ∧
    (∀ k v, (k, v) ∈ L ↔
       k.1 < ncols X ∧ k.2 < ncols X ∧ v = naive_XtX X k.1 k.2
       ∧ (thd4mem < Qcabs v)%Qc) ∧
    XtX = from_triples (ncols X) (ncols X) L ∧
    AtA = from_triples (ncols X) (ncols X)
            (filter (λ t, thd4comp ≤ Qcabs t.2)%Qc L) ∧
    rescaling = rescaling_of X ∧ XtXdiag = diagonal XtX.
Proof.
  unfold filter_XtX. cbn zeta. case_decide as Hbs; [done|].
  cbn [mbind result_bind]. set (blocks := (_ `div` _ + 1)%Z).
  destruct (decide (ncols X = 1)) as [HN|HN].
  { rewrite block_loop_one_item by done. by case_decide. }
  rewrite block_loop_Ok by done. cbn [mbind result_bind].
  case_decide as HB; [done|]. cbn [mbind result_bind].
  case_decide as Hone; [done|]. intros [= <- <- <- <-].
  eexists. split_and!; [| |reflexivity..].
  - destruct (decide (0 < bs)%Z) as [Hpos|Hneg].
    + by apply NoDup_all_tiles.
    + rewrite all_tiles_no_items; [constructor|].
      destruct (ncols X) as [|n]; [done|]. exfalso. apply HB. unfold blocks.
      pose proof (Zdiv_pos_neg (Z.of_nat (S n)) bs). lia.
  - intros k v. destruct (decide (0 < bs)%Z) as [Hpos|Hneg].
    + unfold blocks. rewrite elem_of_all_tiles by done.
      by rewrite tile_entry_naive.
    + assert (ncols X = 0) as HN0.
      { destruct (ncols X) as [|n]; [done|]. exfalso. apply HB. unfold blocks.
        pose proof (Zdiv_pos_neg (Z.of_nat (S n)) bs). lia. }
      rewrite all_tiles_no_items by done. rewrite HN0.
      split; [by intros ?%not_elem_of_nil | lia].
Qed.

Lemma NoDup_grid n m : NoDup (i ← seq 0 n; (λ j, (i, j)) <$> seq 0 m).
Proof.
  apply NoDup_bind; [| |apply NoDup_seq].
  - intros i1 i2 [i j] _ _ (? & [= -> ->] & _)%list_elem_of_fmap
      (? & [= -> ->] & _)%list_elem_of_fmap. done.
  - intros i _. apply NoDup_fmap_2_strong; [|apply NoDup_seq].
    by intros ? ? _ _ [= ->].
Qed.

Lemma elem_of_grid n m i j :
  (i, j) ∈ (i ← seq 0 n; (λ j, (i, j)) <$> seq 0 m) ↔ i < n ∧ j < m.
Proof.
  rewrite list_elem_of_bind. split.
  - intros (i' & (j' & [= -> ->] & Hj)%list_elem_of_fmap & Hi).
    apply elem_of_seq in Hi, Hj. lia.
  - intros [Hi Hj]. exists i. split; [|apply elem_of_seq; lia].
    apply list_elem_of_fmap. exists j. split; [done | apply elem_of_seq; lia].
Qed.

Lemma filter_XtX_is_Ok X bs thd4mem thd4comp :
  (0 < bs)%Z → ncols X ≠ 1 → length (kept_for_AtA X thd4mem thd4comp) ≠ 1 →
  is_Ok (filter_XtX X bs thd4mem thd4comp).
Proof.
  intros Hbs HN Hkept. unfold filter_XtX, is_Ok. cbn zeta.
  rewrite decide_False by lia. cbn [mbind result_bind].
  rewrite block_loop_Ok by done. cbn [mbind result_bind].
  rewrite decide_False.
  2:{ pose proof (Z.div_pos (Z.of_nat (ncols X)) bs ltac:(lia) Hbs). lia. }
  cbn [mbind result_bind]. rewrite decide_False; [eauto|].
  intros Hone. apply Hkept. rewrite <- Hone.
  rewrite <- (length_fmap fst (filter _ (all_tiles _ _ _ _))).
  apply Permutation_length, NoDup_Permutation.
  - apply NoDup_filter, NoDup_grid.
  - eapply sublist_NoDup;
      first [by apply NoDup_all_tiles | apply fmap_sublist, sublist_filter].
  - intros [i j]. unfold kept_for_AtA.
    rewrite list_elem_of_filter, elem_of_grid, list_elem_of_fmap. cbn [fst snd]. split.
    + intros ([Hm Hc] & Hi & Hj). exists ((i, j), naive_XtX X i j). split; [done|].
      apply list_elem_of_filter. split; [done|].
      apply elem_of_all_tiles; [done|]. by rewrite tile_entry_naive.
    + intros ([[i' j'] v] & [= -> ->] & [Hc Hin]%list_elem_of_filter).
      cbn [fst snd] in *.
      apply elem_of_all_tiles in Hin as (? & ? & Hv & ?); [|done].
      cbn [fst snd] in *. rewrite tile_entry_naive in Hv. subst v. done.
Qed.

End covariance_spec.

(** ** [filter_XtX]: the two filters *)

Lemma filter_all {A} (P : A → Prop) `{∀ x, Decision (P x)} (l : list A) :
  Forall P l → filter P l = l.
Proof.
  induction 1 as [|x l Hx _ IH]; [done|].
  by rewrite filter_cons_True, IH.
Qed.

Lemma NoDup_fst_filter {A B} (P : A * B → Prop) `{∀ x, Decision (P x)} (l : list (A * B)) :
  NoDup l.*1 → NoDup (filter P l).*1.
Proof.
  intros Hnd. eapply sublist_NoDup;
    first [exact Hnd | apply fmap_sublist, sublist_filter].
Qed.

Section covariance_claims.
Context `{NumLib}.



End covariance_claims.




(** ** Item assignment *)

Lemma setitems_scalar M idx v :
  setitems M idx [v] = Ok (foldl (λ M' rc, setitem M' rc.1 rc.2 v) M idx).
Proof.
  unfold setitems. case_decide as Hlen; [|done].
  destruct idx as [|rc [|rc' idx]]; try done.
Qed.

Lemma foldl_setitem_shape v M idx :
  nrows (foldl (λ M' rc, setitem M' rc.1 rc.2 v) M idx) = nrows M ∧
  ncols (foldl (λ M' rc, setitem M' rc.1 rc.2 v) M idx) = ncols M.
Proof.
  revert M. induction idx as [|rc idx IH]; intros M; [done|].
  cbn [foldl]. by destruct (IH (setitem M rc.1 rc.2 v)) as [-> ->].
Qed.

Lemma foldl_setitem_lookup v M (idx : list (nat * nat)) k :
  entries (foldl (λ M' rc, setitem M' rc.1 rc.2 v) M idx) !! k
  = if decide (k ∈ idx) then Some v else entries M !! k.
Proof.
  revert M. induction idx as [|[r c] idx IH]; intros M.
  { rewrite decide_False; [done | apply not_elem_of_nil]. }
  cbn [foldl]. rewrite IH. cbn [fst snd setitem entries].
  destruct (decide (k ∈ idx)) as [Hin|Hnin].
  - rewrite decide_True; [done | by right].
  - destruct (decide (k = (r, c))) as [->|Hne].
    + rewrite lookup_insert_eq, decide_True; [done | by left].
    + rewrite lookup_insert_ne by done. rewrite decide_False; [done|].
      by intros [?|?]%elem_of_cons.
Qed.

(** ** [calculate_sparsity_pattern] *)

Lemma printed_sparsity_run M A :
  printed_sparsity M A =
    if decide (nrows A = 0) then Raise ZeroDivisionError
    else Ok (Qc_of_nat (nnz M) * 1 / Qc_of_nat (nrows A) / Qc_of_nat (nrows A))%Qc.
Proof.
  unfold printed_sparsity, py_div. destruct (decide (nrows A = 0)) as [Hn|Hn].
  - rewrite Hn. by rewrite decide_True by apply Qc_of_nat_0.
  - rewrite decide_False by (by apply Qc_of_nat_neq_0). cbn [mbind result_bind].
    by rewrite decide_False by (by apply Qc_of_nat_neq_0).
Qed.

Section sparsity_pattern_facts.
Context `{NumLib}.

Lemma dropped_rows_over K A c :
  K < length (nonzero_rows A c) →
  dropped_rows K A c = (λ k, nonzero_rows A c !!! k) <$> drop K (partitioned K A c).
Proof.
  intros HK. unfold dropped_rows. rewrite decide_False; [done|].
  intros Hnil. rewrite Hnil in HK. cbn in HK. lia.
Qed.

Lemma cap_column_unfold K A ii :
  cap_column K A ii =
    if decide (cappable K A ii)
    then Ok (foldl (λ M' rc, setitem M' rc.1 rc.2 0%Qc) A
               ((λ r, (r, ii)) <$> dropped_rows K A ii))
    else Raise ValueError.
Proof.
  unfold cap_column, cappable, dropped_rows. cbn zeta.
  destruct (decide (nonzero_rows A ii = [])) as [Hnil|Hnil].
  - rewrite Hnil. cbn [fmap list_fmap]. rewrite !decide_True by auto.
    cbn [mbind result_bind fmap list_fmap]. by rewrite setitems_scalar.
  - rewrite decide_False by (by rewrite fmap_eq_nil).
    rewrite length_fmap. case_decide as HK.
    + rewrite decide_True by auto. cbn [mbind result_bind].
      rewrite setitems_scalar. unfold partitioned.
      by rewrite <- list_fmap_compose.
    + rewrite decide_False by (intros [?|?]; done). done.
Qed.

Lemma fmap_lookup_total_seq {A} `{Inhabited A} (l : list A) :
  (λ k, l !!! k) <$> seq 0 (length l) = l.
Proof.
  apply list_eq. intros i. rewrite list_lookup_fmap.
  destruct (decide (i < length l)) as [Hi|Hi].
  - rewrite lookup_seq_lt by done. cbn.
    by rewrite list_lookup_lookup_total_lt.
  - rewrite lookup_seq_ge, lookup_ge_None_2 by lia. done.
Qed.

Lemma kept_dropped_perm K A c :
  K < length (nonzero_rows A c) →
  kept_rows K A c ++ dropped_rows K A c ≡ₚ nonzero_rows A c.
Proof.
  intros HK. rewrite dropped_rows_over by done. unfold kept_rows.
  rewrite <- fmap_app, take_drop. unfold partitioned.
  rewrite bn_argpartition_perm by (by rewrite length_fmap).
  by rewrite length_fmap, fmap_lookup_total_seq.
Qed.

Lemma NoDup_nonzero_rows A c : NoDup (nonzero_rows A c).
Proof. apply NoDup_filter, NoDup_seq. Qed.

Lemma elem_of_nonzero_rows A c r :
  r ∈ nonzero_rows A c ↔ r < nrows A ∧ getv A r c ≠ 0%Qc.
Proof.
  unfold nonzero_rows. rewrite list_elem_of_filter, elem_of_seq.
  split; intros [? ?]; split; (done || lia).
Qed.

Lemma length_partitioned K A c :
  K < length (nonzero_rows A c) →
  length (partitioned K A c) = length (nonzero_rows A c).
Proof.
  intros HK. unfold partitioned.
  rewrite bn_argpartition_perm by (by rewrite length_fmap).
  by rewrite length_seq, length_fmap.
Qed.

Lemma length_kept_rows K A c :
  K < length (nonzero_rows A c) → length (kept_rows K A c) = K.
Proof.
  intros HK. unfold kept_rows.
  rewrite length_fmap, length_take, length_partitioned by done. lia.
Qed.

Lemma kept_dropped_disjoint K A c r :
  K < length (nonzero_rows A c) →
  r ∈ kept_rows K A c → r ∈ dropped_rows K A c → False.
Proof.
  intros HK Hk Hd.
  pose proof (NoDup_nonzero_rows A c) as Hnd.
  rewrite <- (kept_dropped_perm K A c HK) in Hnd.
  apply NoDup_app in Hnd as (_ & Hdis & _). by apply (Hdis r).
Qed.

(** No dropped entry is larger in magnitude than a kept one. *)
Lemma kept_dominates K A c r r' :
  K < length (nonzero_rows A c) →
  r ∈ kept_rows K A c → r' ∈ dropped_rows K A c →
  (Qcabs (getv A r' c) ≤ Qcabs (getv A r c))%Qc.
Proof.
  intros HK Hk Hd. rewrite dropped_rows_over in Hd by done. unfold kept_rows in *.
  apply list_elem_of_fmap in Hk as (a & -> & Ha).
  apply list_elem_of_fmap in Hd as (b & -> & Hb).
  apply list_elem_of_lookup in Ha as [p Hp]. apply list_elem_of_lookup in Hb as [q Hq].
  pose proof (lookup_lt_Some _ _ _ Hp) as Hplt. rewrite length_take in Hplt.
  rewrite lookup_take_lt in Hp by lia. rewrite lookup_drop in Hq.
  assert (a < length (nonzero_rows A c) ∧ b < length (nonzero_rows A c)) as [Hla Hlb].
  { assert (a ∈ partitioned K A c) as Hina by (by eapply list_elem_of_lookup_2).
    assert (b ∈ partitioned K A c) as Hinb by (by eapply list_elem_of_lookup_2).
    unfold partitioned in Hina, Hinb.
    rewrite bn_argpartition_perm in Hina, Hinb by (by rewrite length_fmap).
    rewrite length_fmap in Hina, Hinb. apply elem_of_seq in Hina, Hinb. lia. }
  unfold partitioned in Hp, Hq.
  assert ((((λ j, - Qcabs (getv A j c)) <$> nonzero_rows A c) !!! a
           ≤ ((λ j, - Qcabs (getv A j c)) <$> nonzero_rows A c) !!! b)%Qc) as Hle.
  { eapply (bn_argpartition_pivot _ K p (K + q)); [|lia|lia|done|done].
    by rewrite length_fmap. }
  rewrite !lookup_total_fmap_lt in Hle by done.
  by apply Qcopp_le_compat in Hle; rewrite !Qcopp_involutive in Hle.
Qed.

Lemma nonzero_rows_ext A A' c :
  nrows A' = nrows A → (∀ r, getv A' r c = getv A r c) →
  nonzero_rows A' c = nonzero_rows A c.
Proof.
  intros Hn Hv. unfold nonzero_rows. rewrite Hn.
  apply list_filter_iff. intros r. by rewrite Hv.
Qed.

Lemma dropped_rows_ext K A A' c :
  nrows A' = nrows A → (∀ r, getv A' r c = getv A r c) →
  dropped_rows K A' c = dropped_rows K A c.
Proof.
  intros Hn Hv. unfold dropped_rows, partitioned.
  rewrite (nonzero_rows_ext A A' c) by done. case_decide; [done|].
  do 3 f_equal. apply list_fmap_ext. intros _ r _. by rewrite Hv.
Qed.

(** The loop over the over-budget columns, on the matrix it mutates. *)
Lemma cap_loop_result K A0 cols :
  NoDup cols →
  match foldM (cap_column K) A0 cols with
  | Ok A' =>
      Forall (cappable K A0) cols ∧
      nrows A' = nrows A0 ∧ ncols A' = ncols A0 ∧
      ∀ r c, entries A' !! (r, c) =
               if decide (c ∈ cols ∧ r ∈ dropped_rows K A0 c) then Some 0%Qc
               else entries A0 !! (r, c)
  | Raise e => ¬ Forall (cappable K A0) cols
  end.
Proof.
  induction cols as [|c cols IH] using rev_ind; intros Hnd.
  { cbn [foldM]. split_and!; [constructor|done..|]. intros r c.
    rewrite decide_False; [done|]. intros [Hin _]. by apply not_elem_of_nil in Hin. }
  apply NoDup_app in Hnd as (Hnd & Hdis & _).
  rewrite foldM_app. specialize (IH Hnd).
  destruct (foldM (cap_column K) A0 cols) as [A|e]; cbn [mbind result_bind].
  2:{ intros [HF _]%Forall_app. done. }
  destruct IH as (HF & Hn1 & Hn2 & Hent).
  assert (c ∉ cols) as Hc.
  { intros Hin. by apply (Hdis c Hin), list_elem_of_singleton. }
  assert (∀ r, getv A r c = getv A0 r c) as Hcol.
  { intros r. unfold getv. rewrite Hent. rewrite decide_False; [done|].
    by intros [? _]. }
  cbn [foldM]. rewrite cap_column_unfold.
  rewrite (dropped_rows_ext K A0 A c) by done.
  rewrite (decide_ext (cappable K A c) (cappable K A0 c))
    by (unfold cappable; by rewrite (nonzero_rows_ext A0 A c)).
  case_decide as HK; cbn [mbind result_bind].
  2:{ intros [_ HF']%Forall_app. rewrite Forall_singleton in HF'. done. }
  destruct (foldl_setitem_shape 0%Qc A ((λ r, (r, c)) <$> dropped_rows K A0 c))
    as [-> ->].
  split_and!; [|done..|].
  { apply Forall_app. split; [done|]. by apply Forall_singleton. }
  intros r c'. rewrite foldl_setitem_lookup, Hent.
  destruct (decide ((r, c') ∈ (λ r0, (r0, c)) <$> dropped_rows K A0 c)) as [Hin|Hnin].
  - apply list_elem_of_fmap in Hin as (r' & [= -> ->] & Hin).
    rewrite decide_True; [done|]. split; [|done].
    apply elem_of_app. right. by apply list_elem_of_singleton.
  - apply decide_ext. rewrite elem_of_app, list_elem_of_singleton. split.
    + intros [? ?]. split; [by left | done].
    + intros [[?| ->] ?]; [done|]. exfalso. apply Hnin.
      apply list_elem_of_fmap. by exists r.
Qed.

Lemma for_each_cap l K cols h A :
  h !! l = Some A →
  ∃ A', for_each cols (cap_body l K) h
        = (match foldM (cap_column K) A cols with
           | Ok _ => Ok ()
           | Raise e => Raise e
           end, <[l := A']> h)
        ∧ ∀ A'', foldM (cap_column K) A cols = Ok A'' → A' = A''.
Proof.
  revert h A. induction cols as [|c cols IH]; intros h A Hl.
  { exists A. cbn. rewrite insert_id by done. split; [done | by intros ? [= ->]]. }
  cbn [for_each foldM]. unfold mbind at 1, M_bind.
  unfold cap_body at 1. unfold mbind at 1, M_bind. unfold deref at 1. rewrite Hl.
  unfold mbind at 1, M_bind. unfold lift at 1.
  destruct (cap_column K A c) as [A1|e]; cbn [mbind result_bind].
  - unfold store at 1.
    destruct (IH (<[l := A1]> h) A1) as (A' & Hrun & Huniq).
    { apply lookup_insert_eq. }
    exists A'. rewrite Hrun, insert_insert_eq. done.
  - exists A. rewrite insert_id by done. done.
Qed.

Lemma calculate_sparsity_pattern_unfold l K h A0 :
  h !! l = Some A0 →
  calculate_sparsity_pattern l K h =
    match for_each (filter (λ ii, K < getnnz_col A0 ii) (seq 0 (ncols A0)))
            (cap_body l K) h with
    | (Ok _, h1) =>
        match h1 !! l with
        | Some A =>
            (if decide (nrows A = 0) then Raise ZeroDivisionError else Ok l,
             <[l := eliminate_zeros A]> h1)
        | None => (Raise NameError, h1)
        end
    | (Raise e, h1) => (Raise e, h1)
    end.
Proof.
  intros Hl. unfold calculate_sparsity_pattern. cbn zeta.
  unfold mbind at 1, M_bind. unfold deref at 1. rewrite Hl.
  assert (filter (λ ii, K < getnnz_axis0 A0 !!! ii)
            (seq 0 (length (getnnz_axis0 A0)))
          = filter (λ ii, K < getnnz_col A0 ii) (seq 0 (ncols A0))) as ->.
  { unfold getnnz_axis0. rewrite length_fmap, length_seq.
    apply filter_ext_in. intros ii Hii%elem_of_seq.
    rewrite lookup_total_fmap_lt by (rewrite length_seq; lia).
    rewrite list_lookup_total_alt, lookup_seq_lt by lia. done. }
  unfold mbind at 1, M_bind.
  match goal with
  | |- context [for_each ?l' ?f h] =>
      change (for_each l' f h) with (for_each l' (cap_body l K) h)
  end.
  destruct (for_each _ (cap_body l K) h) as [[[]|e] h1]; [|done].
  unfold mbind at 1, M_bind. unfold deref at 1.
  destruct (h1 !! l) as [A|]; [|done].
  unfold mbind at 1, M_bind. unfold store at 1.
  unfold mbind at 1, M_bind. unfold deref at 1. rewrite lookup_insert_eq.
  unfold mbind at 1, M_bind. unfold lift at 1.
  rewrite printed_sparsity_run. cbn [nrows eliminate_zeros].
  by case_decide.
Qed.

Lemma calculate_sparsity_pattern_run l K h A0 :
  h !! l = Some A0 →
  let iiList := filter (λ ii, K < getnnz_col A0 ii) (seq 0 (ncols A0)) in
  match foldM (cap_column K) A0 iiList with
  | Ok A' =>
      calculate_sparsity_pattern l K h
      = (if decide (nrows A0 = 0) then Raise ZeroDivisionError else Ok l,
         <[l := eliminate_zeros A']> h)
  | Raise e => ∃ A', calculate_sparsity_pattern l K h = (Raise e, <[l := A']> h)
  end.
Proof.
  intros Hl iiList. rewrite (calculate_sparsity_pattern_unfold l K h A0 Hl).
  fold iiList.
  destruct (for_each_cap l K iiList h A0 Hl) as (A' & -> & Huniq).
  pose proof (cap_loop_result K A0 iiList ltac:(apply NoDup_filter, NoDup_seq)) as Hloop.
  destruct (foldM (cap_column K) A0 iiList) as [A''|e].
  - rewrite (Huniq A'' eq_refl), lookup_insert_eq. rewrite insert_insert_eq.
    destruct Hloop as (_ & -> & _). done.
  - by exists A'.
Qed.

End sparsity_pattern_facts.

Lemma eliminate_zeros_lookup A k v :
  entries (eliminate_zeros A) !! k = Some v ↔ entries A !! k = Some v ∧ v ≠ 0%Qc.
Proof. unfold eliminate_zeros. cbn [entries]. by rewrite map_lookup_filter_Some. Qed.

Lemma eliminate_zeros_no_stored_zero A : no_stored_zero (eliminate_zeros A).
Proof. intros k Hk. by apply eliminate_zeros_lookup in Hk as [_ ?]. Qed.

Lemma getnnz_col_nonzero_rows A c :
  no_stored_zero A → getnnz_col A c = length (nonzero_rows A c).
Proof.
  intros Hnz. unfold getnnz_col, nonzero_rows. f_equal.
  apply filter_ext_in. intros r _. unfold getv. split.
  - intros [v Hv]. rewrite Hv. cbn. intros ->. by apply (Hnz (r, c)).
  - destruct (entries A !! (r, c)); [eauto | done].
Qed.

Lemma length_filter_elem_of (l : list nat) n :
  NoDup l → (∀ x, x ∈ l → x < n) →
  length (filter (λ r, r ∈ l) (seq 0 n)) = length l.
Proof.
  intros Hnd Hlt. apply Permutation_length, NoDup_Permutation.
  - apply NoDup_filter, NoDup_seq.
  - done.
  - intros x. rewrite list_elem_of_filter, elem_of_seq. split; [by intros [? _]|].
    intros Hx. split; [done|]. apply Hlt in Hx. lia.
Qed.

Section sparsity_pattern_claims.
Context `{NumLib}.

(** What a call of [calculate_sparsity_pattern] does to the heap. *)
Lemma calculate_sparsity_pattern_spec (l : loc) (maxInColumn : nat)
    (h : gmap loc spmatrix) (AtA : spmatrix) :
  h !! l = Some AtA →
  (no_stored_zero AtA → nrows AtA ≠ 0 →
   ∃ h', calculate_sparsity_pattern l maxInColumn h = (Ok l, h')) ∧
  (∀ l' h', calculate_sparsity_pattern l maxInColumn h = (Ok l', h') →
     ∃ AA, l' = l ∧ h' = <[l := AA]> h ∧
       nrows AA = nrows AtA ∧ ncols AA = ncols AtA ∧
       (∀ c, c < ncols AA → getnnz_col AA c ≤ maxInColumn) ∧
       no_stored_zero AA ∧
       entries AA ⊆ entries AtA ∧
       size (entries AA) ≤ size (entries AtA) ∧
       (∀ c, c < ncols AtA → getnnz_col AtA c ≤ maxInColumn →
          (∀ r v, entries AA !! (r, c) = Some v ↔
                  entries AtA !! (r, c) = Some v ∧ v ≠ 0%Qc) ∧
          (no_stored_zero AtA → ∀ r, entries AA !! (r, c) = entries AtA !! (r, c))) ∧
       (∀ c, c < ncols AtA → maxInColumn < getnnz_col AtA c →
          getnnz_col AA c
          = (if decide (nonzero_rows AtA c = []) then 0 else maxInColumn) ∧
          ∀ r r', r < nrows AtA → r' < nrows AtA →
            is_Some (entries AA !! (r, c)) → entries AA !! (r', c) = None →
            (Qcabs (getv AtA r' c) ≤ Qcabs (getv AtA r c))%Qc)).
Proof.
  intros Hl. set (K := maxInColumn).
  pose proof (calculate_sparsity_pattern_run l K h AtA Hl) as Hrun. cbn zeta in Hrun.
  set (iiList := filter (λ ii, K < getnnz_col AtA ii) (seq 0 (ncols AtA))) in *.
  assert (NoDup iiList) as Hnd by apply NoDup_filter, NoDup_seq.
  assert (∀ c, c ∈ iiList ↔ c < ncols AtA ∧ K < getnnz_col AtA c) as Hii.
  { intros c. unfold iiList. rewrite list_elem_of_filter, elem_of_seq.
    split; intros [? ?]; split; (done || lia). }
  pose proof (cap_loop_result K AtA iiList Hnd) as Hloop.
  destruct (foldM (cap_column K) AtA iiList) as [A'|e].
  2:{ destruct Hrun as [A' Hrun]. split.
      - intros Hnz _. exfalso. apply Hloop, Forall_forall. intros c Hc%Hii.
        right. rewrite <- getnnz_col_nonzero_rows by done. lia.
      - intros l' h'. rewrite Hrun. intros [= ]. }
  destruct Hloop as (HF & Hn1 & Hn2 & Hent). rewrite Forall_forall in HF.
  split.
  { intros _ Hrows. rewrite Hrun, decide_False by done. eauto. }
  intros l' h'. rewrite Hrun. case_decide as Hrows; [done|]. intros [= <- <-].
  exists (eliminate_zeros A').
  (* the stored entries of the result *)
  assert (∀ r c v, entries (eliminate_zeros A') !! (r, c) = Some v ↔
            entries AtA !! (r, c) = Some v ∧ v ≠ 0%Qc
            ∧ ¬ (c ∈ iiList ∧ r ∈ dropped_rows K AtA c)) as Hres.
  { intros r c v. rewrite eliminate_zeros_lookup, Hent.
    case_decide as Hd; split.
    - by intros [[= <-] ?].
    - by intros (_ & _ & ?).
    - by intros [? ?].
    - by intros (? & ? & _). }
  assert (∀ c r, c ∈ iiList → K < length (nonzero_rows AtA c) → r < nrows AtA →
            is_Some (entries (eliminate_zeros A') !! (r, c)) ↔ r ∈ kept_rows K AtA c)
    as Hkept.
  { intros c r Hc HK Hr.
    pose proof (kept_dropped_perm K AtA c HK) as Hperm. split.
    - intros [v (Hv & Hnz & Hnd')%Hres].
      assert (r ∈ nonzero_rows AtA c) as Hin.
      { apply elem_of_nonzero_rows. split; [done|]. unfold getv. by rewrite Hv. }
      rewrite <- Hperm in Hin. apply elem_of_app in Hin as [?|?]; [done|].
      exfalso. by apply Hnd'.
    - intros Hin.
      assert (r ∈ nonzero_rows AtA c) as Hnzr.
      { rewrite <- Hperm. apply elem_of_app. by left. }
      apply elem_of_nonzero_rows in Hnzr as [_ Hnz]. unfold getv in Hnz.
      destruct (entries AtA !! (r, c)) as [v|] eqn:Hv; [|done].
      exists v. apply Hres. split_and!; [done..|].
      intros [_ Hd]. by apply (kept_dropped_disjoint K AtA c r). }
  assert (∀ c r, nonzero_rows AtA c = [] → r < nrows AtA →
            entries (eliminate_zeros A') !! (r, c) = None) as Hempty.
  { intros c r Hnil Hr.
    destruct (entries (eliminate_zeros A') !! (r, c)) as [v|] eqn:Hv; [|done].
    apply Hres in Hv as (Hv & Hnz & _).
    assert (r ∈ nonzero_rows AtA c) as Hin.
    { apply elem_of_nonzero_rows. split; [done|]. unfold getv. by rewrite Hv. }
    rewrite Hnil in Hin. by apply not_elem_of_nil in Hin. }
  assert (∀ c, c ∈ iiList →
            getnnz_col (eliminate_zeros A') c
            = if decide (nonzero_rows AtA c = []) then 0 else K) as Hcount.
  { intros c Hc. unfold getnnz_col. cbn [nrows eliminate_zeros]. rewrite Hn1.
    case_decide as Hnil.
    - apply length_zero_iff_nil, filter_none.
      intros r Hr%elem_of_seq. rewrite Hempty by (done || lia). by intros [? ?].
    - assert (K < length (nonzero_rows AtA c)) as HK
        by (by destruct (HF c Hc)).
      transitivity (length (kept_rows K AtA c)); [|by apply length_kept_rows].
      rewrite <- (length_filter_elem_of (kept_rows K AtA c) (nrows AtA)).
      + f_equal. apply filter_ext_in. intros r Hr%elem_of_seq.
        apply Hkept; [done|done|lia].
      + eapply (NoDup_app (kept_rows K AtA c) (dropped_rows K AtA c)).
        rewrite kept_dropped_perm by done. apply NoDup_nonzero_rows.
      + intros r Hr.
        assert (r ∈ nonzero_rows AtA c) as Hin.
        { rewrite <- (kept_dropped_perm K AtA c HK). apply elem_of_app. by left. }
        by apply elem_of_nonzero_rows in Hin as [? _]. }
  assert (entries (eliminate_zeros A') ⊆ entries AtA) as Hsub.
  { apply map_subseteq_spec. intros [r c] v Hv. by apply Hres in Hv as [? _]. }
  split_and!; [done|done|done|done| |apply eliminate_zeros_no_stored_zero|done| | |].
  - intros c Hc. cbn [ncols eliminate_zeros] in Hc. rewrite Hn2 in Hc.
    destruct (decide (K < getnnz_col AtA c)) as [Hover|Hin].
    + rewrite Hcount by (by apply Hii). case_decide; lia.
    + etrans; [|apply not_lt, Hin]. unfold getnnz_col.
      cbn [nrows eliminate_zeros]. rewrite Hn1.
      apply filter_length_mono. intros r _ [v Hv]. apply Hres in Hv as [? _]. eauto.
  - by apply map_subseteq_size.
  - intros c Hc Hin.
    assert (c ∉ iiList) as Hnot by (intros [_ ?]%Hii; lia).
    assert (∀ r v, entries (eliminate_zeros A') !! (r, c) = Some v ↔
              entries AtA !! (r, c) = Some v ∧ v ≠ 0%Qc) as Hcol.
    { intros r v. rewrite Hres. split; [by intros (? & ? & _)|].
      intros [? ?]. split_and!; [done..|]. by intros [? _]. }
    split; [done|]. intros Hnz r.
    destruct (entries AtA !! (r, c)) as [v|] eqn:Hv.
    + apply Hcol. split; [done|]. intros ->. by apply (Hnz (r, c)).
    + destruct (entries (eliminate_zeros A') !! (r, c)) as [v|] eqn:Hv'; [|done].
      apply Hcol in Hv' as [? _]. congruence.
  - intros c Hc Hover. assert (c ∈ iiList) as Hci by (by apply Hii).
    split; [by apply Hcount|].
    intros r r' Hr Hr' Hsome Hnone.
    destruct (HF c Hci) as [Hnil|HK].
    { rewrite (Hempty c r Hnil Hr) in Hsome. by destruct Hsome. }
    apply Hkept in Hsome; [|done..].
    destruct (decide (getv AtA r' c = 0%Qc)) as [->|Hnz].
    { rewrite (Qcabs_pos 0) by apply Qcle_refl. apply Qcabs_nonneg. }
    assert (r' ∈ nonzero_rows AtA c) as Hin by (by apply elem_of_nonzero_rows).
    rewrite <- (kept_dropped_perm K AtA c HK) in Hin.
    apply elem_of_app in Hin as [Hk|Hd].
    + apply Hkept in Hk as [? ?]; [congruence|done..].
    + by apply (kept_dominates K AtA c).
Qed.

(** The printed sparsity divides by the number of rows. *)
Lemma calculate_sparsity_pattern_rows (l : loc) (maxInColumn : nat)
    (h : gmap loc spmatrix) (AtA : spmatrix) :
  h !! l = Some AtA →
  (nrows AtA = 0 →
   ∃ h', calculate_sparsity_pattern l maxInColumn h = (Raise ZeroDivisionError, h')) ∧
  (∀ l' h', calculate_sparsity_pattern l maxInColumn h = (Ok l', h') → nrows AtA ≠ 0).
Proof.
  intros Hl.
  pose proof (calculate_sparsity_pattern_run l maxInColumn h AtA Hl) as Hrun.
  cbn zeta in Hrun. split.
  - intros Hrows.
    assert (filter (λ ii, maxInColumn < getnnz_col AtA ii) (seq 0 (ncols AtA)) = [])
      as Hnil.
    { apply filter_none. intros c _.
      unfold getnnz_col. rewrite Hrows. cbn. lia. }
    rewrite Hnil in Hrun. cbn [foldM] in Hrun.
    rewrite Hrun, decide_True by done. eauto.
  - intros l' h' Hcsp. destruct (foldM _ _ _) as [A'|e].
    + rewrite Hrun in Hcsp. by case_decide.
    + destruct Hrun as [A' Hrun]. by rewrite Hrun in Hcsp.
Qed.

(** C4 (as amended).  [calculate_sparsity_pattern] on the matrix [AtA]
    behind its argument.  It returns whenever [AtA] has at least one row
    and stores no explicit zero, as the output of [filter_XtX] for
    non-negative thresholds does; on a matrix without rows it raises
    [ZeroDivisionError], because the sparsity it prints divides by the
    number of rows.  Whenever it returns, in the result [AA] no column has
    more than [maxInColumn] stored entries; a column that was over budget
    keeps exactly [maxInColumn] entries, none of them smaller in magnitude
    than an entry it lost (or nothing at all, when all it stored were
    explicit zeros); a column within budget keeps its nonzero entries as
    they are and loses its explicit zeros (so it is untouched when it
    stores none); removed entries are dropped from the structure (no stored
    zero remains, the number of stored entries does not grow); and the
    stored entries of [AA] are entries of [AtA], with their values. *)
Theorem calculate_sparsity_pattern_caps (l : loc) (maxInColumn : nat)
    (h : gmap loc spmatrix) (AtA : spmatrix) :
  h !! l = Some AtA →
  (no_stored_zero AtA → nrows AtA ≠ 0 →
   ∃ h', calculate_sparsity_pattern l maxInColumn h = (Ok l, h')) ∧
  (nrows AtA = 0 →
   ∃ h', calculate_sparsity_pattern l maxInColumn h = (Raise ZeroDivisionError, h')) ∧
  (∀ l' h', calculate_sparsity_pattern l maxInColumn h = (Ok l', h') →
     ∃ AA, h' !! l' = Some AA ∧
       nrows AA = nrows AtA ∧ ncols AA = ncols AtA ∧
       (∀ c, c < ncols AA → getnnz_col AA c ≤ maxInColumn) ∧
       no_stored_zero AA ∧
       entries AA ⊆ entries AtA ∧
       size (entries AA) ≤ size (entries AtA) ∧
       (∀ c, c < ncols AtA → getnnz_col AtA c ≤ maxInColumn →
          (∀ r v, entries AA !! (r, c) = Some v ↔
                  entries AtA !! (r, c) = Some v ∧ v ≠ 0%Qc) ∧
          (no_stored_zero AtA → ∀ r, entries AA !! (r, c) = entries AtA !! (r, c))) ∧
       (∀ c, c < ncols AtA → maxInColumn < getnnz_col AtA c →
          getnnz_col AA c
          = (if decide (nonzero_rows AtA c = []) then 0 else maxInColumn) ∧
          ∀ r r', r < nrows AtA → r' < nrows AtA →
            is_Some (entries AA !! (r, c)) → entries AA !! (r', c) = None →
            (Qcabs (getv AtA r' c) ≤ Qcabs (getv AtA r c))%Qc)).
Proof.
  intros Hl.
  destruct (calculate_sparsity_pattern_spec l maxInColumn h AtA Hl) as [Hret Hspec].
  destruct (calculate_sparsity_pattern_rows l maxInColumn h AtA Hl) as [Hzero _].
  split; [done|]. split; [done|]. intros l' h' Hrun.
  destruct (Hspec l' h' Hrun) as (AA & -> & -> & Hprops).
  exists AA. by rewrite lookup_insert_eq.
Qed.

End sparsity_pattern_claims.

Lemma calculate_sparsity_pattern_caps_witness :
  h_ex !! 1 = Some A_ex ∧
  (no_stored_zero A_ex → nrows A_ex ≠ 0 →
   ∃ h', calculate_sparsity_pattern 1 2 h_ex = (Ok 1, h')) ∧
  (nrows A_ex = 0 →
   ∃ h', calculate_sparsity_pattern 1 2 h_ex = (Raise ZeroDivisionError, h')) ∧
  (∀ l' h', calculate_sparsity_pattern 1 2 h_ex = (Ok l', h') →
     ∃ AA, h' !! l' = Some AA ∧
       nrows AA = nrows A_ex ∧ ncols AA = ncols A_ex ∧
       (∀ c, c < ncols AA → getnnz_col AA c ≤ 2) ∧
       no_stored_zero AA ∧
       entries AA ⊆ entries A_ex ∧
       size (entries AA) ≤ size (entries A_ex) ∧
       (∀ c, c < ncols A_ex → getnnz_col A_ex c ≤ 2 →
          (∀ r v, entries AA !! (r, c) = Some v ↔
                  entries A_ex !! (r, c) = Some v ∧ v ≠ 0%Qc) ∧
          (no_stored_zero A_ex → ∀ r, entries AA !! (r, c) = entries A_ex !! (r, c))) ∧
       (∀ c, c < ncols A_ex → 2 < getnnz_col A_ex c →
          getnnz_col AA c = (if decide (nonzero_rows A_ex c = []) then 0 else 2) ∧
          ∀ r r', r < nrows A_ex → r' < nrows A_ex →
            is_Some (entries AA !! (r, c)) → entries AA !! (r', c) = None →
            (Qcabs (getv A_ex r' c) ≤ Qcabs (getv A_ex r c))%Qc)).
Proof.
  assert (h_ex !! 1 = Some A_ex) as Hl by reflexivity.
  split; [exact Hl|]. exact (calculate_sparsity_pattern_caps 1 2 h_ex A_ex Hl).
Defined.

(** C4, counterexample.  Not every input has an output, and a column
    within budget is not always left as it is.  A training matrix without
    items gives an [AtA] without rows, on which the call raises
    [ZeroDivisionError].  With the thresholds [-1] the [AtA] of the
    three-item example stores the zeros off its diagonal: for
    [maxInColumn = 3] every column is within budget (three stored entries),
    the call returns, and column 0 has lost two of its three entries. *)
Lemma calculate_sparsity_pattern_not_every_input :
  filter_XtX (SpMatrix 3 0 ∅) 2 0 0 = Ok (SpMatrix 0 0 ∅, [], [], SpMatrix 0 0 ∅) ∧
  (calculate_sparsity_pattern 1 2 (<[1 := SpMatrix 0 0 ∅]> ∅)).1
  = Raise ZeroDivisionError ∧
  ∃ XtX rescaling XtXdiag AtA h' AA,
    filter_XtX X_ex 2 (-1) (-1) = Ok (XtX, rescaling, XtXdiag, AtA) ∧
    getnnz_col AtA 0 = 3 ∧ entries AtA !! (1, 0) = Some 0%Qc ∧
    calculate_sparsity_pattern 1 3 (<[1 := AtA]> ∅) = (Ok 1, h') ∧
    h' !! 1 = Some AA ∧
    getnnz_col AA 0 = 1 ∧ entries AA !! (1, 0) = None.
Proof.
  split; [vm_compute; reflexivity|]. split; [vm_compute; reflexivity|].
  eexists _, _, _, _, _, _.
  split; [vm_compute; reflexivity|]. split; [vm_compute; reflexivity|].
  split; [vm_compute; reflexivity|]. split; [vm_compute; reflexivity|].
  split; [vm_compute; reflexivity|]. split; vm_compute; reflexivity.
Qed.

(** ** Assigning the diagonal *)

Lemma diag_indices_S n : diag_indices (S n) = diag_indices n ++ [(n, n)].
Proof. unfold diag_indices. by rewrite seq_S, fmap_app. Qed.

Lemma length_diag_indices n : length (diag_indices n) = n.
Proof. unfold diag_indices. by rewrite length_fmap, length_seq. Qed.

Lemma foldl_setitem_diag M vals :
  let M' := foldl (λ M' iv, setitem M' iv.1.1 iv.1.2 iv.2) M
              (zip (diag_indices (length vals)) vals) in
  nrows M' = nrows M ∧ ncols M' = ncols M ∧
  ∀ r c, entries M' !! (r, c) =
           if decide (r = c ∧ r < length vals) then vals !! r
           else entries M !! (r, c).
Proof.
  induction vals as [|v vals IH] using rev_ind.
  { cbn. split_and!; [done..|]. intros r c. rewrite decide_False; [done | lia]. }
  cbn zeta in *. rewrite length_app. cbn [length].
  replace (length vals + 1) with (S (length vals)) by lia.
  rewrite diag_indices_S, zip_with_app by (by rewrite length_diag_indices).
  rewrite foldl_app. cbn [zip_with foldl fst snd].
  destruct IH as (Hn1 & Hn2 & Hent).
  split_and!; [done..|]. intros r c. cbn [setitem entries].
  destruct (decide ((r, c) = (length vals, length vals))) as [[= -> ->]|Hne].
  - rewrite lookup_insert_eq, decide_True by lia.
    by rewrite lookup_app_r, Nat.sub_diag by lia.
  - rewrite lookup_insert_ne by done. rewrite Hent.
    destruct (decide (r = c ∧ r < length vals)) as [[-> Hlt]|Hn].
    + rewrite decide_True by lia. by rewrite lookup_app_l.
    + rewrite decide_False; [done|]. intros [-> Hlt].
      destruct (decide (c = length vals)) as [->|]; [done|]. apply Hn. lia.
Qed.

Lemma setitems_diag M vals :
  ∃ M', setitems M (diag_indices (length vals)) vals = Ok M' ∧
    nrows M' = nrows M ∧ ncols M' = ncols M ∧
    ∀ r c, entries M' !! (r, c) =
             if decide (r = c ∧ r < length vals) then vals !! r
             else entries M !! (r, c).
Proof.
  unfold setitems. rewrite decide_True by (by rewrite length_diag_indices).
  eexists. split; [done|]. apply foldl_setitem_diag.
Qed.

Section sparse_solution_facts.
Context `{NumLib}.

Lemma set_diagonal_run X vals h A :
  h !! X = Some A →
  ∃ A', set_diagonal X (diag_indices (length vals)) vals h = (Ok (), <[X := A']> h) ∧
    nrows A' = nrows A ∧ ncols A' = ncols A ∧
    ∀ r c, entries A' !! (r, c) =
             if decide (r = c ∧ r < length vals) then vals !! r
             else entries A !! (r, c).
Proof.
  intros HX. destruct (setitems_diag A vals) as (A' & Hset & Hprops).
  exists A'. split; [|done].
  unfold set_diagonal. unfold mbind at 1, M_bind. unfold deref. rewrite HX.
  unfold mbind, M_bind, lift. rewrite Hset. done.
Qed.

(** The steps of a call of [sparse_solution] that returns. *)
Lemma sparse_solution_run g rr maxInColumn L2reg h X AtA BB h' :
  g_XtX g ≠ g_AtA g →
  g_ii_diag g = diag_indices (length (g_XtXdiag g)) →
  h !! g_XtX g = Some X → h !! g_AtA g = Some AtA →
  sparse_solution g rr maxInColumn L2reg h = (Ok BB, h') →
  ∃ X1 X2 AA,
    let regularized := (λ d, d + L2reg)%Qc <$> g_XtXdiag g in
    let h1 := <[g_XtX g := X1]> h in
    (∀ r c, entries X1 !! (r, c) =
              if decide (r = c ∧ r < length (g_XtXdiag g)) then g_XtXdiag g !! r
              else entries X !! (r, c)) ∧
    (∀ r c, entries X2 !! (r, c) =
              if decide (r = c ∧ r < length (g_XtXdiag g)) then regularized !! r
              else entries X !! (r, c)) ∧
    nrows X2 = nrows X ∧ ncols X2 = ncols X ∧
    h1 !! g_AtA g = Some AtA ∧
    calculate_sparsity_pattern (g_AtA g) maxInColumn h1
      = (Ok (g_AtA g), <[g_AtA g := AA]> h1) ∧
    sparse_parameter_estimation_on (g_ii_diag g) rr X2 AA regularized = Ok BB ∧
    h' = <[g_XtX g := X2]> (<[g_AtA g := AA]> h1).
Proof.
  intros Hne Hdiag HX HA. unfold sparse_solution. rewrite Hdiag.
  destruct (set_diagonal_run (g_XtX g) (g_XtXdiag g) h X HX)
    as (X1 & Hset1 & Hn1 & Hm1 & Hent1).
  unfold mbind at 1, M_bind. rewrite Hset1.
  set (h1 := <[g_XtX g := X1]> h).
  assert (h1 !! g_AtA g = Some AtA) as HA1.
  { unfold h1. by rewrite lookup_insert_ne. }
  unfold mbind at 1, M_bind.
  destruct (calculate_sparsity_pattern (g_AtA g) maxInColumn h1) as [[l'|e] h2] eqn:Hcsp;
    [|done].
  destruct (calculate_sparsity_pattern_spec (g_AtA g) maxInColumn h1 AtA HA1) as [_ Hspec].
  destruct (Hspec l' h2 Hcsp) as (AA & -> & -> & _).
  cbn zeta. set (reg := (λ d, d + L2reg)%Qc <$> g_XtXdiag g).
  assert (length reg = length (g_XtXdiag g)) as Hlen by (unfold reg; by rewrite length_fmap).
  rewrite <- Hlen.
  destruct (set_diagonal_run (g_XtX g) reg (<[g_AtA g := AA]> h1) X1)
    as (X2 & Hset2 & Hn2 & Hm2 & Hent2).
  { rewrite lookup_insert_ne by done. apply lookup_insert_eq. }
  unfold mbind at 1, M_bind. rewrite Hset2.
  unfold sparse_parameter_estimation.
  unfold mbind at 1, M_bind. unfold deref at 1. rewrite lookup_insert_eq.
  unfold mbind at 1, M_bind. unfold deref at 1.
  rewrite lookup_insert_ne, lookup_insert_eq by done.
  unfold lift. intros [= Hrun <-].
  exists X1, X2, AA. cbn zeta. fold reg h1. rewrite Hlen in Hrun, Hent2.
  rewrite ?Hlen.
  split_and!.
  - exact Hent1.
  - intros r c. rewrite Hent2, Hent1.
    destruct (decide (r = c ∧ r < length (g_XtXdiag g))); done.
  - congruence.
  - congruence.
  - exact HA1.
  - exact Hcsp.
  - exact Hrun.
  - reflexivity.
Qed.

End sparse_solution_facts.

Section sparse_solution_claims.
Context `{NumLib}.

(** C9.  [calculate_sparsity_pattern] works on the object it is given: it
    returns the reference it received and the only change to the heap is
    the matrix behind that reference.  So when [sparse_solution] returns,
    the matrix behind the caller's [AtA] is the capped mask [AA] that the
    call produced, and as soon as some column was over budget it differs
    from the thresholded matrix that was there before. *)
Theorem sparse_solution_overwrites_AtA g rr maxInColumn L2reg h X AtA BB h' :
  g_XtX g ≠ g_AtA g →
  g_ii_diag g = diag_indices (length (g_XtXdiag g)) →
  h !! g_XtX g = Some X → h !! g_AtA g = Some AtA →
  sparse_solution g rr maxInColumn L2reg h = (Ok BB, h') →
  (∀ l K h0 l' h0', calculate_sparsity_pattern l K h0 = (Ok l', h0') →
     l' = l ∧ ∃ A A', h0 !! l = Some A ∧ h0' = <[l := A']> h0) ∧
  ∃ h1 AA,
    h1 !! g_AtA g = Some AtA ∧
    calculate_sparsity_pattern (g_AtA g) maxInColumn h1
      = (Ok (g_AtA g), <[g_AtA g := AA]> h1) ∧
    h' !! g_AtA g = Some AA ∧
    ((∃ c, c < ncols AtA ∧ maxInColumn < getnnz_col AtA c) → AA ≠ AtA).
Proof.
  intros Hne Hdiag HX HA Hrun. split.
  { intros l K h0 l' h0' Hcsp.
    destruct (h0 !! l) as [A|] eqn:Hl.
    - destruct (calculate_sparsity_pattern_spec l K h0 A Hl) as [_ Hspec].
      destruct (Hspec l' h0' Hcsp) as (A' & -> & -> & _). eauto.
    - unfold calculate_sparsity_pattern in Hcsp. cbn zeta in Hcsp.
      unfold mbind at 1, M_bind in Hcsp. unfold deref at 1 in Hcsp.
      by rewrite Hl in Hcsp. }
  destruct (sparse_solution_run g rr maxInColumn L2reg h X AtA BB h'
              Hne Hdiag HX HA Hrun)
    as (X1 & X2 & AA & _ & _ & _ & _ & HA1 & Hcsp & _ & ->).
  cbn zeta in *. exists (<[g_XtX g := X1]> h), AA. split_and!; [done..| |].
  - rewrite lookup_insert_ne by done. apply lookup_insert_eq.
  - intros (c & Hc & Hover) ->.
    destruct (calculate_sparsity_pattern_spec _ maxInColumn _ _ HA1) as [_ Hspec].
    destruct (Hspec _ _ Hcsp) as (AA & _ & Hheap & _ & _ & _ & _ & _ & _ & _ & Hcap).
    apply (f_equal (λ m, m !! g_AtA g)) in Hheap.
    rewrite !lookup_insert_eq in Hheap. injection Hheap as <-.
    destruct (Hcap c Hc Hover) as [Hcount _]. case_decide; lia.
Qed.

(** C10.  [sparse_solution] writes the diagonal of the shared [XtX] twice,
    [XtXdiag] before the sparsity pattern is computed and
    [XtXdiag + L2reg] before the parameter estimation, and writes nothing
    back: when it returns, the diagonal of [XtX] holds the regularized
    values (for [L2reg <> 0] these are not the values [XtXdiag]), the
    entries off the diagonal being as before. *)
Theorem sparse_solution_leaves_regularized_diagonal
    g rr maxInColumn L2reg h X AtA BB h' :
  g_XtX g ≠ g_AtA g →
  g_ii_diag g = diag_indices (length (g_XtXdiag g)) →
  h !! g_XtX g = Some X → h !! g_AtA g = Some AtA →
  sparse_solution g rr maxInColumn L2reg h = (Ok BB, h') →
  ∃ X1 X' h2,
    (∀ i d, g_XtXdiag g !! i = Some d → entries X1 !! (i, i) = Some d) ∧
    calculate_sparsity_pattern (g_AtA g) maxInColumn (<[g_XtX g := X1]> h)
      = (Ok (g_AtA g), h2) ∧
    h' !! g_XtX g = Some X' ∧
    (∀ i d, g_XtXdiag g !! i = Some d → entries X' !! (i, i) = Some (d + L2reg)%Qc) ∧
    (L2reg ≠ 0%Qc →
     ∀ i d, g_XtXdiag g !! i = Some d → entries X' !! (i, i) ≠ Some d) ∧
    (∀ r c, r ≠ c → entries X' !! (r, c) = entries X !! (r, c)).
Proof.
  intros Hne Hdiag HX HA Hrun.
  destruct (sparse_solution_run g rr maxInColumn L2reg h X AtA BB h'
              Hne Hdiag HX HA Hrun)
    as (X1 & X2 & AA & Hent1 & Hent2 & _ & _ & _ & Hcsp & _ & ->).
  cbn zeta in *. exists X1, X2. eexists.
  assert (∀ i d, g_XtXdiag g !! i = Some d →
            entries X2 !! (i, i) = Some (d + L2reg)%Qc) as Hreg.
  { intros i d Hd. rewrite Hent2, decide_True.
    - by rewrite list_lookup_fmap, Hd.
    - split; [done|]. by eapply lookup_lt_Some. }
  split_and!.
  - intros i d Hd. rewrite Hent1, decide_True; [done|].
    split; [done|]. by eapply lookup_lt_Some.
  - exact Hcsp.
  - apply lookup_insert_eq.
  - exact Hreg.
  - intros HL i d Hd. rewrite (Hreg i d Hd). intros [= Heq]. apply HL.
    apply (f_equal (λ x, x - d)%Qc) in Heq. ring_simplify in Heq. done.
  - intros r c Hrc. rewrite Hent2, decide_False; [done|]. by intros [? _].
Qed.

End sparse_solution_claims.

Lemma sparse_solution_overwrites_AtA_witness :
  ∃ BB h',
    sparse_solution g_ex 1 2 1 h_ex = (Ok BB, h') ∧
    ∃ h1 AA,
      h1 !! 1 = Some A_ex ∧
      calculate_sparsity_pattern 1 2 h1 = (Ok 1, <[1 := AA]> h1) ∧
      h' !! 1 = Some AA ∧
      ((∃ c, c < ncols A_ex ∧ 2 < getnnz_col A_ex c) → AA ≠ A_ex).
Proof.
  eexists _, _. split; [vm_compute; reflexivity|].
  eapply (sparse_solution_overwrites_AtA g_ex 1 2 1 h_ex A_ex A_ex);
    [done | done | done | done | vm_compute; reflexivity].
Defined.

Lemma sparse_solution_leaves_regularized_diagonal_witness :
  ∃ BB h',
    sparse_solution g_ex 1 2 1 h_ex = (Ok BB, h') ∧
    ∃ X1 X' h2,
      (∀ i d, diagonal A_ex !! i = Some d → entries X1 !! (i, i) = Some d) ∧
      calculate_sparsity_pattern 1 2 (<[0 := X1]> h_ex) = (Ok 1, h2) ∧
      h' !! 0 = Some X' ∧
      (∀ i d, diagonal A_ex !! i = Some d → entries X' !! (i, i) = Some (d + 1)%Qc) ∧
      ((1 : Qc) ≠ 0%Qc →
       ∀ i d, diagonal A_ex !! i = Some d → entries X' !! (i, i) ≠ Some d) ∧
      (∀ r c, r ≠ c → entries X' !! (r, c) = entries A_ex !! (r, c)).
Proof.
  eexists _, _. split; [vm_compute; reflexivity|].
  eapply (sparse_solution_leaves_regularized_diagonal g_ex 1 2 1 h_ex A_ex A_ex);
    [done | done | done | done | vm_compute; reflexivity].
Defined.

(** ** The partition into blocks *)

Lemma Qc_0_neq_1 : (0 : Qc)%Qc ≠ 1%Qc.
Proof. intros Heq. by apply (f_equal this) in Heq. Qed.

Lemma retired_unfold rr (nn : list nat) :
  take (dd_count rr (length nn)) nn = retired rr nn.
Proof. reflexivity. Qed.

Lemma clear_todo_Ok todo dd todo' :
  clear_todo todo dd = Ok todo' →
  length todo' = length todo ∧
  ∀ i, todo' !! i = if decide (i ∈ dd) then Some 0%Qc else todo !! i.
Proof.
  unfold clear_todo. case_decide as Hall; [|done]. intros [= <-].
  revert todo Hall. induction dd as [|d dd IH]; intros todo Hall.
  { split; [done|]. intros i. rewrite decide_False; [done | apply not_elem_of_nil]. }
  apply Forall_cons in Hall as [Hd Hall]. cbn [foldl].
  destruct (IH (<[d := 0%Qc]> todo)) as [Hlen Hlook].
  { by rewrite length_insert. }
  rewrite length_insert in Hlen. split; [done|]. intros i. rewrite Hlook.
  destruct (decide (i ∈ dd)) as [Hin|Hnin].
  - rewrite decide_True; [done | by right].
  - destruct (decide (i = d)) as [->|Hne].
    + rewrite decide_True by left. by rewrite list_lookup_insert_eq.
    + rewrite decide_False by (by intros [?|?]%elem_of_cons).
      by rewrite list_lookup_insert_ne.
Qed.

Section partition_facts.
Context `{NumLib}.

Lemma flags_agree_init rr N : flags_agree rr N (replicate N 1%Qc, []).
Proof.
  split; [apply length_replicate|]. intros i Hi. right. cbn [fst snd]. split.
  - by apply lookup_replicate_2.
  - intros nn Hnn. by apply not_elem_of_nil in Hnn.
Qed.

Lemma partition_step_Ok rr AA st ii st' :
  partition_step rr AA st ii = Ok st' →
  flags_agree rr (ncols AA) st →
  flags_agree rr (ncols AA) st' ∧
  (∀ nn, nn ∈ st.2 → nn ∈ st'.2) ∧
  (∀ nn, nn ∈ st'.2 → nn ∈ st.2 ∨
     nn = block_of AA ii ∧ st.1 !! ii = Some 1%Qc) ∧
  (ii < ncols AA → ii ∈ retired rr (block_of AA ii) →
   ∃ nn, nn ∈ st'.2 ∧ ii ∈ retired rr nn).
Proof.
  destruct st as [todo blocks]. unfold partition_step.
  destruct (todo !! ii) as [t|] eqn:Ht; [|done].
  case_decide as Ht1.
  2:{ intros [= <-] Hinv. split_and!; [done|done|by left|].
      intros Hii _. destruct Hinv as [_ Hinv].
      destruct (Hinv ii Hii) as [[_ ?]|[Hone _]]; [done|].
      cbn [fst] in Hone. congruence. }
  subst t. cbn zeta.
  destruct (clear_todo todo _) as [todo'|e] eqn:Hclear; cbn [mbind result_bind]; [|done].
  intros [= <-] [Hlen Hinv]. cbn [fst snd] in *.
  apply clear_todo_Ok in Hclear as [Hlen' Hlook].
  rewrite retired_unfold in Hlook.
  split_and!.
  - split; [cbn [fst]; congruence|]. intros i Hi. cbn [fst snd].
    rewrite Hlook. destruct (decide (i ∈ retired rr (block_of AA ii))) as [Hin|Hnin].
    + left. split; [done|]. exists (block_of AA ii). split; [|done].
      apply elem_of_app. right. by apply list_elem_of_singleton.
    + destruct (Hinv i Hi) as [[Hz (nn & Hnn & Hr)]|[Hone Hnone]].
      * left. split; [done|]. exists nn. split; [|done]. apply elem_of_app. by left.
      * right. split; [done|]. intros nn [Hnn| ->%list_elem_of_singleton]%elem_of_app;
          [by apply Hnone | done].
  - intros nn Hnn. apply elem_of_app. by left.
  - intros nn [Hnn| ->%list_elem_of_singleton]%elem_of_app; [by left | by right].
  - intros _ Hin. exists (block_of AA ii). split; [|done].
    apply elem_of_app. right. by apply list_elem_of_singleton.
Qed.

Lemma partition_steps_Ok rr AA sortedList st st' :
  foldM (partition_step rr AA) st sortedList = Ok st' →
  flags_agree rr (ncols AA) st →
  flags_agree rr (ncols AA) st' ∧
  (∀ nn, nn ∈ st.2 → nn ∈ st'.2) ∧
  (∀ nn, nn ∈ st'.2 → nn ∈ st.2 ∨ ∃ ii, ii ∈ sortedList ∧ nn = block_of AA ii) ∧
  (∀ ii, ii ∈ sortedList → ii < ncols AA → ii ∈ retired rr (block_of AA ii) →
     ∃ nn, nn ∈ st'.2 ∧ ii ∈ retired rr nn).
Proof.
  revert st. induction sortedList as [|ii l IH]; intros st.
  { intros [= <-] Hinv. split_and!; [done|done|by left|].
    intros ii Hii. by apply not_elem_of_nil in Hii. }
  cbn [foldM]. intros Hrun Hinv.
  apply result_bind_Ok in Hrun as (st1 & Hstep & Hrun).
  destruct (partition_step_Ok _ _ _ _ _ Hstep Hinv) as (Hinv1 & Hmono1 & Hnew1 & Hcov1).
  destruct (IH _ Hrun Hinv1) as (Hinv' & Hmono & Hnew & Hcov).
  split_and!.
  - done.
  - intros nn Hnn. by apply Hmono, Hmono1.
  - intros nn Hnn. destruct (Hnew nn Hnn) as [Hold|(ii' & Hii' & ->)].
    + destruct (Hnew1 nn Hold) as [?|[-> _]]; [by left|].
      right. exists ii. split; [by left | done].
    + right. exists ii'. split; [by right | done].
  - intros i [->|Hi]%elem_of_cons Hlt Hown.
    + destruct (Hcov1 Hlt Hown) as (nn & Hnn & Hr). exists nn. split; [by apply Hmono | done].
    + by apply Hcov.
Qed.

Lemma sortedList_of_perm AA XtXdiag sortedList :
  length XtXdiag = ncols AA →
  sortedList_of AA XtXdiag = Ok sortedList →
  sortedList ≡ₚ seq 0 (ncols AA).
Proof.
  intros Hlen. unfold sortedList_of. cbn zeta.
  destruct XtXdiag as [|d ds] eqn:Hd; [done|]. rewrite <- Hd in *.
  cbn [mbind result_bind]. unfold broadcast.
  rewrite decide_True.
  2:{ rewrite !length_fmap. unfold getnnz_axis0. by rewrite length_fmap, length_seq. }
  cbn [mbind result_bind]. intros [= <-].
  rewrite reverse_Permutation, np_argsort_perm, length_fmap, length_zip.
  rewrite !length_fmap. unfold getnnz_axis0.
  rewrite length_fmap, length_seq, Hlen. by rewrite Nat.min_id.
Qed.

(** An item whose diagonal entry strictly dominates its column of [AA]
    heads its own block. *)
Lemma block_of_head AA i :
  i < nrows AA → getv AA i i ≠ 0%Qc →
  (∀ r, r < nrows AA → r ≠ i → (Qcabs (getv AA r i) < Qcabs (getv AA i i))%Qc) →
  ∃ rest, block_of AA i = i :: rest.
Proof.
  intros Hi Hnz Hdom. unfold block_of. cbn zeta.
  set (nn := nonzero_rows AA i).
  set (keys := Qcabs <$> ((λ r, getv AA r i) <$> nn)).
  assert (length keys = length nn) as Hlk by (unfold keys; by rewrite !length_fmap).
  assert (i ∈ nn) as Hin by (by apply elem_of_nonzero_rows).
  apply list_elem_of_lookup_total in Hin as (p & Hp & Hnp).
  pose proof (np_argsort_perm keys) as Hperm.
  assert (p ∈ np_argsort keys) as Hpin.
  { rewrite Hperm, Hlk. apply elem_of_seq. lia. }
  apply list_elem_of_lookup in Hpin as [j Hj].
  pose proof (lookup_lt_Some _ _ _ Hj) as Hjlt.
  assert (length (np_argsort keys) = length nn) as Hla.
  { by rewrite Hperm, length_seq. }
  destruct (last (np_argsort keys)) as [a|] eqn:Hlast.
  2:{ rewrite last_lookup in Hlast. apply lookup_ge_None in Hlast. lia. }
  assert (head (reverse (np_argsort keys)) = Some a) as Hhead
    by (by rewrite head_reverse).
  apply head_Some in Hhead as [rest Hrest]. rewrite Hrest.
  unfold take_idx. rewrite fmap_cons. exists ((λ k, nn !!! k) <$> rest). f_equal.
  rewrite last_lookup in Hlast.
  assert (a < length nn) as Halt.
  { assert (a ∈ np_argsort keys) as Hain by (by eapply list_elem_of_lookup_2).
    rewrite Hperm, Hlk in Hain. apply elem_of_seq in Hain. lia. }
  pose proof (np_argsort_sorted keys j (pred (length (np_argsort keys))) p a
                ltac:(lia) Hj Hlast) as Hle.
  unfold keys in Hle. rewrite <- list_fmap_compose in Hle.
  rewrite !lookup_total_fmap_lt in Hle by done. cbn in Hle. rewrite Hnp in Hle.
  destruct (decide (nn !!! a = i)) as [|Hne]; [done|]. exfalso.
  assert (nn !!! a ∈ nn) as Hain by (by apply list_elem_of_lookup_total_2).
  apply elem_of_nonzero_rows in Hain as [Hlt _].
  apply (Qclt_not_le _ _ (Hdom _ Hlt Hne)). done.
Qed.

Lemma dd_count_pos rr len : 1 ≤ dd_count rr len.
Proof. unfold dd_count. lia. Qed.

End partition_facts.

Lemma length_filter_pos {A} (P : A → Prop) `{∀ x, Decision (P x)} (l : list A) :
  1 ≤ length (filter P l) ↔ ∃ x, x ∈ l ∧ P x.
Proof.
  split.
  - destruct (filter P l) as [|x l'] eqn:Hf; [cbn; lia|]. intros _.
    assert (x ∈ filter P l) as Hx by (rewrite Hf; left).
    apply list_elem_of_filter in Hx as [? ?]. eauto.
  - intros (x & Hx & HP).
    assert (x ∈ filter P l) as Hin by (by apply list_elem_of_filter).
    destruct (filter P l); [by apply not_elem_of_nil in Hin | cbn; lia].
Qed.

Section partition_claims.
Context `{NumLib}.

(** C1 (as amended).  For the block list the partitioner emits: an item's
    flag is cleared exactly when at least one block retires it; every block
    is the magnitude-sorted neighbor list of an item; and when every item
    lies in the retired prefix of its own block, in particular when its
    diagonal entry is nonzero and strictly dominates its column of [AA],
    every item index belongs to the retired set of at least one block.  The
    retired sets need not be disjoint. *)
Theorem retired_sets_cover AA rr XtXdiag sortedList todoIndicators blockList :
  length XtXdiag = ncols AA →
  sortedList_of AA XtXdiag = Ok sortedList →
  partition_loop rr AA sortedList = Ok (todoIndicators, blockList) →
  (∀ i, i < ncols AA →
     todoIndicators !! i = Some 0%Qc ↔ 1 ≤ times_retired rr blockList i) ∧
  (∀ nn, nn ∈ blockList → ∃ ii, ii < ncols AA ∧ nn = block_of AA ii) ∧
  ((∀ i, i < ncols AA → i ∈ retired rr (block_of AA i)) →
   ∀ i, i < ncols AA → 1 ≤ times_retired rr blockList i) ∧
  (nrows AA = ncols AA →
   (∀ i, i < ncols AA → getv AA i i ≠ 0%Qc ∧
      ∀ r, r < nrows AA → r ≠ i → (Qcabs (getv AA r i) < Qcabs (getv AA i i))%Qc) →
   ∀ i, i < ncols AA → 1 ≤ times_retired rr blockList i).
Proof.
  intros Hlen Hsorted Hloop.
  pose proof (sortedList_of_perm _ _ _ Hlen Hsorted) as Hperm.
  unfold partition_loop in Hloop.
  destruct (partition_steps_Ok _ _ _ _ _ Hloop (flags_agree_init rr (ncols AA)))
    as ([_ Hflags] & _ & Hnew & Hcov).
  cbn [fst snd] in *.
  assert (∀ i, i < ncols AA → i ∈ retired rr (block_of AA i) →
            1 ≤ times_retired rr blockList i) as Hcover.
  { intros i Hi Hown. apply length_filter_pos. apply Hcov; [|done..].
    rewrite Hperm. apply elem_of_seq. lia. }
  split_and!.
  - intros i Hi. unfold times_retired. rewrite length_filter_pos.
    destruct (Hflags i Hi) as [[Hz Hex]|[Hone Hnone]].
    + by split.
    + split.
      * rewrite Hone. intros [= ].
      * intros (nn & Hnn & Hr). by destruct (Hnone nn Hnn).
  - intros nn Hnn. destruct (Hnew nn Hnn) as [Hnil|(ii & Hii & ->)].
    + by apply not_elem_of_nil in Hnil.
    + exists ii. split; [|done]. rewrite Hperm in Hii. apply elem_of_seq in Hii. lia.
  - intros Hown i Hi. by apply Hcover; [|apply Hown].
  - intros Hsq Hdom i Hi. apply Hcover; [done|].
    destruct (Hdom i Hi) as [Hnz Hlt].
    destruct (block_of_head AA i ltac:(lia) Hnz Hlt) as [rest ->].
    unfold retired. pose proof (dd_count_pos rr (length (i :: rest))).
    destruct (dd_count rr (length (i :: rest))) as [|n]; [lia|]. left.
Qed.

End partition_claims.

Lemma retired_sets_cover_witness :
  ∃ sortedList todoIndicators blockList,
    let XtXdiag := (λ d, d + 1)%Qc <$> diagonal A_ex in
    length XtXdiag = ncols A_ex ∧
    sortedList_of A_ex XtXdiag = Ok sortedList ∧
    partition_loop 1 A_ex sortedList = Ok (todoIndicators, blockList) ∧
    (∀ i, i < ncols A_ex →
       todoIndicators !! i = Some 0%Qc ↔ 1 ≤ times_retired 1 blockList i) ∧
    (∀ nn, nn ∈ blockList → ∃ ii, ii < ncols A_ex ∧ nn = block_of A_ex ii) ∧
    ((∀ i, i < ncols A_ex → i ∈ retired 1 (block_of A_ex i)) →
     ∀ i, i < ncols A_ex → 1 ≤ times_retired 1 blockList i) ∧
    (nrows A_ex = ncols A_ex →
     (∀ i, i < ncols A_ex → getv A_ex i i ≠ 0%Qc ∧
        ∀ r, r < nrows A_ex → r ≠ i →
          (Qcabs (getv A_ex r i) < Qcabs (getv A_ex i i))%Qc) →
     ∀ i, i < ncols A_ex → 1 ≤ times_retired 1 blockList i).
Proof.
  eexists _, _, _. cbn zeta.
  split; [vm_compute; reflexivity|].
  split; [vm_compute; reflexivity|].
  split; [vm_compute; reflexivity|].
  eapply (retired_sets_cover A_ex 1 ((λ d, d + 1)%Qc <$> diagonal A_ex)).
  - vm_compute; reflexivity.
  - vm_compute; reflexivity.
  - vm_compute; reflexivity.
Defined.

(** C1, counterexample.  On the chain of four items with [r = 1] the
    partitioner emits the blocks [2; 3; 1] (anchored at item 2) and [0; 1]
    (anchored at item 0), each retired entirely: item 1 is in the retired
    set of both, although its own diagonal entry dominates its column. *)
Lemma retired_sets_overlap :
  ∃ sortedList todoIndicators blockList,
    sortedList_of A_ex ((λ d, d + 1)%Qc <$> diagonal A_ex) = Ok sortedList ∧
    partition_loop 1 A_ex sortedList = Ok (todoIndicators, blockList) ∧
    blockList = [[2; 3; 1]; [0; 1]] ∧
    ¬ (∀ i, i < ncols A_ex → times_retired 1 blockList i = 1).
Proof.
  eexists _, _, _.
  split; [vm_compute; reflexivity|].
  split; [vm_compute; reflexivity|].
  split; [ reflexivity|].
  intros Hall. specialize (Hall 1 ltac:(vm_compute; lia)).
  vm_compute in Hall. discriminate.
Qed.

(** ** The dense solution of one block *)

Lemma lookup_bind_fixed {A B} (f : A → list B) (l : list A) d a j x :
  (∀ y, length (f y) = d) → l !! a = Some x → j < d →
  (l ≫= f) !! (a * d + j) = f x !! j.
Proof.
  intros Hlen. revert a. induction l as [|y l IH]; intros a Ha Hj; [done|].
  rewrite bind_cons. destruct a as [|a]; simplify_eq/=.
  - rewrite lookup_app_l by (rewrite Hlen; lia). done.
  - rewrite lookup_app_r by (rewrite Hlen; lia). rewrite Hlen.
    replace (d + a * d + j - d) with (a * d + j) by lia. by apply IH.
Qed.

Lemma length_bind_fixed {A B} (f : A → list B) (l : list A) d :
  (∀ y, length (f y) = d) → length (l ≫= f) = length l * d.
Proof.
  intros Hlen. induction l as [|y l IH]; [done|].
  rewrite bind_cons, length_app, Hlen, IH. cbn [length]. lia.
Qed.

Lemma Qcdiv_opp_r (x y : Qc) : (x / - y = - x / y)%Qc.
Proof.
  destruct (decide (y = 0%Qc)) as [->|Hy].
  - unfold Qcdiv. replace (- 0)%Qc with 0%Qc by (by apply Qc_is_canon).
    replace (/ 0)%Qc with 0%Qc by (by apply Qc_is_canon). ring.
  - field. split; [done|]. intros Hn. apply Hy.
    rewrite <- (Qcopp_involutive y), Hn. by apply Qc_is_canon.
Qed.

Lemma dget_divide_by_neg_diag (B : list (list Qc)) a j :
  a < length B → j < length (B !!! a) →
  dget (divide_by_neg_diag B) a j = (- dget B a j / dget B j j)%Qc.
Proof.
  intros Ha Hj. unfold dget at 1. unfold divide_by_neg_diag, dense.
  rewrite lookup_total_fmap_lt by done.
  rewrite list_lookup_total_alt, list_lookup_imap.
  rewrite (list_lookup_lookup_total_lt (B !!! a) j) by done.
  cbn [fmap option_fmap option_map default].
  apply Qcdiv_opp_r.
Qed.

Section block_claims.
Context `{NumLib}.

(** C2 (as amended).  After the inversion of the block's submatrix the
    vector of negated diagonal entries is broadcast along the rows of the
    inverse, so each column is divided by the negated diagonal entry of
    that column: the triple emitted for neighbor [nn[a]] (row) and retired
    member [dd[j]] (column) carries [-inverse[a,j] / inverse[j,j]]. *)
Theorem solve_block_coefficients rr XtX nn sub inverse :
  submatrix XtX nn = Ok sub →
  linalg_inv sub = Some inverse →
  ∃ BBlist,
    solve_block rr XtX nn = Ok BBlist ∧
    length BBlist = length nn * length (retired rr nn) ∧
    ∀ a j, a < length nn → j < length (retired rr nn) →
      BBlist !! (a * length (retired rr nn) + j)
      = Some ((nn !!! a, retired rr nn !!! j),
              (- dget inverse a j / dget inverse j j)%Qc).
Proof.
  intros Hsub Hinv. unfold solve_block. rewrite Hsub. cbn [mbind result_bind].
  rewrite Hinv. cbn [mbind result_bind]. eexists. split; [reflexivity|].
  assert (length sub = length nn) as Hlsub.
  { unfold submatrix in Hsub. case_decide; [|done]. injection Hsub as <-.
    by rewrite length_fmap. }
  destruct (linalg_inv_shape _ _ Hinv) as [Hl1 Hl2]. rewrite Hlsub in Hl1, Hl2.
  rewrite Forall_forall in Hl2.
  set (dd := retired rr nn).
  assert (length dd ≤ length nn) as Hdd by (unfold dd, retired; rewrite length_take; lia).
  split.
  - rewrite (length_bind_fixed _ _ (length dd)), length_seq; [done|].
    intros. by rewrite length_fmap, length_seq.
  - intros a j Ha Hj.
    rewrite (lookup_bind_fixed _ _ (length dd) a j a);
      [|intros; by rewrite length_fmap, length_seq|by apply lookup_seq_lt|done].
    rewrite list_lookup_fmap, lookup_seq_lt by done. cbn. do 2 f_equal.
    apply dget_divide_by_neg_diag; [lia|].
    rewrite Hl2; [lia|]. apply list_elem_of_lookup_total_2. lia.
Qed.

End block_claims.

Lemma solve_block_coefficients_witness :
  ∃ sub inverse,
    submatrix A_ex [1; 0] = Ok sub ∧ linalg_inv sub = Some inverse ∧
    ∃ BBlist,
      solve_block 1 A_ex [1; 0] = Ok BBlist ∧
      length BBlist = length [1; 0] * length (retired 1 [1; 0]) ∧
      ∀ a j, a < length [1; 0] → j < length (retired 1 [1; 0]) →
        BBlist !! (a * length (retired 1 [1; 0]) + j)
        = Some (([1; 0] !!! a, retired 1 [1; 0] !!! j),
                (- dget inverse a j / dget inverse j j)%Qc).
Proof.
  eexists _, _.
  split; [vm_compute; reflexivity|].
  split; [vm_compute; reflexivity|].
  eapply (solve_block_coefficients 1 A_ex [1; 0]).
  - vm_compute; reflexivity.
  - vm_compute; reflexivity.
Defined.

(** C2, counterexample.  For the block of the items 1 and 0 of the chain,
    whose submatrix is [[5, 1], [1, 4]] with inverse
    [[4/19, -1/19], [-1/19, 5/19]], the coefficient emitted for neighbor
    [a = 0] and member [j = 1] is [1/5 = -inverse[0,1] / inverse[1,1]], not
    [1/4 = -inverse[0,1] / inverse[0,0]]. *)
Lemma solve_block_divides_columns :
  ∃ sub inverse BBlist,
    submatrix A_ex [1; 0] = Ok sub ∧ linalg_inv sub = Some inverse ∧
    solve_block 1 A_ex [1; 0] = Ok BBlist ∧
    ¬ (∀ a j rc v, a < 2 → j < 2 → BBlist !! (a * 2 + j) = Some (rc, v) →
         v = (- dget inverse a j / dget inverse a a)%Qc).
Proof.
  eexists _, _, _.
  split; [vm_compute; reflexivity|].
  split; [vm_compute; reflexivity|].
  split; [vm_compute; reflexivity|].
  intros Hall. specialize (Hall 0 1 _ _ ltac:(lia) ltac:(lia) eq_refl).
  apply (f_equal this) in Hall. vm_compute in Hall. discriminate.
Qed.

(** ** Averaging the contributions *)

Lemma filter_bind {A B} (P : B → Prop) `{∀ x, Decision (P x)} (f : A → list B) (l : list A) :
  filter P (l ≫= f) = l ≫= (λ x, filter P (f x)).
Proof.
  induction l as [|x l IH]; [done|].
  by rewrite !bind_cons, filter_app, IH.
Qed.

Lemma filter_fmap {A B} (P : B → Prop) `{∀ x, Decision (P x)} (f : A → B) (l : list A) :
  filter P (f <$> l) = f <$> filter (λ x, P (f x)) l.
Proof.
  induction l as [|x l IH]; [done|].
  rewrite fmap_cons, !filter_cons, IH. by destruct (decide (P (f x))).
Qed.

Lemma nonzero_filter M :
  nonzero M = filter (λ rc, getv M rc.1 rc.2 ≠ 0%Qc) (grid_cm (nrows M) (ncols M)).
Proof.
  unfold nonzero, grid_cm. rewrite filter_bind. apply list_bind_ext; [|done].
  intros c. by rewrite filter_fmap.
Qed.

Lemma elem_of_grid_cm n1 n2 r c : (r, c) ∈ grid_cm n1 n2 ↔ r < n1 ∧ c < n2.
Proof.
  unfold grid_cm. rewrite list_elem_of_bind. split.
  - intros (c' & (r' & [= -> ->] & Hr)%list_elem_of_fmap & Hc).
    apply elem_of_seq in Hr, Hc. lia.
  - intros [Hr Hc]. exists c. split; [|apply elem_of_seq; lia].
    apply list_elem_of_fmap. exists r. split; [done | apply elem_of_seq; lia].
Qed.

Lemma NoDup_grid_cm n1 n2 : NoDup (grid_cm n1 n2).
Proof.
  apply NoDup_bind; [| |apply NoDup_seq].
  - intros c1 c2 [r c] _ _ (? & [= -> ->] & _)%list_elem_of_fmap
      (? & [= -> ->] & _)%list_elem_of_fmap. done.
  - intros c _. apply NoDup_fmap_2_strong; [|apply NoDup_seq].
    by intros ? ? _ _ [= ->].
Qed.

Lemma elem_of_nonzero M r c :
  (r, c) ∈ nonzero M ↔ r < nrows M ∧ c < ncols M ∧ getv M r c ≠ 0%Qc.
Proof.
  rewrite nonzero_filter, list_elem_of_filter, elem_of_grid_cm. cbn [fst snd].
  split; [by intros (? & ? & ?) | by intros (? & ? & ?)].
Qed.

Lemma NoDup_nonzero M : NoDup (nonzero M).
Proof. rewrite nonzero_filter. apply NoDup_filter, NoDup_grid_cm. Qed.

Lemma filter_sub_length_eq {A} (P Q : A → Prop)
    `{∀ x, Decision (P x), ∀ x, Decision (Q x)} (l : list A) :
  (∀ x, P x → Q x) → length (filter P l) = length (filter Q l) →
  filter P l = filter Q l.
Proof.
  intros HPQ. induction l as [|x l IH]; [done|].
  rewrite !filter_cons.
  pose proof (filter_length_mono P Q l (λ x _, HPQ x)) as Hle.
  destruct (decide (P x)) as [HP|HP], (decide (Q x)) as [HQ|HQ]; cbn [length].
  - intros [= Heq]. by rewrite IH.
  - by destruct (HQ (HPQ _ HP)).
  - lia.
  - apply IH.
Qed.

Lemma contributions_ones k (ts : list (nat * nat * Qc)) :
  contributions k ((λ t, (t.1, 1%Qc)) <$> ts)
  = (λ _, 1%Qc) <$> contributions k ts.
Proof.
  unfold contributions. rewrite filter_fmap. cbn [fst].
  by rewrite <- !list_fmap_compose.
Qed.

Lemma zip_fmap_diag {A B C} (f : A → B) (g : A → C) (l : list A) :
  zip (f <$> l) (g <$> l) = (λ x, (f x, g x)) <$> l.
Proof. induction l as [|x l IH]; [done|]. cbn. by f_equal. Qed.

Lemma Qcdiv_0_l (x : Qc) : (0 / x = 0)%Qc.
Proof. unfold Qcdiv. ring. Qed.

Lemma aggregate_Ok n1 n2 ii_diag BBlist BBavg :
  aggregate n1 n2 ii_diag BBlist = Ok BBavg →
  nrows BBavg = n1 ∧ ncols BBavg = n2 ∧
  ∀ r c, r < n1 → c < n2 →
    entries BBavg !! (r, c) =
      if decide ((r, c) ∈ ii_diag) then Some 0%Qc
      else if decide (Qcsum (contributions (r, c) BBlist) = 0%Qc) then None
      else Some (mean_contribution BBlist (r, c)).
Proof.
  unfold aggregate. cbn zeta.
  set (BBsum := from_triples n1 n2 BBlist).
  set (BBcnt := from_triples n1 n2 ((λ t, (t.1, 1%Qc)) <$> BBlist)).
  assert (∀ r c, getv BBsum r c = Qcsum (contributions (r, c) BBlist)) as Hsum.
  { intros r c. apply from_triples_getv. }
  assert (∀ r c, getv BBcnt r c = Qc_of_nat (length (contributions (r, c) BBlist)))
    as Hcnt.
  { intros r c. unfold BBcnt. rewrite from_triples_getv, contributions_ones.
    apply Qcsum_ones. }
  assert (∀ rc : nat * nat, getv BBsum rc.1 rc.2 ≠ 0%Qc → getv BBcnt rc.1 rc.2 ≠ 0%Qc)
    as Hsub.
  { intros [r c]. cbn [fst snd]. rewrite Hsum, Hcnt. intros Hnz.
    apply Qc_of_nat_neq_0. destruct (contributions (r, c) BBlist); [done|]. done. }
  unfold find. rewrite <- !list_fmap_compose.
  rewrite (nonzero_filter BBsum), (nonzero_filter BBcnt).
  change (nrows BBsum) with n1. change (ncols BBsum) with n2.
  change (nrows BBcnt) with n1. change (ncols BBcnt) with n2.
  set (NZs := filter (λ rc, getv BBsum rc.1 rc.2 ≠ 0%Qc) (grid_cm n1 n2)).
  set (NZc := filter (λ rc, getv BBcnt rc.1 rc.2 ≠ 0%Qc) (grid_cm n1 n2)).
  pose proof (filter_length_mono _ _ (grid_cm n1 n2) (λ x _, Hsub x)) as Hle.
  fold NZs NZc in Hle.
  assert (NoDup NZs) as HndS by apply NoDup_filter, NoDup_grid_cm.
  assert (∀ r c, (r, c) ∈ NZs ↔
            r < n1 ∧ c < n2 ∧ Qcsum (contributions (r, c) BBlist) ≠ 0%Qc) as HNZs.
  { intros r c. unfold NZs. rewrite list_elem_of_filter, elem_of_grid_cm.
    cbn [fst snd]. rewrite Hsum. split; [by intros (? & ? & ?) | by intros (? & ? & ?)]. }
  (* the matrix of averages, before the diagonal is overwritten *)
  assert (∀ BBavg0,
    (quot ← broadcast (snd ∘ (λ rc, (rc, getv BBsum rc.1 rc.2)) <$> NZs)
              (snd ∘ (λ rc, (rc, getv BBcnt rc.1 rc.2)) <$> NZc);
     csc_matrix n1 n2 ((λ p, p.1 / p.2)%Qc <$> quot)
       (fst ∘ (λ rc, (rc, getv BBsum rc.1 rc.2)) <$> NZs)) = Ok BBavg0 →
    nrows BBavg0 = n1 ∧ ncols BBavg0 = n2 ∧
    ∀ r c, r < n1 → c < n2 →
      entries BBavg0 !! (r, c) =
        if decide (Qcsum (contributions (r, c) BBlist) = 0%Qc) then None
        else Some (mean_contribution BBlist (r, c))) as Hpre.
  { intros BBavg0. unfold broadcast. rewrite !length_fmap.
    destruct (decide (length NZs = length NZc)) as [Heq|Hneq].
    - (* every contributed coordinate has a nonzero sum *)
      assert (NZs = NZc) as HNZ by (by apply filter_sub_length_eq).
      rewrite <- HNZ. cbn [mbind result_bind].
      rewrite zip_fmap_diag, <- list_fmap_compose.
      unfold csc_matrix. rewrite !length_fmap, decide_True by done.
      intros [= <-]. split_and!; [done..|]. intros r c Hr Hc.
      rewrite zip_fmap_diag.
      destruct (decide (Qcsum (contributions (r, c) BBlist) = 0%Qc)) as [Hz|Hnz].
      + apply eq_None_not_Some. intros [v Hv].
        apply from_triples_lookup_NoDup in Hv.
        2:{ rewrite <- list_fmap_compose. by rewrite list_fmap_id. }
        apply list_elem_of_fmap in Hv as ([r' c'] & [= -> -> _] & Hin).
        apply HNZs in Hin as (_ & _ & ?). done.
      + apply from_triples_lookup_NoDup.
        { rewrite <- list_fmap_compose. by rewrite list_fmap_id. }
        apply list_elem_of_fmap. exists (r, c). split.
        * cbn. unfold mean_contribution. by rewrite Hsum, Hcnt.
        * by apply HNZs.
    - destruct (snd ∘ (λ rc, (rc, getv BBsum rc.1 rc.2)) <$> NZs) as [|x [|x' xs]] eqn:Hxs.
      + (* no nonzero sum at all, a single contributed coordinate *)
        apply fmap_eq_nil in Hxs.
        destruct (snd ∘ (λ rc, (rc, getv BBcnt rc.1 rc.2)) <$> NZc) as [|y [|y' ys]];
          [done| |done].
        cbn [mbind result_bind zip zip_with fmap list_fmap].
        unfold csc_matrix. rewrite Hxs. cbn [fmap list_fmap length].
        rewrite decide_True by done. intros [= <-]. split_and!; [done..|].
        intros r c Hr Hc. cbn [zip zip_with from_triples foldl entries].
        rewrite lookup_empty. rewrite decide_True; [done|].
        destruct (decide (Qcsum (contributions (r, c) BBlist) = 0%Qc)) as [|Hnz];
          [done|].
        assert ((r, c) ∈ NZs) as Hin by (by apply HNZs).
        rewrite Hxs in Hin. by apply not_elem_of_nil in Hin.
      + (* one nonzero sum, several contributed coordinates: the quotient
           has the length of the counts, the coordinates that of the sums *)
        cbn [mbind result_bind]. unfold csc_matrix.
        rewrite !length_fmap, length_zip, length_replicate, !length_fmap, Nat.min_id.
        rewrite decide_False by lia. done.
      + destruct (snd ∘ (λ rc, (rc, getv BBcnt rc.1 rc.2)) <$> NZc) as [|y [|y' ys]] eqn:Hys;
          [done| |done].
        apply (f_equal length) in Hxs, Hys. rewrite length_fmap in Hxs, Hys.
        cbn [length] in Hxs, Hys. lia. }
  destruct (quot ← broadcast _ _; csc_matrix n1 n2 _ _) as [BBavg0|e] eqn:Hrun.
  2:{ intros Hbad. exfalso. revert Hbad.
      unfold mbind, result_bind in Hrun |- *.
      destruct (broadcast _ _); [|done]. by rewrite Hrun. }
  destruct (Hpre BBavg0 eq_refl) as (Hn1 & Hn2 & Hent).
  assert (∀ m : result spmatrix,
    (quot ← broadcast (snd ∘ (λ rc, (rc, getv BBsum rc.1 rc.2)) <$> NZs)
              (snd ∘ (λ rc, (rc, getv BBcnt rc.1 rc.2)) <$> NZc);
     BBavg1 ← csc_matrix n1 n2 ((λ p, p.1 / p.2)%Qc <$> quot)
       (fst ∘ (λ rc, (rc, getv BBsum rc.1 rc.2)) <$> NZs);
     setitems BBavg1 ii_diag [0%Qc]) = setitems BBavg0 ii_diag [0%Qc]) as Hstep.
  { intros _. unfold mbind, result_bind in Hrun |- *.
    destruct (broadcast _ _); [|done]. by rewrite Hrun. }
  rewrite (Hstep (Ok BBavg0)), setitems_scalar. intros [= <-].
  destruct (foldl_setitem_shape 0%Qc BBavg0 ii_diag) as [-> ->].
  split_and!; [done..|]. intros r c Hr Hc.
  rewrite foldl_setitem_lookup. case_decide; [done|]. by apply Hent.
Qed.

Lemma elem_of_diag_indices n r c : (r, c) ∈ diag_indices n ↔ r = c ∧ r < n.
Proof.
  unfold diag_indices. rewrite list_elem_of_fmap. split.
  - intros (i & [= -> ->] & Hi%elem_of_seq). lia.
  - intros [-> Hr]. exists c. split; [done | apply elem_of_seq; lia].
Qed.

Lemma aggregate_perm n1 n2 ii_diag BBlist BBlist' :
  BBlist ≡ₚ BBlist' → aggregate n1 n2 ii_diag BBlist = aggregate n1 n2 ii_diag BBlist'.
Proof.
  intros Hp. unfold aggregate. cbn zeta.
  rewrite (from_triples_perm n1 n2 BBlist BBlist' Hp).
  rewrite (from_triples_perm n1 n2 ((λ t, (t.1, 1%Qc)) <$> BBlist)
             ((λ t, (t.1, 1%Qc)) <$> BBlist')) by (by rewrite Hp).
  done.
Qed.

Section aggregate_claims.
Context `{NumLib}.

Lemma solve_blocks_acc rr XtX blockList acc acc' BBlist :
  acc ≡ₚ acc' →
  foldM (λ BBlist nn, ts ← solve_block rr XtX nn; Ok (BBlist ++ ts)) acc blockList
    = Ok BBlist →
  ∃ BBlist',
    foldM (λ BBlist nn, ts ← solve_block rr XtX nn; Ok (BBlist ++ ts)) acc' blockList
      = Ok BBlist' ∧ BBlist ≡ₚ BBlist'.
Proof.
  revert acc acc'. induction blockList as [|nn l IH]; intros acc acc' Hp.
  { intros [= <-]. by exists acc'. }
  cbn [foldM]. destruct (solve_block rr XtX nn) as [ts|e]; cbn [mbind result_bind]; [|done].
  apply IH. by rewrite Hp.
Qed.

Lemma solve_blocks_perm rr XtX blockList blockList' acc acc' BBlist :
  blockList ≡ₚ blockList' → acc ≡ₚ acc' →
  foldM (λ BBlist nn, ts ← solve_block rr XtX nn; Ok (BBlist ++ ts)) acc blockList
    = Ok BBlist →
  ∃ BBlist',
    foldM (λ BBlist nn, ts ← solve_block rr XtX nn; Ok (BBlist ++ ts)) acc' blockList'
      = Ok BBlist' ∧ BBlist ≡ₚ BBlist'.
Proof.
  intros Hp. revert acc acc' BBlist.
  induction Hp as [|nn l l' _ IH|n1 n2 l|l1 l2 l3 _ IH1 _ IH2]; intros acc acc' BBlist Hacc.
  - intros [= <-]. by exists acc'.
  - cbn [foldM].
    destruct (solve_block rr XtX nn) as [ts|e]; cbn [mbind result_bind]; [|done].
    apply IH. by rewrite Hacc.
  - cbn [foldM].
    destruct (solve_block rr XtX n1) as [t1|e]; cbn [mbind result_bind];
      destruct (solve_block rr XtX n2) as [t2|e']; cbn [mbind result_bind]; try done.
    apply solve_blocks_acc. rewrite Hacc, <- !app_assoc.
    by rewrite (Permutation_app_comm t2 t1).
  - intros Hrun. destruct (IH1 acc acc BBlist (reflexivity _) Hrun) as (L2 & Hrun2 & Hp2).
    destruct (IH2 acc acc' L2 Hacc Hrun2) as (L3 & Hrun3 & Hp3).
    exists L3. split; [done | by etrans].
Qed.

(** C6 (as amended).  At every coordinate off the diagonal to which one or
    more blocks contribute, the aggregated matrix holds the arithmetic mean
    of the contributions; the diagonal is overwritten with 0 whatever was
    contributed; and the aggregated matrix does not depend on the order of
    the triples, nor on the order in which the blocks are solved. *)
Theorem aggregate_is_mean_off_diagonal n1 n2 n BBlist BBavg :
  aggregate n1 n2 (diag_indices n) BBlist = Ok BBavg →
  (∀ r c, r < n1 → c < n2 → r ≠ c → contributions (r, c) BBlist ≠ [] →
     getv BBavg r c = mean_contribution BBlist (r, c)) ∧
  (∀ i, i < n → i < n1 → i < n2 → entries BBavg !! (i, i) = Some 0%Qc) ∧
  (∀ BBlist', BBlist ≡ₚ BBlist' →
     aggregate n1 n2 (diag_indices n) BBlist' = Ok BBavg) ∧
  (∀ rr XtX blockList blockList',
     blockList ≡ₚ blockList' → solve_blocks rr XtX blockList = Ok BBlist →
     ∃ BBlist', solve_blocks rr XtX blockList' = Ok BBlist' ∧
       aggregate n1 n2 (diag_indices n) BBlist' = Ok BBavg).
Proof.
  intros Hrun. destruct (aggregate_Ok _ _ _ _ _ Hrun) as (_ & _ & Hent).
  split_and!.
  - intros r c Hr Hc Hrc _. unfold getv. rewrite Hent by done.
    rewrite decide_False by (rewrite elem_of_diag_indices; by intros [? _]).
    case_decide as Hz; [|done]. cbn [default].
    unfold mean_contribution. by rewrite Hz, Qcdiv_0_l.
  - intros i Hi H1 H2. rewrite Hent by done.
    rewrite decide_True; [done|]. by apply elem_of_diag_indices.
  - intros BBlist' Hp. by rewrite <- (aggregate_perm _ _ _ _ _ Hp).
  - intros rr XtX blockList blockList' Hp Hsolve.
    destruct (solve_blocks_perm rr XtX _ _ [] [] _ Hp (reflexivity _) Hsolve)
      as (BBlist' & Hsolve' & Hp').
    exists BBlist'. split; [done|]. by rewrite <- (aggregate_perm _ _ _ _ _ Hp').
Qed.

End aggregate_claims.

Lemma aggregate_is_mean_off_diagonal_witness :
  ∃ BBlist BBavg,
    solve_blocks 1 A_ex [[2; 3; 1]; [0; 1]] = Ok BBlist ∧
    aggregate 4 4 (diag_indices 4) BBlist = Ok BBavg ∧
    (∀ r c, r < 4 → c < 4 → r ≠ c → contributions (r, c) BBlist ≠ [] →
       getv BBavg r c = mean_contribution BBlist (r, c)) ∧
    (∀ i, i < 4 → i < 4 → i < 4 → entries BBavg !! (i, i) = Some 0%Qc) ∧
    (∀ BBlist', BBlist ≡ₚ BBlist' →
       aggregate 4 4 (diag_indices 4) BBlist' = Ok BBavg) ∧
    (∀ rr XtX blockList blockList',
       blockList ≡ₚ blockList' → solve_blocks rr XtX blockList = Ok BBlist →
       ∃ BBlist', solve_blocks rr XtX blockList' = Ok BBlist' ∧
         aggregate 4 4 (diag_indices 4) BBlist' = Ok BBavg).
Proof.
  eexists _, _.
  split; [vm_compute; reflexivity|].
  split; [vm_compute; reflexivity|].
  eapply (aggregate_is_mean_off_diagonal 4 4 4).
  vm_compute; reflexivity.
Defined.

(** C6, counterexample.  The two blocks of the chain both contribute -1 to
    the coordinate (1, 1); the mean is -1, the aggregated matrix holds 0
    there. *)
Lemma aggregate_diagonal_is_not_mean :
  ∃ BBlist BBavg,
    solve_blocks 1 A_ex [[2; 3; 1]; [0; 1]] = Ok BBlist ∧
    aggregate 4 4 (diag_indices 4) BBlist = Ok BBavg ∧
    this <$> contributions (1, 1) BBlist = [(-1)%Q; (-1)%Q] ∧
    ¬ (∀ r c, r < 4 → c < 4 → contributions (r, c) BBlist ≠ [] →
         getv BBavg r c = mean_contribution BBlist (r, c)).
Proof.
  eexists _, _.
  split; [vm_compute; reflexivity|].
  split; [vm_compute; reflexivity|].
  split; [vm_compute; reflexivity|].
  intros Hall. specialize (Hall 1 1 ltac:(lia) ltac:(lia)).
  apply (f_equal this) in Hall; [vm_compute in Hall; discriminate|].
  intros Hnil. apply (f_equal length) in Hnil. vm_compute in Hnil. discriminate.
Qed.

(** ** The weight matrix *)

Lemma force_pattern_Ok BBavg AA BB :
  force_pattern BBavg AA = Ok BB →
  nrows BB = nrows BBavg ∧ ncols BB = ncols BBavg ∧
  (∀ r c, (r, c) ∈ nonzero AA → r < nrows BBavg ∧ c < ncols BBavg) ∧
  ∀ r c v, entries BB !! (r, c) = Some v ↔
           (r, c) ∈ nonzero AA ∧ v = getv BBavg r c.
Proof.
  unfold force_pattern. cbn zeta. case_decide as Hin; [|done]. intros [= <-].
  rewrite Forall_forall in Hin. split_and!; [done..| |].
  - intros r c Hrc. apply (Hin (r, c) Hrc).
  - intros r c v. rewrite from_triples_lookup_NoDup.
    2:{ rewrite <- list_fmap_compose, list_fmap_id. apply NoDup_nonzero. }
    rewrite list_elem_of_fmap. split.
    + intros ([r' c'] & [= -> -> ->] & Hrc). done.
    + intros [Hrc ->]. by exists (r, c).
Qed.

Lemma scale_entries_lookup f B rc w :
  entries (scale_entries f B) !! rc = Some w ↔
  ∃ v, entries B !! rc = Some v ∧ w = (f rc * v)%Qc ∧ w ≠ 0%Qc.
Proof.
  unfold scale_entries. rewrite eliminate_zeros_lookup. cbn [entries].
  rewrite map_lookup_imap. destruct (entries B !! rc) as [v|]; cbn.
  - split; [intros [[= <-] ?]; eauto | intros (v' & [= <-] & -> & ?); done].
  - split; [by intros [? _] | by intros (? & ? & _)].
Qed.

Lemma scale_entries_getv f B r c :
  getv (scale_entries f B) r c = (f (r, c) * getv B r c)%Qc.
Proof.
  unfold getv at 1.
  destruct (entries (scale_entries f B) !! (r, c)) as [w|] eqn:Hw; cbn [default].
  - apply scale_entries_lookup in Hw as (v & Hv & -> & _). unfold getv. by rewrite Hv.
  - unfold getv. destruct (entries B !! (r, c)) as [v|] eqn:Hv; cbn [default].
    + destruct (decide (f (r, c) * v = 0)%Qc) as [Hz|Hnz]; [done|].
      assert (entries (scale_entries f B) !! (r, c) = Some (f (r, c) * v)%Qc) as Hs.
      { apply scale_entries_lookup. eauto. }
      congruence.
    + by rewrite Qcmult_0_r.
Qed.

Lemma rescale_back_Ok scaling rescaling BB BB' :
  rescale_back scaling rescaling BB = Ok BB' →
  (∀ r c, getv BB' r c = (rescaling !!! c * (scaling !!! r * getv BB r c))%Qc) ∧
  (∀ r c, is_Some (entries BB' !! (r, c)) → is_Some (entries BB !! (r, c))).
Proof.
  unfold rescale_back. case_decide; [|done]. intros [= <-]. split.
  - intros r c. by rewrite !scale_entries_getv.
  - intros r c [w Hw]. apply scale_entries_lookup in Hw as (v & Hv & _).
    apply scale_entries_lookup in Hv as (v' & Hv' & _). eauto.
Qed.

Section weight_claims.
Context `{NumLib}.

(** What [sparse_parameter_estimation] returns, on the matrices its
    arguments denote. *)
Lemma sparse_parameter_estimation_on_Ok n rr XtX AA XtXdiag BB :
  sparse_parameter_estimation_on (diag_indices n) rr XtX AA XtXdiag = Ok BB →
  nrows XtX ≤ n →
  ∃ sortedList todoIndicators blockList BBlist,
    sortedList_of AA XtXdiag = Ok sortedList ∧
    partition_loop rr AA sortedList = Ok (todoIndicators, blockList) ∧
    solve_blocks rr XtX blockList = Ok BBlist ∧
    (∀ i, getv BB i i = 0%Qc) ∧
    (∀ r c, is_Some (entries BB !! (r, c)) ↔ (r, c) ∈ nonzero AA) ∧
    (∀ r c, (r, c) ∈ nonzero AA → contributions (r, c) BBlist = [] →
       entries BB !! (r, c) = Some 0%Qc) ∧
    (∀ r c, (r, c) ∈ nonzero AA → r ≠ c →
       entries BB !! (r, c) = Some (mean_contribution BBlist (r, c))).
Proof.
  unfold sparse_parameter_estimation_on. intros Hrun Hn.
  apply result_bind_Ok in Hrun as (sortedList & Hsorted & Hrun).
  apply result_bind_Ok in Hrun as ([todo blockList] & Hloop & Hrun).
  cbn zeta in Hrun. cbn [snd] in Hrun.
  apply result_bind_Ok in Hrun as (BBlist & Hsolve & Hrun).
  apply result_bind_Ok in Hrun as (BBavg & Hagg & Hrun).
  apply result_bind_Ok in Hrun as (BB' & Hforce & Hrun).
  apply result_bind_Ok in Hrun as (sparsity & _ & [= ->]).
  exists sortedList, todo, blockList, BBlist. split_and!; [done..| | | |].
  all: destruct (aggregate_Ok _ _ _ _ _ Hagg) as (Hn1 & Hn2 & Hent).
  all: destruct (force_pattern_Ok _ _ _ Hforce) as (_ & _ & Hshape & HBB).
  all: rewrite Hn1, Hn2 in Hshape.
  - intros i. unfold getv.
    destruct (entries BB !! (i, i)) as [v|] eqn:Hv; [|done]. cbn [default].
    apply HBB in Hv as [Hin ->]. destruct (Hshape _ _ Hin) as [Hr Hc].
    unfold getv. rewrite Hent by done.
    rewrite decide_True; [done|]. apply elem_of_diag_indices. lia.
  - intros r c. split.
    + intros [v Hv]. by apply HBB in Hv as [? _].
    + intros Hin. eexists. by apply HBB.
  - intros r c Hin Hnil. apply HBB. split; [done|].
    destruct (Hshape _ _ Hin) as [Hr Hc]. unfold getv. rewrite Hent by done.
    case_decide; [done|]. rewrite Hnil. cbn [Qcsum foldr].
    by rewrite decide_True.
  - intros r c Hin Hrc. apply HBB. split; [done|].
    destruct (Hshape _ _ Hin) as [Hr Hc]. unfold getv. rewrite Hent by done.
    rewrite decide_False by (rewrite elem_of_diag_indices; by intros [? _]).
    case_decide as Hz; [|done]. cbn [default].
    unfold mean_contribution. by rewrite Hz, Qcdiv_0_l.
Qed.

(** C3.  The weight matrix the training cell produces: before and after
    the final re-scaling every diagonal value is 0 and nothing is stored,
    let alone nonzero, outside the nonzero coordinates of the mask [AA];
    before the re-scaling the stored coordinates are exactly those of the
    mask, and a coordinate of the mask to which no block contributed holds
    0 (stored before the re-scaling, as a value after it).  On the diagonal
    the two factors of the re-scaling cancel. *)
Theorem weight_matrix_diagonal_and_support
    g scaling rescaling rr maxInColumn L2reg h X AtA BB' h' :
  g_XtX g ≠ g_AtA g →
  g_ii_diag g = diag_indices (length (g_XtXdiag g)) →
  nrows X ≤ length (g_XtXdiag g) →
  h !! g_XtX g = Some X → h !! g_AtA g = Some AtA →
  train g scaling rescaling rr maxInColumn L2reg h = (Ok BB', h') →
  ∃ XtX' AA BB sortedList todoIndicators blockList BBlist,
    h' !! g_XtX g = Some XtX' ∧ h' !! g_AtA g = Some AA ∧
    sparse_solution g rr maxInColumn L2reg h = (Ok BB, h') ∧
    rescale_back scaling rescaling BB = Ok BB' ∧
    sortedList_of AA ((λ d, d + L2reg)%Qc <$> g_XtXdiag g) = Ok sortedList ∧
    partition_loop rr AA sortedList = Ok (todoIndicators, blockList) ∧
    solve_blocks rr XtX' blockList = Ok BBlist ∧
    (* before the re-scaling *)
    (∀ i, getv BB i i = 0%Qc) ∧
    (∀ r c, is_Some (entries BB !! (r, c)) ↔ (r, c) ∈ nonzero AA) ∧
    (∀ r c, (r, c) ∈ nonzero AA → contributions (r, c) BBlist = [] →
       entries BB !! (r, c) = Some 0%Qc) ∧
    (* after the re-scaling *)
    (∀ i, getv BB' i i = 0%Qc) ∧
    (∀ r c, is_Some (entries BB' !! (r, c)) → (r, c) ∈ nonzero AA) ∧
    (∀ r c, getv BB' r c ≠ 0%Qc → (r, c) ∈ nonzero AA) ∧
    (∀ r c, (r, c) ∈ nonzero AA → contributions (r, c) BBlist = [] →
       getv BB' r c = 0%Qc) ∧
    (scaling = (λ x, 1 / x)%Qc <$> rescaling →
     ∀ i x, rescaling !! i = Some x → x ≠ 0%Qc →
       (scaling !!! i * rescaling !!! i = 1)%Qc).
Proof.
  intros Hne Hdiag Hlen HX HA. unfold train.
  unfold mbind at 1, M_bind.
  destruct (sparse_solution g rr maxInColumn L2reg h) as [[BB|e] h1] eqn:Hsol; [|done].
  unfold lift. intros [= Hresc <-].
  destruct (sparse_solution_run g rr maxInColumn L2reg h X AtA BB h1
              Hne Hdiag HX HA Hsol)
    as (X1 & X2 & AA & _ & _ & Hn2 & _ & _ & _ & Hspe & ->).
  cbn zeta in Hspe. rewrite Hdiag in Hspe.
  destruct (sparse_parameter_estimation_on_Ok _ _ _ _ _ _ Hspe ltac:(lia))
    as (sortedList & todo & blockList & BBlist & Hsorted & Hloop & Hsolve
        & Hd & Hsupp & Hzero & _).
  destruct (rescale_back_Ok _ _ _ _ Hresc) as [Hval Hstored].
  exists X2, AA, BB, sortedList, todo, blockList, BBlist.
  split_and!; try done.
  - apply lookup_insert_eq.
  - rewrite lookup_insert_ne by done. apply lookup_insert_eq.
  - intros i. by rewrite Hval, Hd, !Qcmult_0_r.
  - intros r c Hs. by apply Hsupp, Hstored.
  - intros r c Hnz. apply Hsupp. rewrite Hval in Hnz.
    unfold getv in Hnz. destruct (entries BB !! (r, c)); [eauto|].
    exfalso. apply Hnz. cbn [default]. by rewrite !Qcmult_0_r.
  - intros r c Hin Hnil. rewrite Hval. unfold getv.
    rewrite (Hzero r c Hin Hnil). cbn [default]. by rewrite !Qcmult_0_r.
  - intros -> i x Hx Hnz.
    rewrite lookup_total_fmap_lt by (by eapply lookup_lt_Some).
    rewrite (list_lookup_total_correct _ _ _ Hx). by field.
Qed.

End weight_claims.

Lemma weight_matrix_diagonal_and_support_witness :
  ∃ BB' h',
    train g_ex [1; 1; 1; 1]%Qc [1; 1; 1; 1]%Qc 1 2 1 h_ex = (Ok BB', h') ∧
    ∃ XtX' AA BB sortedList todoIndicators blockList BBlist,
      h' !! 0 = Some XtX' ∧ h' !! 1 = Some AA ∧
      sparse_solution g_ex 1 2 1 h_ex = (Ok BB, h') ∧
      rescale_back [1; 1; 1; 1]%Qc [1; 1; 1; 1]%Qc BB = Ok BB' ∧
      sortedList_of AA ((λ d, d + 1)%Qc <$> diagonal A_ex) = Ok sortedList ∧
      partition_loop 1 AA sortedList = Ok (todoIndicators, blockList) ∧
      solve_blocks 1 XtX' blockList = Ok BBlist ∧
      (∀ i, getv BB i i = 0%Qc) ∧
      (∀ r c, is_Some (entries BB !! (r, c)) ↔ (r, c) ∈ nonzero AA) ∧
      (∀ r c, (r, c) ∈ nonzero AA → contributions (r, c) BBlist = [] →
         entries BB !! (r, c) = Some 0%Qc) ∧
      (∀ i, getv BB' i i = 0%Qc) ∧
      (∀ r c, is_Some (entries BB' !! (r, c)) → (r, c) ∈ nonzero AA) ∧
      (∀ r c, getv BB' r c ≠ 0%Qc → (r, c) ∈ nonzero AA) ∧
      (∀ r c, (r, c) ∈ nonzero AA → contributions (r, c) BBlist = [] →
         getv BB' r c = 0%Qc) ∧
      ([1; 1; 1; 1]%Qc = (λ x, 1 / x)%Qc <$> [1; 1; 1; 1]%Qc →
       ∀ i x, [1; 1; 1; 1]%Qc !! i = Some x → x ≠ 0%Qc →
         ([1; 1; 1; 1]%Qc !!! i * [1; 1; 1; 1]%Qc !!! i = 1)%Qc).
Proof.
  eexists _, _. split; [vm_compute; reflexivity|].
  eapply (weight_matrix_diagonal_and_support g_ex _ _ 1 2 1 h_ex A_ex A_ex).
  - done.
  - done.
  - vm_compute; lia.
  - done.
  - done.
  - vm_compute; reflexivity.
Defined.

(** ** Hyperparameters outside their intended range *)

Lemma Qc_ceil_nonpos (q : Qc) : (q ≤ 0)%Qc → (Qc_ceil q ≤ 0)%Z.
Proof.
  intros Hq. unfold Qc_ceil. change 0%Z with (Qceiling (inject_Z 0)).
  apply Qceiling_resp_le. exact Hq.
Qed.

Lemma Qc_ceil_ge_nat (q : Qc) (n : nat) :
  (Qc_of_nat n ≤ q)%Qc → (Z.of_nat n ≤ Qc_ceil q)%Z.
Proof.
  intros Hq. unfold Qc_ceil. rewrite <- (Qceiling_Z (Z.of_nat n)).
  apply Qceiling_resp_le. exact Hq.
Qed.

Lemma Qc_of_nat_nonneg n : (0 ≤ Qc_of_nat n)%Qc.
Proof.
  unfold Qcle. change (this 0%Qc) with (inject_Z 0).
  change (this (Qc_of_nat n)) with (inject_Z (Z.of_nat n)).
  rewrite <- Zle_Qle. lia.
Qed.

Lemma float_of_nat_nonneg n : (0 ≤ float_of_nat n)%Qc.
Proof. apply b64_round_nonneg, Qc_of_nat_nonneg. Qed.

Lemma b64_round_1 : b64_round 1 = 1%Qc.
Proof. rewrite <- Z2Qc_inj_1. by apply b64_round_Z. Qed.

(** The binary64 product of a length and a float: its sign and its
    position with respect to the length do not depend on the rounding. *)
Lemma float_mul_nonpos (n : nat) (x : Qc) :
  (x ≤ 0)%Qc → (float_mul (float_of_nat n) (b64_round x) ≤ 0)%Qc.
Proof.
  intros Hx. apply b64_round_nonpos.
  rewrite <- (Qcmult_0_r (float_of_nat n)).
  apply Qcmult_le_mono_nonneg_l; [apply float_of_nat_nonneg|].
  by apply b64_round_nonpos.
Qed.

Lemma float_mul_nonneg (n : nat) (x : Qc) :
  (0 ≤ x)%Qc → (0 ≤ float_mul (float_of_nat n) (b64_round x))%Qc.
Proof.
  intros Hx. apply b64_round_nonneg.
  rewrite <- (Qcmult_0_r (float_of_nat n)).
  apply Qcmult_le_mono_nonneg_l; [apply float_of_nat_nonneg|].
  by apply b64_round_nonneg.
Qed.

Lemma float_mul_ge (n : nat) (x : Qc) :
  float_exact n → (1 ≤ x)%Qc →
  (Qc_of_nat n ≤ float_mul (float_of_nat n) (b64_round x))%Qc.
Proof.
  intros Hn Hx. pose proof (b64_round_nat n Hn) as Hexact.
  rewrite Hexact. unfold float_of_nat in Hexact.
  transitivity (b64_round (Qc_of_nat n)); [by rewrite Hexact|].
  apply b64_round_mono.
  transitivity (Qc_of_nat n * 1)%Qc; [by rewrite Qcmult_1_r|].
  apply Qcmult_le_mono_nonneg_l; [apply Qc_of_nat_nonneg|].
  rewrite <- b64_round_1. by apply b64_round_mono.
Qed.

Lemma float_mul_le (n : nat) (x : Qc) :
  float_exact n → (x ≤ 1)%Qc →
  (float_mul (float_of_nat n) (b64_round x) ≤ Qc_of_nat n)%Qc.
Proof.
  intros Hn Hx. pose proof (b64_round_nat n Hn) as Hexact.
  rewrite Hexact. unfold float_of_nat in Hexact.
  transitivity (b64_round (Qc_of_nat n)); [|by rewrite Hexact].
  apply b64_round_mono.
  transitivity (Qc_of_nat n * 1)%Qc; [|by rewrite Qcmult_1_r].
  apply Qcmult_le_mono_nonneg_l; [apply Qc_of_nat_nonneg|].
  rewrite <- b64_round_1. by apply b64_round_mono.
Qed.

(** The rounding decides the counts: [np.ceil(100 * 0.55)] is 56 (the
    exact product is 55), [int(0.29 * 100)] is 28 (the exact product is 29),
    and [int(0.7 * 10)] is 7 (the float [0.7] is below 7/10). *)
Lemma counts_follow_binary64 :
  dd_count (Q2Qc (55 # 100)) 100 = 56 ∧
  Qc_int (float_mul (b64_round (Q2Qc (29 # 100))) (float_of_nat 100)) = 28%Z ∧
  Qc_int (float_mul (b64_round (Q2Qc (7 # 10))) (float_of_nat 10)) = 7%Z ∧
  (b64_round (Q2Qc (7 # 10)) < Q2Qc (7 # 10))%Qc.
Proof. split_and!; by vm_compute. Qed.

(** From [2 ** 53] on a length is not always a binary64 number: [float]
    rounds [2 ** 53 + 1] down and [2 ** 53 + 3] up.  So the statements that
    compare a count with a length are for the lengths below [2 ** 53]. *)
Lemma float_rounds_large_lengths :
  b64_round (Qc_of_Z (2 ^ 53 + 1)) = Qc_of_Z (2 ^ 53) ∧
  b64_round (Qc_of_Z (2 ^ 53 + 3)) = Qc_of_Z (2 ^ 53 + 4).
Proof. split; apply Qc_is_canon; by vm_compute. Qed.

Lemma retired_nonpos (rr : Qc) nn : (rr ≤ 0)%Qc → retired rr nn = take 1 nn.
Proof.
  intros Hrr. unfold retired, dd_count. f_equal.
  pose proof (Qc_ceil_nonpos _ (float_mul_nonpos (length nn) rr Hrr)). lia.
Qed.

Lemma retired_ge_1 (rr : Qc) nn :
  (1 ≤ rr)%Qc → float_exact (length nn) → retired rr nn = nn.
Proof.
  intros Hrr Hlen. unfold retired, dd_count. apply take_ge.
  pose proof (Qc_ceil_ge_nat _ _ (float_mul_ge (length nn) rr Hlen Hrr)). lia.
Qed.

Lemma setitems_shape M idx vals M' :
  setitems M idx vals = Ok M' → nrows M' = nrows M ∧ ncols M' = ncols M.
Proof.
  assert (∀ (l : list (nat * nat * Qc)) M0,
    nrows (foldl (λ M' iv, setitem M' iv.1.1 iv.1.2 iv.2) M0 l) = nrows M0 ∧
    ncols (foldl (λ M' iv, setitem M' iv.1.1 iv.1.2 iv.2) M0 l) = ncols M0) as Hz.
  { induction l as [|x l IH]; intros M0; [done|].
    cbn [foldl]. by destruct (IH (setitem M0 x.1.1 x.1.2 x.2)) as [-> ->]. }
  unfold setitems. case_decide.
  - intros [= <-]. apply Hz.
  - destruct vals as [|v [|]]; try done. intros [= <-]. apply foldl_setitem_shape.
Qed.

(** [X[ii_diag] = vals] keeps the shape of every object. *)
Lemma set_diagonal_rows X ii_diag vals h h1 l A1 :
  set_diagonal X ii_diag vals h = (Ok (), h1) → h1 !! l = Some A1 →
  ∃ A, h !! l = Some A ∧ nrows A = nrows A1.
Proof.
  unfold set_diagonal. unfold mbind at 1, M_bind. unfold deref at 1.
  destruct (h !! X) as [A|] eqn:HX; [|done].
  unfold mbind at 1, M_bind. unfold lift at 1.
  destruct (setitems A ii_diag vals) as [A'|e] eqn:Hset; [|done].
  unfold store. intros [= <-]. apply setitems_shape in Hset as [Hn _].
  destruct (decide (l = X)) as [->|Hne].
  - rewrite lookup_insert_eq. intros [= <-]. eauto.
  - rewrite lookup_insert_ne by done. eauto.
Qed.

Section validation_facts.
Context `{NumLib}.

Lemma tile_nz_above bs thd ii jj T :
  Forall (λ t, thd < Qcabs t.2)%Qc (tile_nz bs thd ii jj T).
Proof.
  apply Forall_forall. intros t Ht. unfold tile_nz in Ht.
  apply list_elem_of_fmap in Ht as ([a b] & -> & Hab). cbn [fst snd].
  unfold np_where2 in Hab. apply list_elem_of_bind in Hab as (a' & Hab & _).
  apply list_elem_of_fmap in Hab as (b' & [= -> ->] & Hb).
  by apply list_elem_of_filter in Hb as [? _].
Qed.

(** Whatever the first filter lets through is above [thd4mem]. *)
Lemma block_loop_above X bs thd blocks ts :
  block_loop X bs thd blocks = Ok (Some ts) →
  Forall (λ t, thd < Qcabs t.2)%Qc ts.
Proof.
  destruct (decide (ncols X = 1)) as [HN|HN].
  { rewrite block_loop_one_item by done. by case_decide. }
  rewrite block_loop_Ok by done. case_decide; [done|]. intros [= <-].
  unfold all_tiles. apply Forall_bind, Forall_forall. intros ii _.
  apply Forall_bind, Forall_forall. intros jj _. apply tile_nz_above.
Qed.

Lemma filter_XtX_thd4comp_below X bs thd4mem thd4comp :
  (thd4comp ≤ thd4mem)%Qc →
  filter_XtX X bs thd4mem thd4comp = filter_XtX X bs thd4mem thd4mem ∧
  ∀ XtX rescaling XtXdiag AtA,
    filter_XtX X bs thd4mem thd4comp = Ok (XtX, rescaling, XtXdiag, AtA) →
    AtA = XtX.
Proof.
  intros Hle. unfold filter_XtX. cbn zeta.
  destruct (decide (bs = 0%Z)); [done|]. cbn [mbind result_bind].
  destruct (block_loop X bs thd4mem _) as [[ts|]|e] eqn:Hloop;
    cbn [mbind result_bind]; [|done..].
  apply block_loop_above in Hloop.
  assert (∀ t', (t' ≤ thd4mem)%Qc →
            filter (λ t, t' ≤ Qcabs t.2)%Qc ts = ts) as Hall.
  { intros t' Ht'. apply filter_all. eapply Forall_impl; [exact Hloop|].
    intros t Ht. cbn beta in *. eapply Qcle_trans; [exact Ht'|].
    by apply Qclt_le_weak. }
  rewrite (Hall thd4comp Hle), (Hall thd4mem (Qcle_refl _)). split; [done|].
  intros XtX rescaling XtXdiag AtA. case_decide; [done|]. by intros [= <- _ _ <-].
Qed.

Lemma length_block_of AA ii : length (block_of AA ii) ≤ nrows AA.
Proof.
  unfold block_of, take_idx. cbn zeta.
  rewrite length_fmap, length_reverse, np_argsort_perm, length_seq, !length_fmap.
  unfold nonzero_rows. etrans; [apply length_filter|]. by rewrite length_seq.
Qed.

Lemma partition_steps_blocks rr AA sortedList st st' :
  foldM (partition_step rr AA) st sortedList = Ok st' →
  Forall (λ nn, length nn ≤ nrows AA) st.2 →
  Forall (λ nn, length nn ≤ nrows AA) st'.2.
Proof.
  revert st. induction sortedList as [|ii sl IH]; intros st.
  - by intros [= <-].
  - cbn [foldM]. intros (st1 & Hstep & Hrest)%result_bind_Ok Hst.
    apply (IH _ Hrest). destruct st as [todo bl]. unfold partition_step in Hstep.
    destruct (todo !! ii) as [t|]; [|done].
    case_decide.
    + apply result_bind_Ok in Hstep as (todo' & _ & [= <-]).
      cbn [snd] in *. apply Forall_app. split; [done|].
      apply Forall_singleton, length_block_of.
    + by injection Hstep as <-.
Qed.

(** The parameter [rr] enters only through the retired prefix of a block,
    and no block is longer than the mask has rows. *)
Lemma sparse_parameter_estimation_on_retired ii_diag rr rr' XtX AA XtXdiag :
  (∀ nn, length nn ≤ nrows AA → retired rr nn = retired rr' nn) →
  sparse_parameter_estimation_on ii_diag rr XtX AA XtXdiag
  = sparse_parameter_estimation_on ii_diag rr' XtX AA XtXdiag.
Proof.
  intros Hret. unfold sparse_parameter_estimation_on.
  destruct (sortedList_of AA XtXdiag) as [sortedList|e]; [|done].
  cbn [mbind result_bind].
  assert (partition_loop rr AA sortedList = partition_loop rr' AA sortedList) as ->.
  { unfold partition_loop. apply foldM_ext. intros [todo blocks] ii _.
    unfold partition_step. destruct (todo !! ii) as [t|]; [|done].
    case_decide; [|done]. cbn zeta.
    rewrite !retired_unfold.
    by rewrite Hret by apply length_block_of. }
  destruct (partition_loop rr' AA sortedList) as [st|e] eqn:Hloop; [|done].
  cbn [mbind result_bind].
  assert (solve_blocks rr XtX st.2 = solve_blocks rr' XtX st.2) as ->; [|done].
  unfold solve_blocks. apply foldM_ext. intros acc nn Hnn.
  unfold solve_block. rewrite Hret; [done|].
  apply partition_steps_blocks in Hloop; [|by constructor].
  rewrite Forall_forall in Hloop. by apply Hloop.
Qed.

Lemma calculate_sparsity_pattern_rows_kept l K h l' h' l0 A' :
  calculate_sparsity_pattern l K h = (Ok l', h') → h' !! l0 = Some A' →
  l' = l ∧ ∃ A, h !! l0 = Some A ∧ nrows A = nrows A'.
Proof.
  intros Hcsp Hl0. destruct (h !! l) as [A|] eqn:Hl.
  - destruct (calculate_sparsity_pattern_spec l K h A Hl) as [_ Hspec].
    destruct (Hspec l' h' Hcsp) as (AA & -> & -> & Hn & _). split; [done|].
    destruct (decide (l0 = l)) as [->|Hne].
    + rewrite lookup_insert_eq in Hl0. injection Hl0 as <-. eauto.
    + rewrite lookup_insert_ne in Hl0 by done. eauto.
  - unfold calculate_sparsity_pattern in Hcsp. cbn zeta in Hcsp.
    unfold mbind at 1, M_bind in Hcsp. unfold deref at 1 in Hcsp.
    by rewrite Hl in Hcsp.
Qed.

Lemma train_retired g scaling rescaling rr rr' maxInColumn L2reg h :
  (∀ A nn, h !! g_AtA g = Some A → length nn ≤ nrows A →
     retired rr nn = retired rr' nn) →
  train g scaling rescaling rr maxInColumn L2reg h
  = train g scaling rescaling rr' maxInColumn L2reg h.
Proof.
  intros Hret. unfold train, sparse_solution, sparse_parameter_estimation.
  cbn zeta. unfold mbind, M_bind.
  destruct (set_diagonal _ _ _ h) as [[[]|e] h1] eqn:Hs1; [|done].
  destruct (calculate_sparsity_pattern _ _ h1) as [[AA|e] h2] eqn:Hcsp; [|done].
  destruct (set_diagonal _ _ _ h2) as [[[]|e] h3] eqn:Hs2; [|done].
  unfold deref at 1 3. destruct (h3 !! g_XtX g) as [X|]; [|done].
  unfold deref. destruct (h3 !! AA) as [A|] eqn:HA; [|done].
  unfold lift. rewrite (sparse_parameter_estimation_on_retired _ rr rr'); [done|].
  intros nn Hnn.
  destruct (set_diagonal_rows _ _ _ _ _ _ _ Hs2 HA) as (A2 & HA2 & Hn2).
  destruct (calculate_sparsity_pattern_rows_kept _ _ _ _ _ _ _ Hcsp HA2)
    as (-> & A1 & HA1 & Hn1).
  destruct (set_diagonal_rows _ _ _ _ _ _ _ Hs1 HA1) as (A0 & HA0 & Hn0).
  apply (Hret A0); [done|]. lia.
Qed.


End validation_facts.



(** ** [filter_XtX]: the block size, symmetry, degenerate inputs *)

Section covariance_more.
Context `{NumLib}.

Lemma all_tiles_perm X (bs bs' : Z) thd :
  (0 < bs)%Z → (0 < bs')%Z →
  all_tiles X bs thd (Z.to_nat (Z.of_nat (ncols X) `div` bs + 1))
  ≡ₚ all_tiles X bs' thd (Z.to_nat (Z.of_nat (ncols X) `div` bs' + 1)).
Proof.
  intros Hbs Hbs'. apply NoDup_Permutation.
  - eapply NoDup_fmap_1, NoDup_all_tiles; done.
  - eapply NoDup_fmap_1, NoDup_all_tiles; done.
  - intros [k v]. by rewrite !elem_of_all_tiles.
Qed.

Lemma blocks_pos (N : nat) (bs : Z) :
  (0 < bs)%Z → Z.to_nat (Z.of_nat N `div` bs + 1) ≠ 0.
Proof. intros Hbs. pose proof (Z.div_pos (Z.of_nat N) bs). lia. Qed.

(** X1.  The block size only bounds the memory of the intermediate tiles:
    for any two positive block sizes [filter_XtX] returns the same four
    results, or raises the same exception. *)
Theorem filter_XtX_block_size_irrelevant X (bs bs' : Z) thd4mem thd4comp :
  (0 < bs)%Z → (0 < bs')%Z →
  filter_XtX X bs thd4mem thd4comp = filter_XtX X bs' thd4mem thd4comp.
Proof.
  intros Hbs Hbs'. unfold filter_XtX. cbn zeta.
  rewrite !decide_False by lia. cbn [mbind result_bind].
  destruct (decide (ncols X = 1)) as [H1|H1].
  - rewrite !block_loop_one_item by done.
    rewrite !decide_False by (by apply blocks_pos). done.
  - rewrite !block_loop_Ok by done.
    rewrite !decide_False by (by apply blocks_pos). cbn [mbind result_bind].
    pose proof (all_tiles_perm X bs bs' thd4mem Hbs Hbs') as Hp.
    set (L := all_tiles X bs _ _) in *. set (L' := all_tiles X bs' _ _) in *.
    assert (filter (λ t, thd4comp ≤ Qcabs t.2)%Qc L
            ≡ₚ filter (λ t, thd4comp ≤ Qcabs t.2)%Qc L') as Hpf
      by (by apply filter_Permutation).
    rewrite (Permutation_length Hpf).
    rewrite (from_triples_perm _ _ _ _ Hp), (from_triples_perm _ _ _ _ Hpf). done.
Qed.

Lemma dot_columns_sym X i j : dot_columns X i j = dot_columns X j i.
Proof.
  unfold dot_columns. f_equal. apply list_fmap_ext. intros _ u _.
  apply Qcmult_comm.
Qed.

Lemma naive_XtX_sym X i j : naive_XtX X i j = naive_XtX X j i.
Proof. unfold naive_XtX. cbn zeta. rewrite (dot_columns_sym X i j). ring. Qed.

Lemma length_kept_for_AtA X (bs : Z) thd4mem thd4comp :
  (0 < bs)%Z →
  length (filter (λ t, thd4comp ≤ Qcabs t.2)%Qc
            (all_tiles X bs thd4mem (Z.to_nat (Z.of_nat (ncols X) `div` bs + 1))))
  = length (kept_for_AtA X thd4mem thd4comp).
Proof.
  intros Hbs.
  rewrite <- (length_fmap fst (filter _ (all_tiles _ _ _ _))).
  symmetry. apply Permutation_length, NoDup_Permutation.
  - apply NoDup_filter, NoDup_grid.
  - eapply sublist_NoDup;
      first [by apply NoDup_all_tiles | apply fmap_sublist, sublist_filter].
  - intros [i j]. unfold kept_for_AtA.
    rewrite list_elem_of_filter, elem_of_grid, list_elem_of_fmap. cbn [fst snd]. split.
    + intros ([Hm Hc] & Hi & Hj). exists ((i, j), naive_XtX X i j). split; [done|].
      apply list_elem_of_filter. split; [done|].
      apply elem_of_all_tiles; [done|]. by rewrite tile_entry_naive.
    + intros ([[i' j'] v] & [= -> ->] & [Hc Hin]%list_elem_of_filter).
      cbn [fst snd] in *.
      apply elem_of_all_tiles in Hin as (? & ? & Hv & ?); [|done].
      cbn [fst snd] in *. rewrite tile_entry_naive in Hv. subst v. done.
Qed.



End covariance_more.

Lemma filter_XtX_block_size_irrelevant_witness :
  (0 < 1)%Z ∧ (0 < 5)%Z ∧ filter_XtX X_ex 1 0 half = filter_XtX X_ex 5 0 half.
Proof.
  split; [lia|]. split; [lia|].
  apply (filter_XtX_block_size_irrelevant X_ex 1 5 0 half); lia.
Defined.


(** ** [calculate_sparsity_pattern] and [sparse_solution] run again *)

Lemma spmatrix_eq A B :
  nrows A = nrows B → ncols A = ncols B →
  (∀ r c, entries A !! (r, c) = entries B !! (r, c)) → A = B.
Proof.
  destruct A as [n1 n2 e], B as [n1' n2' e']. cbn. intros -> -> He.
  f_equal. apply map_eq. intros [r c]. apply He.
Qed.

Lemma eliminate_zeros_id A : no_stored_zero A → eliminate_zeros A = A.
Proof.
  intros Hnz. apply spmatrix_eq; [done..|]. intros r c. apply option_eq. intros v.
  rewrite eliminate_zeros_lookup. split; [by intros [? _]|].
  intros Hv. split; [done|]. intros ->. by apply (Hnz (r, c)).
Qed.

Section sparsity_pattern_more.
Context `{NumLib}.

Lemma calculate_sparsity_pattern_within_budget l K h A :
  h !! l = Some A →
  nrows A ≠ 0 →
  (∀ c, c < ncols A → getnnz_col A c ≤ K) →
  calculate_sparsity_pattern l K h = (Ok l, <[l := eliminate_zeros A]> h).
Proof.
  intros Hl Hrows Hcap.
  pose proof (calculate_sparsity_pattern_run l K h A Hl) as Hrun. cbn zeta in Hrun.
  assert (filter (λ ii, K < getnnz_col A ii) (seq 0 (ncols A)) = []) as Hnil.
  { apply filter_none. intros c Hc%elem_of_seq. specialize (Hcap c). lia. }
  rewrite Hnil in Hrun. cbn [foldM] in Hrun. by rewrite Hrun, decide_False.
Qed.

Lemma foldM_cap_column_raises K A cols e :
  foldM (cap_column K) A cols = Raise e → e = ValueError.
Proof.
  revert A. induction cols as [|c cols IH]; intros A; [done|]. cbn [foldM].
  rewrite cap_column_unfold. case_decide; cbn [mbind result_bind].
  - apply IH.
  - by intros [= <-].
Qed.

(** X4.  [calculate_sparsity_pattern] is idempotent: called again with the
    same budget on the reference it returned, it returns that reference
    once more and leaves the heap as it is. *)
Theorem calculate_sparsity_pattern_idempotent l maxInColumn h l1 h1 :
  calculate_sparsity_pattern l maxInColumn h = (Ok l1, h1) →
  calculate_sparsity_pattern l1 maxInColumn h1 = (Ok l1, h1).
Proof.
  intros Hrun. destruct (h !! l) as [A|] eqn:Hl.
  - destruct (calculate_sparsity_pattern_spec l maxInColumn h A Hl) as [_ Hspec].
    destruct (calculate_sparsity_pattern_rows l maxInColumn h A Hl) as [_ Hrows].
    specialize (Hrows l1 h1 Hrun).
    destruct (Hspec l1 h1 Hrun) as (AA & -> & -> & Hn & _ & Hcap & Hnz & _).
    rewrite (calculate_sparsity_pattern_within_budget l maxInColumn _ AA);
      [|by rewrite lookup_insert_eq|congruence|done].
    by rewrite eliminate_zeros_id, insert_insert_eq.
  - unfold calculate_sparsity_pattern in Hrun. cbn zeta in Hrun.
    unfold mbind at 1, M_bind in Hrun. unfold deref at 1 in Hrun.
    by rewrite Hl in Hrun.
Qed.

(** X5.  The columns to cap are chosen by their number of stored entries,
    the entries to drop among the nonzero ones: when a column stores more
    than [maxInColumn] entries of which no more than [maxInColumn], but at
    least one, are nonzero, [bn.argpartition] is called with a pivot beyond
    its keys and the call raises [ValueError]. *)
Theorem calculate_sparsity_pattern_explicit_zeros l maxInColumn h AtA c :
  h !! l = Some AtA →
  c < ncols AtA →
  maxInColumn < getnnz_col AtA c →
  0 < length (nonzero_rows AtA c) ≤ maxInColumn →
  (calculate_sparsity_pattern l maxInColumn h).1 = Raise ValueError.
Proof.
  intros Hl Hc Hover Hnz.
  pose proof (calculate_sparsity_pattern_run l maxInColumn h AtA Hl) as Hrun.
  cbn zeta in Hrun.
  set (iiList := filter (λ ii, maxInColumn < getnnz_col AtA ii) (seq 0 (ncols AtA))) in *.
  assert (NoDup iiList) as Hnd by apply NoDup_filter, NoDup_seq.
  pose proof (cap_loop_result maxInColumn AtA iiList Hnd) as Hloop.
  destruct (foldM (cap_column maxInColumn) AtA iiList) as [A'|e] eqn:Hfold.
  - destruct Hloop as [HF _]. rewrite Forall_forall in HF.
    assert (c ∈ iiList) as Hin.
    { unfold iiList. apply list_elem_of_filter. split; [done|]. apply elem_of_seq. lia. }
    apply HF in Hin as [Hnil|?]; [|lia]. rewrite Hnil in Hnz. cbn in Hnz. lia.
  - apply foldM_cap_column_raises in Hfold as ->.
    destruct Hrun as [A' ->]. done.
Qed.

End sparsity_pattern_more.

Section sparse_solution_more.
Context `{NumLib}.

(** X6.  [sparse_solution] can be run again: a second call with the same
    hyper-parameters on the state the first call left (the capped [AtA],
    the regularized diagonal of [XtX]) returns the same weight matrix and
    leaves that state as it is. *)
Theorem sparse_solution_again g rr maxInColumn L2reg h X AtA BB h' :
  g_XtX g ≠ g_AtA g →
  g_ii_diag g = diag_indices (length (g_XtXdiag g)) →
  h !! g_XtX g = Some X → h !! g_AtA g = Some AtA →
  sparse_solution g rr maxInColumn L2reg h = (Ok BB, h') →
  sparse_solution g rr maxInColumn L2reg h' = (Ok BB, h').
Proof.
  intros Hne Hdiag HX HA. unfold sparse_solution. rewrite Hdiag.
  (* the first run *)
  destruct (set_diagonal_run (g_XtX g) (g_XtXdiag g) h X HX)
    as (X1 & Hset1 & Hn1 & Hm1 & Hent1).
  unfold mbind at 1, M_bind. rewrite Hset1.
  set (h1 := <[g_XtX g := X1]> h).
  assert (h1 !! g_AtA g = Some AtA) as HA1.
  { unfold h1. by rewrite lookup_insert_ne. }
  unfold mbind at 1, M_bind.
  destruct (calculate_sparsity_pattern (g_AtA g) maxInColumn h1) as [[l'|e] h2] eqn:Hcsp;
    [|done].
  destruct (calculate_sparsity_pattern_spec (g_AtA g) maxInColumn h1 AtA HA1) as [_ Hspec].
  destruct (calculate_sparsity_pattern_rows (g_AtA g) maxInColumn h1 AtA HA1)
    as [_ Hrows].
  specialize (Hrows l' h2 Hcsp).
  destruct (Hspec l' h2 Hcsp) as (AA & -> & -> & HnA & _ & Hcap & Hnz & _).
  cbn zeta. set (reg := (λ d, d + L2reg)%Qc <$> g_XtXdiag g).
  assert (length reg = length (g_XtXdiag g)) as Hlen by (unfold reg; by rewrite length_fmap).
  rewrite <- Hlen at 1.
  destruct (set_diagonal_run (g_XtX g) reg (<[g_AtA g := AA]> h1) X1)
    as (X2 & Hset2 & Hn2 & Hm2 & Hent2).
  { rewrite lookup_insert_ne by done. apply lookup_insert_eq. }
  unfold mbind at 1, M_bind. rewrite Hset2.
  unfold sparse_parameter_estimation.
  unfold mbind at 1, M_bind. unfold deref at 1. rewrite lookup_insert_eq.
  unfold mbind at 1, M_bind. unfold deref at 1.
  rewrite lookup_insert_ne, lookup_insert_eq by done.
  unfold lift. intros [= Hrun <-].
  (* the second run *)
  set (h' := <[g_XtX g := X2]> (<[g_AtA g := AA]> h1)).
  destruct (set_diagonal_run (g_XtX g) (g_XtXdiag g) h' X2)
    as (X1' & Hset1' & Hn1' & Hm1' & Hent1').
  { apply lookup_insert_eq. }
  assert (X1' = X1) as ->.
  { apply spmatrix_eq; [congruence..|]. intros r c.
    rewrite Hent1', Hent2, Hent1, Hlen.
    by destruct (decide (r = c ∧ r < length (g_XtXdiag g))). }
  unfold mbind at 1, M_bind. rewrite Hset1'.
  unfold mbind at 1, M_bind.
  rewrite (calculate_sparsity_pattern_within_budget _ _ _ AA); [| |congruence|done].
  2:{ rewrite lookup_insert_ne by done. unfold h'.
      rewrite lookup_insert_ne by done. apply lookup_insert_eq. }
  rewrite eliminate_zeros_id by done.
  rewrite <- Hlen at 1.
  destruct (set_diagonal_run (g_XtX g) reg
              (<[g_AtA g := AA]> (<[g_XtX g := X1]> h')) X1)
    as (X2' & Hset2' & Hn2' & Hm2' & Hent2').
  { rewrite lookup_insert_ne by done. apply lookup_insert_eq. }
  assert (X2' = X2) as ->.
  { apply spmatrix_eq; [congruence..|]. intros r c. by rewrite Hent2', Hent2. }
  unfold mbind at 1, M_bind. rewrite Hset2'.
  unfold mbind at 1, M_bind. unfold deref at 1. rewrite lookup_insert_eq.
  unfold mbind at 1, M_bind. unfold deref at 1.
  rewrite lookup_insert_ne, lookup_insert_eq by done.
  rewrite Hrun. f_equal.
  apply map_eq. intros i. unfold h'.
  destruct (decide (i = g_XtX g)) as [->|Hi1].
  { by rewrite !lookup_insert_eq. }
  rewrite (lookup_insert_ne _ (g_XtX g) i) by done.
  destruct (decide (i = g_AtA g)) as [->|Hi2].
  { rewrite lookup_insert_eq. rewrite lookup_insert_ne by done.
    by rewrite lookup_insert_eq. }
  rewrite !lookup_insert_ne by done. done.
Qed.

End sparse_solution_more.


Lemma calculate_sparsity_pattern_idempotent_witness :
  ∃ h1, calculate_sparsity_pattern 1 2 h_ex = (Ok 1, h1) ∧
        calculate_sparsity_pattern 1 2 h1 = (Ok 1, h1).
Proof.
  eexists. split; [vm_compute; reflexivity|].
  eapply (calculate_sparsity_pattern_idempotent 1 2 h_ex). vm_compute; reflexivity.
Defined.

Lemma calculate_sparsity_pattern_explicit_zeros_witness :
  (<[0 := A_zero]> ∅ : gmap loc spmatrix) !! 0 = Some A_zero ∧
  0 < ncols A_zero ∧ 1 < getnnz_col A_zero 0 ∧
  0 < length (nonzero_rows A_zero 0) ≤ 1 ∧
  (calculate_sparsity_pattern 0 1 (<[0 := A_zero]> ∅)).1 = Raise ValueError.
Proof.
  assert ((<[0 := A_zero]> ∅ : gmap loc spmatrix) !! 0 = Some A_zero) as H1
    by reflexivity.
  assert (0 < ncols A_zero) as H2 by (vm_compute; lia).
  assert (1 < getnnz_col A_zero 0) as H3 by (vm_compute; lia).
  assert (0 < length (nonzero_rows A_zero 0) ≤ 1) as H4 by (vm_compute; lia).
  refine (conj H1 (conj H2 (conj H3 (conj H4 _)))).
  exact (calculate_sparsity_pattern_explicit_zeros 0 1 _ A_zero 0 H1 H2 H3 H4).
Defined.

Lemma sparse_solution_again_witness :
  ∃ BB h',
    sparse_solution g_ex 1 2 1 h_ex = (Ok BB, h') ∧
    sparse_solution g_ex 1 2 1 h' = (Ok BB, h').
Proof.
  eexists _, _. split; [vm_compute; reflexivity|].
  eapply (sparse_solution_again g_ex 1 2 1 h_ex A_ex A_ex);
    [done | done | done | done | vm_compute; reflexivity].
Defined.

(** ** The blocks the partitioner emits *)

Section blocks_more.
Context `{NumLib}.

Lemma block_of_perm AA ii : block_of AA ii ≡ₚ nonzero_rows AA ii.
Proof.
  unfold block_of, take_idx. cbn zeta.
  rewrite reverse_Permutation, np_argsort_perm, !length_fmap.
  by rewrite fmap_lookup_total_seq.
Qed.

Lemma partition_steps_length rr AA sortedList st st' :
  foldM (partition_step rr AA) st sortedList = Ok st' →
  length st.2 ≤ length st'.2 ≤ length st.2 + length sortedList.
Proof.
  revert st. induction sortedList as [|ii sl IH]; intros st.
  - intros [= <-]. cbn. lia.
  - cbn [foldM]. intros (st1 & Hstep & Hrest)%result_bind_Ok.
    apply IH in Hrest. cbn [length].
    assert (length st.2 ≤ length st1.2 ≤ S (length st.2)); [|lia].
    destruct st as [todo bl]. unfold partition_step in Hstep.
    destruct (todo !! ii) as [t|]; [|done].
    case_decide.
    + apply result_bind_Ok in Hstep as (todo' & _ & [= <-]).
      cbn. rewrite length_app. cbn. lia.
    + injection Hstep as <-. cbn. lia.
Qed.

(** X7.  The column budget bounds the cost of training: on the mask that
    [calculate_sparsity_pattern] returns, the partitioner emits at least
    one block (when there are items) and no more blocks than items, and
    every block, hence every matrix that is inverted, has at most
    [maxInColumn] members, all distinct and inside the item range. *)
Theorem blocks_within_budget l maxInColumn h AtA l' h' AA XtXdiag rr
    sortedList todoIndicators blockList :
  h !! l = Some AtA →
  calculate_sparsity_pattern l maxInColumn h = (Ok l', h') →
  h' !! l' = Some AA →
  length XtXdiag = ncols AA →
  sortedList_of AA XtXdiag = Ok sortedList →
  partition_loop rr AA sortedList = Ok (todoIndicators, blockList) →
  length blockList ≤ ncols AA ∧
  (0 < ncols AA → blockList ≠ []) ∧
  ∀ nn, nn ∈ blockList →
    length nn ≤ maxInColumn ∧ NoDup nn ∧ ∀ a, a ∈ nn → a < nrows AA.
Proof.
  intros Hl Hcsp HAA Hlen Hsorted Hloop.
  destruct (calculate_sparsity_pattern_spec l maxInColumn h AtA Hl) as [_ Hspec].
  destruct (Hspec l' h' Hcsp) as (AA' & -> & -> & _ & _ & Hcap & Hnz & _).
  rewrite lookup_insert_eq in HAA. injection HAA as ->.
  pose proof (sortedList_of_perm _ _ _ Hlen Hsorted) as Hperm.
  unfold partition_loop in Hloop.
  pose proof (partition_steps_length _ _ _ _ _ Hloop) as Hcount.
  cbn [fst snd length] in Hcount.
  rewrite (Permutation_length Hperm), length_seq in Hcount.
  destruct (partition_steps_Ok _ _ _ _ _ Hloop (flags_agree_init rr (ncols AA)))
    as (_ & _ & Hnew & _).
  cbn [fst snd] in *.
  split_and!; [lia| |].
  - intros HN Hnil. subst blockList.
    destruct sortedList as [|ii sl].
    { apply Permutation_length in Hperm. rewrite length_seq in Hperm.
      cbn in Hperm. lia. }
    cbn [foldM] in Hloop. apply result_bind_Ok in Hloop as (st1 & Hstep & Hrest).
    assert (ii < ncols AA) as Hii.
    { assert (ii ∈ ii :: sl) as Hin by left. rewrite Hperm in Hin.
      apply elem_of_seq in Hin. lia. }
    unfold partition_step in Hstep.
    rewrite lookup_replicate_2 in Hstep by done.
    rewrite decide_True in Hstep by done.
    apply result_bind_Ok in Hstep as (todo' & _ & [= <-]).
    apply partition_steps_length in Hrest. cbn in Hrest. lia.
  - intros nn Hnn. destruct (Hnew nn Hnn) as [Hin|(ii & Hii & ->)].
    { by apply not_elem_of_nil in Hin. }
    rewrite Hperm in Hii. apply elem_of_seq in Hii.
    pose proof (block_of_perm AA ii) as Hp.
    split_and!.
    + rewrite (Permutation_length Hp), <- getnnz_col_nonzero_rows by done.
      apply Hcap. lia.
    + rewrite Hp. apply NoDup_nonzero_rows.
    + intros a Ha. rewrite Hp in Ha. by apply elem_of_nonzero_rows in Ha as [? _].
Qed.

(** X8.  In the solution of a block the coefficient of a retired member
    predicting itself is [-1] (its own diagonal entry of the inverse divided
    by the negated same entry), whatever the data: every block contributes
    [-1] to the diagonal coordinate of each member it retires. *)
Theorem solve_block_self_coefficient rr XtX nn sub inverse BBlist j :
  submatrix XtX nn = Ok sub →
  linalg_inv sub = Some inverse →
  solve_block rr XtX nn = Ok BBlist →
  j < length (retired rr nn) →
  dget inverse j j ≠ 0%Qc →
  BBlist !! (j * length (retired rr nn) + j)
  = Some ((nn !!! j, nn !!! j), (-1)%Qc).
Proof.
  intros Hsub Hinv. unfold solve_block. rewrite Hsub. cbn [mbind result_bind].
  rewrite Hinv. cbn [mbind result_bind]. intros Heq%Ok_inj Hj Hnz. subst BBlist.
  assert (length sub = length nn) as Hlsub.
  { unfold submatrix in Hsub. case_decide; [|done]. injection Hsub as <-.
    by rewrite length_fmap. }
  destruct (linalg_inv_shape _ _ Hinv) as [Hl1 Hl2]. rewrite Hlsub in Hl1, Hl2.
  rewrite Forall_forall in Hl2.
  set (dd := retired rr nn) in *.
  assert (length dd ≤ length nn) as Hdd by (unfold dd, retired; rewrite length_take; lia).
  rewrite (lookup_bind_fixed _ _ (length dd) j j j);
    [|intros; by rewrite length_fmap, length_seq|apply lookup_seq_lt; lia|done].
  rewrite list_lookup_fmap, lookup_seq_lt by done. cbn. do 2 f_equal.
  - f_equal. unfold dd, retired. rewrite !list_lookup_total_alt.
    rewrite lookup_take_lt; [done|]. fold (retired rr nn). fold dd.
    unfold dd, retired in Hj. rewrite length_take in Hj. lia.
  - change ((divide_by_neg_diag inverse !!! j) !!! j)
      with (dget (divide_by_neg_diag inverse) j j).
    rewrite dget_divide_by_neg_diag; [|lia|].
    + generalize dependent (dget inverse j j). intros x Hx. by field.
    + rewrite Hl2; [lia|]. apply list_elem_of_lookup_total_2. lia.
Qed.

End blocks_more.

Lemma blocks_within_budget_witness :
  ∃ h' AA sortedList todoIndicators blockList,
    h_ex !! 1 = Some A_ex ∧
    calculate_sparsity_pattern 1 2 h_ex = (Ok 1, h') ∧
    h' !! 1 = Some AA ∧
    length (diagonal A_ex) = ncols AA ∧
    sortedList_of AA (diagonal A_ex) = Ok sortedList ∧
    partition_loop half AA sortedList = Ok (todoIndicators, blockList) ∧
    length blockList ≤ ncols AA ∧
    (0 < ncols AA → blockList ≠ []) ∧
    ∀ nn, nn ∈ blockList →
      length nn ≤ 2 ∧ NoDup nn ∧ ∀ a, a ∈ nn → a < nrows AA.
Proof.
  eexists _, _, _, _, _.
  split; [reflexivity|].
  split; [vm_compute; reflexivity|].
  split; [vm_compute; reflexivity|].
  split; [vm_compute; reflexivity|].
  split; [vm_compute; reflexivity|].
  split; [vm_compute; reflexivity|].
  eapply (blocks_within_budget 1 2 h_ex A_ex 1 _ _ (diagonal A_ex) half).
  - reflexivity.
  - vm_compute; reflexivity.
  - vm_compute; reflexivity.
  - vm_compute; reflexivity.
  - vm_compute; reflexivity.
  - vm_compute; reflexivity.
Defined.

Lemma solve_block_self_coefficient_witness :
  ∃ sub inverse BBlist,
    submatrix A_ex [1; 0] = Ok sub ∧ linalg_inv sub = Some inverse ∧
    solve_block 1 A_ex [1; 0] = Ok BBlist ∧
    1 < length (retired 1 [1; 0]) ∧
    dget inverse 1 1 ≠ 0%Qc ∧
    BBlist !! (1 * length (retired 1 [1; 0]) + 1)
    = Some (([1; 0] !!! 1, [1; 0] !!! 1), (-1)%Qc).
Proof.
  eexists _, _, _.
  split; [vm_compute; reflexivity|].
  split; [vm_compute; reflexivity|].
  split; [vm_compute; reflexivity|].
  split; [vm_compute; lia|].
  split; [by vm_compute|].
  eapply (solve_block_self_coefficient 1 A_ex [1; 0]).
  - vm_compute; reflexivity.
  - vm_compute; reflexivity.
  - vm_compute; reflexivity.
  - vm_compute; lia.
  - by vm_compute.
Defined.

(** ** Loading the pre-processed data *)

Lemma csr_of_ones_Ok n1 n2 coords M :
  csr_of_ones n1 n2 coords = Ok M →
  nrows M = n1 ∧ ncols M = n2 ∧
  (∀ r c, getv M r c = Qc_of_nat (occurrences (r, c) coords)) ∧
  (∀ r c, is_Some (entries M !! (r, c)) ↔ (r, c) ∈ coords) ∧
  in_shape M ∧ no_stored_zero M.
Proof.
  unfold csr_of_ones. case_decide as Hin; [|done]. intros [= <-].
  rewrite Forall_forall in Hin.
  assert (∀ k, contributions k ((λ rc, (rc, 1%Qc)) <$> coords)
               = (λ _, 1%Qc) <$> filter (λ x, x = k) coords) as Hc.
  { intros k. unfold contributions. rewrite filter_fmap, <- list_fmap_compose. done. }
  assert (∀ k, k ∈ ((λ rc, (rc, 1%Qc)) <$> coords).*1 ↔ k ∈ coords) as Hfst.
  { intros k. rewrite <- list_fmap_compose. cbn. by rewrite list_fmap_id. }
  split_and!; [done..| | | |].
  - intros r c. by rewrite from_triples_getv, Hc, Qcsum_ones.
  - intros r c. by rewrite from_triples_is_Some, Hfst.
  - intros r c v Hv. cbn.
    assert ((r, c) ∈ coords) as Hrc.
    { apply Hfst. eapply from_triples_is_Some. eauto. }
    by apply Hin in Hrc.
  - intros k Hk. rewrite from_triples_lookup in Hk. case_decide as Hk'; [|done].
    injection Hk as Hk. rewrite Hc, Qcsum_ones in Hk.
    apply Hfst in Hk'.
    assert (k ∈ filter (λ x, x = k) coords) as Hin' by (by apply list_elem_of_filter).
    destruct (filter (λ x, x = k) coords) as [|y l]; [by apply not_elem_of_nil in Hin'|].
    by apply (Qc_of_nat_neq_0 (S (length l))).
Qed.

Lemma load_train_data_unfold n_items tp :
  tp ≠ [] →
  load_train_data n_items tp = csr_of_ones (max_list tp.*1 + 1) n_items tp.
Proof. by destruct tp. Qed.

(** X9.  [load_train_data] returns the user-by-item matrix of the file: as
    many rows as the largest user index plus one, [n_items] columns, and at
    [(u, i)] the number of rows [(u, i)] of the file (stored exactly where
    the file has such a row; so the matrix is binary when no row is
    repeated).  A file without rows is rejected with a [TypeError], an item
    index that is not below [n_items] with a [ValueError]. *)
Theorem load_train_data_counts (n_items : nat) (tp : list (nat * nat)) :
  (tp = [] → load_train_data n_items tp = Raise TypeError) ∧
  (tp ≠ [] → ¬ Forall (λ rc, rc.2 < n_items) tp →
   load_train_data n_items tp = Raise ValueError) ∧
  (tp ≠ [] → Forall (λ rc, rc.2 < n_items) tp →
   ∃ M, load_train_data n_items tp = Ok M ∧
     nrows M = max_list tp.*1 + 1 ∧ ncols M = n_items ∧
     (∀ u i, getv M u i = Qc_of_nat (occurrences (u, i) tp)) ∧
     (∀ u i, is_Some (entries M !! (u, i)) ↔ (u, i) ∈ tp) ∧
     (NoDup tp → ∀ u i v, entries M !! (u, i) = Some v → v = 1%Qc)).
Proof.
  split_and!.
  - by intros ->.
  - intros Hne Hcols. rewrite load_train_data_unfold by done. unfold csr_of_ones.
    rewrite decide_False; [done|]. intros Hall. apply Hcols.
    eapply Forall_impl; [exact Hall|]. by intros ? [_ ?].
  - intros Hne Hcols. rewrite load_train_data_unfold by done.
    destruct (csr_of_ones (max_list tp.*1 + 1) n_items tp) as [M|e] eqn:Hcsr.
    + exists M. split; [done|].
      destruct (csr_of_ones_Ok _ _ _ _ Hcsr) as (Hn1 & Hn2 & Hget & Hsome & _ & _).
      split_and!; [done..|].
      intros Hnd u i v Hv. pose proof (Hget u i) as Hg. unfold getv in Hg.
      rewrite Hv in Hg. cbn in Hg. rewrite Hg.
      assert ((u, i) ∈ tp) as Hin by (apply Hsome; eauto).
      unfold occurrences.
      enough (filter (λ x, x = (u, i)) tp ≡ₚ [(u, i)]) as Hp
        by (rewrite (Permutation_length Hp); by apply Qc_is_canon).
      apply NoDup_Permutation.
      * by apply NoDup_filter.
      * apply NoDup_singleton.
      * intros x. rewrite list_elem_of_filter, list_elem_of_singleton.
        split; [by intros [-> _] | by intros ->].
    + exfalso. unfold csr_of_ones in Hcsr. rewrite decide_True in Hcsr; [done|].
      rewrite Forall_forall in Hcols. apply Forall_forall. intros x Hx.
      split; [|by apply Hcols].
      assert (x.1 ∈ tp.*1) as Hx1 by (apply list_elem_of_fmap; eauto).
      apply max_list_elem_of_le in Hx1. lia.
Qed.

Lemma foldr_min_le (d : nat) (l : list nat) :
  foldr Nat.min d l ≤ d ∧ ∀ x, x ∈ l → foldr Nat.min d l ≤ x.
Proof.
  induction l as [|y l [IH1 IH2]]; cbn.
  - split; [lia|]. by intros x ?%not_elem_of_nil.
  - split; [lia|]. intros x [->|Hx]%elem_of_cons; [lia|]. specialize (IH2 x Hx). lia.
Qed.

Lemma foldr_max_ge (d : nat) (l : list nat) :
  d ≤ foldr Nat.max d l ∧ ∀ x, x ∈ l → x ≤ foldr Nat.max d l.
Proof.
  induction l as [|y l [IH1 IH2]]; cbn.
  - split; [lia|]. by intros x ?%not_elem_of_nil.
  - split; [lia|]. intros x [->|Hx]%elem_of_cons; [lia|]. specialize (IH2 x Hx). lia.
Qed.

Lemma foldr_min_elem_of (d : nat) (l : list nat) :
  d ∈ l → foldr Nat.min d l ∈ l.
Proof.
  intros Hd.
  enough (∀ l', foldr Nat.min d l' = d ∨ foldr Nat.min d l' ∈ l') as Hgen.
  { destruct (Hgen l) as [->|]; done. }
  induction l' as [|y l' IH]; cbn; [by left|].
  destruct (Nat.min_spec y (foldr Nat.min d l')) as [[_ ->]|[_ ->]].
  - right. left.
  - destruct IH as [->|]; [by left|]. right. by right.
Qed.

Lemma occurrences_shift (start k i : nat) (tp : list (nat * nat)) :
  (∀ rc, rc ∈ tp → start ≤ rc.1) →
  occurrences (k, i) ((λ rc : nat * nat, (rc.1 - start, rc.2)) <$> tp)
  = occurrences (start + k, i) tp.
Proof.
  intros Hge. unfold occurrences. rewrite filter_fmap, length_fmap. f_equal.
  apply filter_ext_in. intros [u j] Hin. apply Hge in Hin. cbn in *.
  split; intros [= ? ?]; f_equal; lia.
Qed.

(** X10.  [load_tr_te_data] returns two matrices of one shape whose rows are
    aligned: row [k] of both is the user [start_idx + k], where [start_idx]
    is the smallest user index of the two files, and the entry at [(k, i)]
    counts the rows [(start_idx + k, i)] of the respective file.  The
    fold-in file must have a row ([TypeError] otherwise); the held-out file
    may be empty. *)
Theorem load_tr_te_data_aligned (n_items : nat) (tp_tr tp_te : list (nat * nat)) :
  (tp_tr = [] → load_tr_te_data n_items tp_tr tp_te = Raise TypeError) ∧
  (tp_tr ≠ [] → Forall (λ rc, rc.2 < n_items) (tp_tr ++ tp_te) →
   is_Ok (load_tr_te_data n_items tp_tr tp_te)) ∧
  (∀ data_tr data_te,
     load_tr_te_data n_items tp_tr tp_te = Ok (data_tr, data_te) →
     nrows data_tr = nrows data_te ∧
     ncols data_tr = n_items ∧ ncols data_te = n_items ∧
     ∃ start_idx,
       (∃ i, (start_idx, i) ∈ tp_tr ++ tp_te) ∧
       (∀ u i, (u, i) ∈ tp_tr ++ tp_te →
          start_idx ≤ u < start_idx + nrows data_tr) ∧
       (∀ k i, getv data_tr k i = Qc_of_nat (occurrences (start_idx + k, i) tp_tr)) ∧
       (∀ k i, getv data_te k i = Qc_of_nat (occurrences (start_idx + k, i) tp_te))).
Proof.
  split; [by intros ->|].
  destruct tp_tr as [|[u0 i0] tp_tr']; [by split|].
  set (tp_tr := (u0, i0) :: tp_tr') in *.
  assert (load_tr_te_data n_items tp_tr tp_te =
    let start_idx := foldr Nat.min u0 (tp_tr.*1 ++ tp_te.*1) in
    let end_idx := foldr Nat.max u0 (tp_tr.*1 ++ tp_te.*1) in
    let shift := λ rc : nat * nat, (rc.1 - start_idx, rc.2) in
    data_tr ← csr_of_ones (end_idx - start_idx + 1) n_items (shift <$> tp_tr);
    data_te ← csr_of_ones (end_idx - start_idx + 1) n_items (shift <$> tp_te);
    Ok (data_tr, data_te)) as -> by done.
  cbn zeta.
  set (all := tp_tr.*1 ++ tp_te.*1).
  assert (u0 ∈ all) as Hu0 by (unfold all, tp_tr; cbn; left).
  clearbody tp_tr.
  destruct (foldr_min_le u0 all) as [Hmin0 Hmin].
  destruct (foldr_max_ge u0 all) as [Hmax0 Hmax].
  set (start_idx := foldr Nat.min u0 all) in *.
  set (end_idx := foldr Nat.max u0 all) in *.
  assert (∀ rc, rc ∈ tp_tr ++ tp_te → rc.1 ∈ all) as Hall.
  { intros rc Hrc. unfold all. rewrite <- fmap_app. apply list_elem_of_fmap. eauto. }
  assert (∀ tp, (∀ rc, rc ∈ tp → rc ∈ tp_tr ++ tp_te) →
            Forall (λ rc, rc.2 < n_items) tp →
            Forall (λ rc : nat * nat, rc.1 < end_idx - start_idx + 1 ∧ rc.2 < n_items)
              ((λ rc : nat * nat, (rc.1 - start_idx, rc.2)) <$> tp)) as Hshape.
  { intros tp Hsub Hcols. apply Forall_fmap, Forall_forall. intros rc Hrc. cbn.
    rewrite Forall_forall in Hcols. split; [|by apply Hcols].
    pose proof (Hmax _ (Hall _ (Hsub _ Hrc))). lia. }
  split.
  - intros _ [Htr Hte]%Forall_app. unfold csr_of_ones.
    pose proof (Hshape tp_tr (λ rc Hrc, proj2 (elem_of_app _ _ rc) (or_introl Hrc)) Htr)
      as Hs1.
    pose proof (Hshape tp_te (λ rc Hrc, proj2 (elem_of_app _ _ rc) (or_intror Hrc)) Hte)
      as Hs2.
    rewrite !decide_True by first [exact Hs1 | exact Hs2].
    cbn [mbind result_bind]. by eexists.
  - intros data_tr data_te Hrun.
    apply result_bind_Ok in Hrun as (M1 & H1 & Hrun).
    apply result_bind_Ok in Hrun as (M2 & H2 & [= <- <-]).
    destruct (csr_of_ones_Ok _ _ _ _ H1) as (Hn1 & Hm1 & Hget1 & _).
    destruct (csr_of_ones_Ok _ _ _ _ H2) as (Hn2 & Hm2 & Hget2 & _).
    split_and!; [congruence | done | done |].
    exists start_idx. split_and!.
    + pose proof (foldr_min_elem_of u0 all Hu0) as Hin. fold start_idx in Hin.
      unfold all in Hin. rewrite <- fmap_app in Hin.
      apply list_elem_of_fmap in Hin as ([u i] & -> & Hin). by exists i.
    + intros u i Hin. apply Hall in Hin. cbn in Hin. rewrite Hn1.
      pose proof (Hmin _ Hin). pose proof (Hmax _ Hin). lia.
    + intros k i. rewrite Hget1. f_equal. apply occurrences_shift.
      intros rc Hrc. apply Hmin, Hall, elem_of_app. by left.
    + intros k i. rewrite Hget2. f_equal. apply occurrences_shift.
      intros rc Hrc. apply Hmin, Hall, elem_of_app. by right.
Qed.

Lemma load_train_data_counts_witness :
  load_train_data 2 [] = Raise TypeError ∧
  load_train_data 2 [(0, 1); (1, 2)] = Raise ValueError ∧
  ∃ M, load_train_data 2 [(0, 1); (2, 0); (2, 1)] = Ok M ∧
    nrows M = max_list [(0, 1); (2, 0); (2, 1)].*1 + 1 ∧ ncols M = 2 ∧
    (∀ u i, getv M u i = Qc_of_nat (occurrences (u, i) [(0, 1); (2, 0); (2, 1)])) ∧
    (∀ u i, is_Some (entries M !! (u, i)) ↔ (u, i) ∈ [(0, 1); (2, 0); (2, 1)]) ∧
    (NoDup [(0, 1); (2, 0); (2, 1)] → ∀ u i v, entries M !! (u, i) = Some v → v = 1%Qc).
Proof.
  destruct (load_train_data_counts 2 []) as (H1 & _).
  destruct (load_train_data_counts 2 [(0, 1); (1, 2)]) as (_ & H2 & _).
  destruct (load_train_data_counts 2 [(0, 1); (2, 0); (2, 1)]) as (_ & _ & H3).
  refine (conj _ (conj _ _)).
  - by apply H1.
  - apply H2; [done|]. rewrite !Forall_cons. cbn. lia.
  - apply H3; [done|]. repeat constructor.
Defined.

Lemma load_tr_te_data_aligned_witness :
  load_tr_te_data 2 [] [(3, 0)] = Raise TypeError ∧
  is_Ok (load_tr_te_data 2 [(3, 0); (5, 1)] [(4, 1)]) ∧
  ∃ data_tr data_te,
    load_tr_te_data 2 [(3, 0); (5, 1)] [(4, 1)] = Ok (data_tr, data_te) ∧
    nrows data_tr = nrows data_te ∧ ncols data_tr = 2 ∧ ncols data_te = 2 ∧
    ∃ start_idx,
      (∃ i, (start_idx, i) ∈ [(3, 0); (5, 1)] ++ [(4, 1)]) ∧
      (∀ u i, (u, i) ∈ [(3, 0); (5, 1)] ++ [(4, 1)] →
         start_idx ≤ u < start_idx + nrows data_tr) ∧
      (∀ k i, getv data_tr k i
              = Qc_of_nat (occurrences (start_idx + k, i) [(3, 0); (5, 1)])) ∧
      (∀ k i, getv data_te k i = Qc_of_nat (occurrences (start_idx + k, i) [(4, 1)])).
Proof.
  destruct (load_tr_te_data_aligned 2 [] [(3, 0)]) as (H1 & _).
  destruct (load_tr_te_data_aligned 2 [(3, 0); (5, 1)] [(4, 1)]) as (_ & H2 & H3).
  refine (conj _ (conj _ _)).
  - by apply H1.
  - apply H2; [done|]. repeat constructor.
  - eexists _, _. split; [vm_compute; reflexivity|]. apply H3. vm_compute; reflexivity.
Defined.

(** ** Ranking metrics *)

Lemma Qc_of_nat_le (a b : nat) : a ≤ b → (Qc_of_nat a ≤ Qc_of_nat b)%Qc.
Proof. intros Hab. change (Z.of_nat a * 1 ≤ Z.of_nat b * 1)%Z. lia. Qed.

Lemma Qc_of_nat_pos (b : nat) : 0 < b → (0 < Qc_of_nat b)%Qc.
Proof. intros Hb. change (0 * 1 < Z.of_nat b * 1)%Z. lia. Qed.

Lemma Qc_of_nat_inj (a b : nat) : Qc_of_nat a = Qc_of_nat b → a = b.
Proof.
  intros Heq. apply (f_equal (λ q : Qc, Qnum (this q))) in Heq. cbn in Heq. lia.
Qed.

Lemma Qcdiv_bounds (x y : Qc) :
  (0 ≤ x)%Qc → (x ≤ y)%Qc → (0 < y)%Qc → (0 ≤ x / y)%Qc ∧ (x / y ≤ 1)%Qc.
Proof.
  intros Hx Hxy Hy.
  assert (y ≠ 0%Qc) as Hy0 by (intros ->; by apply Qclt_not_le in Hy; apply Hy, Qcle_refl).
  assert (x / y * y = x)%Qc as Hdiv by (by field).
  split; apply (Qcmult_lt_0_le_reg_r _ _ y Hy); rewrite Hdiv.
  - by rewrite Qcmult_0_l.
  - by rewrite Qcmult_1_l.
Qed.

Lemma Qcdiv_eq_1 (x y : Qc) : y ≠ 0%Qc → (x / y = 1)%Qc ↔ x = y.
Proof.
  intros Hy. split.
  - intros Hq. assert (x = x / y * y)%Qc as -> by (by field).
    rewrite Hq. by rewrite Qcmult_1_l.
  - intros ->. by field.
Qed.

Lemma NoDup_incl_length {A} `{EqDecision A} (l k : list A) :
  NoDup l → (∀ x, x ∈ l → x ∈ k) → length l ≤ length k.
Proof. intros Hnd Hin. by apply submseteq_length, NoDup_submseteq. Qed.

Section metrics_facts.
Context `{NumLib} `{LogLib}.

(** What [bn.argpartition] on the negated scores of a user selects. *)
Lemma argpartition_top (X : nat → Qc) (n k : nat) :
  k < n →
  let part := bn_argpartition ((λ i, - X i)%Qc <$> seq 0 n) k in
  part ≡ₚ seq 0 n ∧
  NoDup (take k part) ∧ length (take k part) = k ∧
  (∀ i, i ∈ take k part → i < n) ∧
  (∀ i j, i ∈ take k part → j < n → j ∉ take k part → (X j ≤ X i)%Qc).
Proof.
  intros Hk part.
  set (keys := (λ i, - X i)%Qc <$> seq 0 n) in *.
  assert (length keys = n) as Hlen by (unfold keys; by rewrite length_fmap, length_seq).
  pose proof (bn_argpartition_perm keys k ltac:(lia)) as Hperm. fold part in Hperm.
  rewrite Hlen in Hperm.
  assert (NoDup part) as Hnd by (rewrite Hperm; apply NoDup_seq).
  assert (length part = n) as Hlp by (by rewrite Hperm, length_seq).
  assert (∀ a, a < n → keys !!! a = (- X a)%Qc) as Hkey.
  { intros a Ha. unfold keys. rewrite lookup_total_fmap_lt by (rewrite length_seq; lia).
    by rewrite list_lookup_total_alt, lookup_seq_lt by lia. }
  split_and!.
  - done.
  - rewrite <- (take_drop k part) in Hnd. by apply NoDup_app in Hnd as [? _].
  - rewrite length_take. lia.
  - intros i Hi%elem_of_take. destruct Hi as (p & Hp & _).
    assert (i ∈ part) as Hin by (by eapply list_elem_of_lookup_2).
    rewrite Hperm in Hin. apply elem_of_seq in Hin. lia.
  - intros i j Hi Hj Hnot.
    apply elem_of_take in Hi as (p & Hp & Hpk).
    assert (j ∈ part) as Hjin by (rewrite Hperm; apply elem_of_seq; lia).
    apply list_elem_of_lookup in Hjin as [q Hq].
    assert (k ≤ q) as Hkq.
    { destruct (decide (k ≤ q)) as [|Hlt]; [done|]. exfalso. apply Hnot.
      apply elem_of_take. exists q. split; [done|lia]. }
    assert (i < n) as Hi.
    { assert (i ∈ part) as Hin by (by eapply list_elem_of_lookup_2).
      rewrite Hperm in Hin. apply elem_of_seq in Hin. lia. }
    pose proof (bn_argpartition_pivot keys k p q i j ltac:(lia) Hpk Hkq Hp Hq) as Hle.
    rewrite !Hkey in Hle by done. by apply Qcopp_le_compat in Hle; rewrite !Qcopp_involutive in Hle.
Qed.

(** X11.  [Recall_at_k_batch] for [k] below the number of items: for every
    user the [k] recommended items are distinct and no item outside them
    has a higher score than one of them; the recall is the number of
    recommended items among the user's held-out items divided by the
    smaller of [k] and the number of held-out items, a value between 0
    and 1; it is [nan] exactly for [k = 0] or a user without held-out item.
    For [k] not below a positive number of items the call raises
    [ValueError]. *)
Theorem Recall_at_k_batch_range (X_pred : nat → nat → Qc) (heldout_batch : spmatrix)
    (k : nat) :
  (0 < ncols heldout_batch ≤ k →
   Recall_at_k_batch X_pred heldout_batch k = Raise ValueError) ∧
  (k < ncols heldout_batch →
   ∃ recall, Recall_at_k_batch X_pred heldout_batch k = Ok recall ∧
     length recall = nrows heldout_batch ∧
     ∀ u, u < nrows heldout_batch →
       ∃ top,
         NoDup top ∧ length top = k ∧
         (∀ i j, i ∈ top → j < ncols heldout_batch → j ∉ top →
            (X_pred u j ≤ X_pred u i)%Qc) ∧
         let hits := length (filter (λ i, i ∈ top) (true_items heldout_batch u)) in
         let denominator := Nat.min k (length (true_items heldout_batch u)) in
         (recall !! u = Some None ↔ k = 0 ∨ true_items heldout_batch u = []) ∧
         ∀ q, recall !! u = Some (Some q) →
           q = (Qc_of_nat hits / Qc_of_nat denominator)%Qc ∧
           (0 ≤ q)%Qc ∧ (q ≤ 1)%Qc ∧
           (q = 1%Qc ↔ hits = denominator)).
Proof.
  unfold Recall_at_k_batch, argpartition_rows. cbn zeta. split.
  - intros [Hn Hk]. rewrite decide_False by lia. by rewrite decide_False by lia.
  - intros Hk. rewrite decide_False by lia. rewrite decide_True by done.
    cbn [mbind result_bind]. eexists. split; [reflexivity|].
    split; [by rewrite length_fmap, length_seq|].
    intros u Hu.
    set (n := ncols heldout_batch) in *.
    set (part := bn_argpartition ((λ i, - X_pred u i)%Qc <$> seq 0 n) k).
    destruct (argpartition_top (X_pred u) n k Hk) as (_ & Hnd & Hlen & Hlt & Hdom).
    fold part in Hnd, Hlen, Hlt, Hdom.
    exists (take k part).
    split; [done|]. split; [done|]. split; [exact Hdom|]. cbn zeta.
    rewrite list_lookup_fmap, lookup_seq_lt by done. cbn [fmap option_fmap option_map Nat.add].
    rewrite lookup_total_fmap_lt by (rewrite length_seq; lia).
    rewrite (list_lookup_total_alt (seq 0 _)), lookup_seq_lt by lia. cbn [default Nat.add].
    fold part.
    set (true := true_items heldout_batch u).
    set (hits := length (filter (λ i, i ∈ take k part) true)).
    set (den := Nat.min k (length true)).
    assert (hits ≤ den) as Hhd.
    { unfold hits, den. apply Nat.min_glb.
      - etrans; [|apply Nat.eq_le_incl, Hlen]. apply NoDup_incl_length.
        + apply NoDup_filter, NoDup_filter, NoDup_seq.
        + by intros x [? _]%list_elem_of_filter.
      - apply length_filter. }
    split.
    + case_decide as Hden.
      * split; [|done]. intros _. unfold den in Hden.
        destruct (length true) eqn:Hl; [right; by apply nil_length_inv|left; lia].
      * split; [done|]. intros [->|Hnil]; exfalso; apply Hden; unfold den; [lia|].
        rewrite Hnil. cbn. lia.
    + intros q. case_decide as Hden; [done|]. intros [= <-].
      assert (0 < Qc_of_nat den)%Qc as Hpos by (apply Qc_of_nat_pos; lia).
      destruct (Qcdiv_bounds (Qc_of_nat hits) (Qc_of_nat den)) as [Hq0 Hq1];
        [apply Qc_of_nat_nonneg | by apply Qc_of_nat_le | done |].
      split_and!; [done..|].
      rewrite Qcdiv_eq_1 by (by apply Qc_of_nat_neq_0).
      split; [apply Qc_of_nat_inj | intros Heq; f_equal; exact Heq].
Qed.

End metrics_facts.

(** ** The discounted gain *)

Lemma Qcinv_pos (x : Qc) : (0 < x)%Qc → (0 < 1 / x)%Qc.
Proof.
  intros Hx.
  assert (x ≠ 0%Qc) as Hx0 by (intros ->; by apply Qclt_not_le in Hx; apply Hx, Qcle_refl).
  apply Qcnot_le_lt. intros Hle.
  apply (Qcmult_le_compat_r _ _ x) in Hle; [|by apply Qclt_le_weak].
  assert (1 / x * x = 1)%Qc as Hone by (by field).
  rewrite Hone, Qcmult_0_l in Hle. by apply Qcle_not_lt in Hle.
Qed.

Lemma Qcinv_antitone (x y : Qc) : (0 < x)%Qc → (x ≤ y)%Qc → (1 / y ≤ 1 / x)%Qc.
Proof.
  intros Hx Hxy.
  assert (0 < y)%Qc as Hy by (by eapply Qclt_le_trans).
  assert (x ≠ 0%Qc) as Hx0 by (intros ->; by apply Qclt_not_le in Hx; apply Hx, Qcle_refl).
  assert (y ≠ 0%Qc) as Hy0 by (intros ->; by apply Qclt_not_le in Hy; apply Hy, Qcle_refl).
  apply (Qcmult_lt_0_le_reg_r _ _ y Hy).
  apply (Qcmult_lt_0_le_reg_r _ _ x Hx).
  assert (1 / y * y * x = x)%Qc as -> by (by field).
  assert (1 / x * y * x = y)%Qc as -> by (by field).
  done.
Qed.

Lemma Qcsum_snoc (l : list Qc) (x : Qc) : Qcsum (l ++ [x]) = (Qcsum l + x)%Qc.
Proof. rewrite Qcsum_app. cbn. ring. Qed.

Lemma Qcsum_nonneg (l : list Qc) : Forall (λ x, 0 ≤ x)%Qc l → (0 ≤ Qcsum l)%Qc.
Proof.
  induction 1 as [|x l Hx _ IH]; cbn; [apply Qcle_refl|].
  rewrite <- (Qcplus_0_l 0). by apply Qcplus_le_compat.
Qed.

Lemma Qcsum_seq_mono (d : nat → Qc) (c m : nat) :
  (∀ j, (0 ≤ d j)%Qc) → c ≤ m →
  (Qcsum (d <$> seq 0 c) ≤ Qcsum (d <$> seq 0 m))%Qc.
Proof.
  intros Hd Hcm. replace m with (c + (m - c)) by lia.
  rewrite seq_app, fmap_app, Qcsum_app.
  rewrite <- (Qcplus_0_r (Qcsum (d <$> seq 0 c))) at 1.
  apply Qcplus_le_compat; [apply Qcle_refl|].
  apply Qcsum_nonneg, Forall_fmap, Forall_forall. intros j _. apply Hd.
Qed.

(** The gain of [c] hits among the first [k] ranks is largest when the hits
    are at the first [c] ranks. *)
Lemma Qcsum_hits_le (d rel : nat → Qc) (k : nat) :
  (∀ i j : nat, i ≤ j → (d j ≤ d i)%Qc) →
  (∀ j, rel j = 0%Qc ∨ rel j = 1%Qc) →
  (Qcsum ((λ j, rel j * d j)%Qc <$> seq 0 k)
   ≤ Qcsum (d <$> seq 0 (length (filter (λ j, rel j = 1%Qc) (seq 0 k)))))%Qc.
Proof.
  intros Hd Hrel. induction k as [|k IH]; [apply Qcle_refl|].
  rewrite seq_S, fmap_app, filter_app, length_app, Qcsum_app.
  cbn [fmap list_fmap Nat.add Qcsum foldr]. rewrite Qcplus_0_r.
  set (c := length (filter (λ j, rel j = 1%Qc) (seq 0 k))) in *.
  assert (c ≤ k) as Hck.
  { unfold c. etrans; [apply length_filter|]. by rewrite length_seq. }
  destruct (Hrel k) as [H0|H1].
  - rewrite filter_cons_False, filter_nil by (rewrite H0; apply Qc_0_neq_1).
    cbn [length]. rewrite Nat.add_0_r, H0, Qcmult_0_l, Qcplus_0_r. done.
  - rewrite filter_cons_True, filter_nil by done. cbn [length].
    rewrite Nat.add_1_r, seq_S, fmap_app, Qcsum_app.
    cbn [fmap list_fmap Nat.add Qcsum foldr]. rewrite Qcplus_0_r.
    rewrite H1, Qcmult_1_l. apply Qcplus_le_compat; [done|]. by apply Hd.
Qed.

Lemma zip_with_seq {A B C} `{Inhabited A} (f : A → B → C) (g : nat → B) (l : list A) :
  zip_with f l (g <$> seq 0 (length l)) = (λ j, f (l !!! j) (g j)) <$> seq 0 (length l).
Proof.
  apply list_eq. intros j. rewrite lookup_zip_with, !list_lookup_fmap.
  destruct (decide (j < length l)) as [Hj|Hj].
  - rewrite lookup_seq_lt by done. cbn.
    rewrite (list_lookup_lookup_total_lt l j) by done. done.
  - rewrite lookup_seq_ge by lia. cbn.
    by rewrite (lookup_ge_None_2 l j) by lia.
Qed.

Section gain_facts.
Context `{NumLib} `{LogLib}.

Lemma discount_pos j : (0 < 1 / np_log2 (j + 2))%Qc.
Proof. apply Qcinv_pos, np_log2_pos. lia. Qed.

Lemma discount_antitone i j :
  i ≤ j → (1 / np_log2 (j + 2) ≤ 1 / np_log2 (i + 2))%Qc.
Proof.
  intros Hij. apply Qcinv_antitone; [apply np_log2_pos; lia|].
  apply np_log2_mono; lia.
Qed.

Lemma take_discount m k :
  m ≤ k → take m (discount k) = (λ j, 1 / np_log2 (j + 2))%Qc <$> seq 0 m.
Proof.
  intros Hmk. unfold discount. rewrite <- fmap_take. f_equal.
  replace k with (m + (k - m)) by lia. rewrite seq_app, take_app_length'; [done|].
  by rewrite length_seq.
Qed.

Lemma Qcsum_discount_pos m : 0 < m → (0 < Qcsum ((λ j, 1 / np_log2 (j + 2))%Qc <$> seq 0 m))%Qc.
Proof.
  intros Hm. destruct m as [|m]; [lia|]. cbn [seq fmap list_fmap Qcsum foldr].
  eapply Qclt_le_trans; [apply (discount_pos 0)|].
  set (d0 := (1 / np_log2 (0 + 2))%Qc).
  rewrite <- (Qcplus_0_r d0) at 1.
  apply Qcplus_le_compat; [apply Qcle_refl|].
  apply Qcsum_nonneg, Forall_fmap, Forall_forall. intros j _.
  apply Qclt_le_weak, discount_pos.
Qed.

(** The ranking [idx_topk] of a user. *)
Lemma idx_topk_row_spec (X_pred : nat → nat → Qc) (n k u : nat) :
  k < n →
  let part := bn_argpartition ((λ i, - X_pred u i)%Qc <$> seq 0 n) k in
  let idx_topk := idx_topk_row X_pred k u part in
  idx_topk ≡ₚ take k part ∧ length idx_topk = k ∧
  ∀ p q a b, p ≤ q → idx_topk !! p = Some a → idx_topk !! q = Some b →
    (X_pred u b ≤ X_pred u a)%Qc.
Proof.
  intros Hk part idx_topk.
  destruct (argpartition_top (X_pred u) n k Hk) as (Hperm & Hnd & Hlen & Hlt & Hdom).
  fold part in Hperm, Hnd, Hlen, Hlt, Hdom.
  assert (length part = n) as Hlp by (by rewrite Hperm, length_seq).
  unfold idx_topk, idx_topk_row. cbn zeta.
  set (topk_part := (λ i, X_pred u i) <$> take k part).
  set (keys := (λ x, - x)%Qc <$> topk_part).
  assert (length keys = k) as Hlk by (unfold keys, topk_part; by rewrite !length_fmap).
  pose proof (np_argsort_perm keys) as Hp. rewrite Hlk in Hp.
  assert ((λ j, part !!! j) <$> seq 0 k = take k part) as Htake.
  { apply list_eq. intros j. rewrite list_lookup_fmap.
    destruct (decide (j < k)) as [Hj|Hj].
    - rewrite lookup_seq_lt, lookup_take_lt by done. cbn.
      by rewrite list_lookup_lookup_total_lt by lia.
    - rewrite lookup_seq_ge, lookup_take_ge by lia. done. }
  split_and!.
  - by rewrite Hp, Htake.
  - by rewrite length_fmap, Hp, length_seq.
  - intros p q a b Hpq Ha Hb.
    rewrite list_lookup_fmap in Ha, Hb.
    destruct (np_argsort keys !! p) as [x|] eqn:Hx; [|done].
    destruct (np_argsort keys !! q) as [y|] eqn:Hy; [|done].
    injection Ha as <-. injection Hb as <-.
    pose proof (np_argsort_sorted keys p q x y Hpq Hx Hy) as Hle.
    assert (∀ z, z ∈ np_argsort keys → z < k) as Hrange.
    { intros z Hz. rewrite Hp in Hz. apply elem_of_seq in Hz. lia. }
    assert (x < k) as Hxk by (eapply Hrange, list_elem_of_lookup_2; done).
    assert (y < k) as Hyk by (eapply Hrange, list_elem_of_lookup_2; done).
    assert (∀ z, z < k → keys !!! z = (- X_pred u (part !!! z))%Qc) as Hkey.
    { intros z Hz. unfold keys, topk_part. rewrite <- list_fmap_compose.
      rewrite lookup_total_fmap_lt by (rewrite length_take; lia). cbn.
      rewrite !list_lookup_total_alt, lookup_take_lt by done. done. }
    rewrite !Hkey in Hle by done.
    by apply Qcopp_le_compat in Hle; rewrite !Qcopp_involutive in Hle.
Qed.

(** The partition of the whole batch, at one user. *)
Lemma argpartition_rows_lookup (X_pred : nat → nat → Qc) (batch_users n k u : nat)
    (idx_topk_part : list (list nat)) :
  k < n → u < batch_users →
  argpartition_rows X_pred batch_users n k = Ok idx_topk_part →
  idx_topk_part !!! u = bn_argpartition ((λ i, - X_pred u i)%Qc <$> seq 0 n) k.
Proof.
  intros Hk Hu. unfold argpartition_rows.
  rewrite decide_False by lia. rewrite decide_True by done. intros [= <-].
  rewrite lookup_total_fmap_lt by (rewrite length_seq; lia).
  by rewrite (list_lookup_total_alt (seq 0 _)), lookup_seq_lt by lia.
Qed.

Lemma idx_topk_row_members (X_pred : nat → nat → Qc) (n k u : nat) :
  k < n →
  let idx_topk :=
    idx_topk_row X_pred k u (bn_argpartition ((λ i, - X_pred u i)%Qc <$> seq 0 n) k) in
  NoDup idx_topk ∧ length idx_topk = k ∧ ∀ i, i ∈ idx_topk → i < n.
Proof.
  intros Hk.
  destruct (argpartition_top (X_pred u) n k Hk) as (_ & Hnd & _ & Hlt & _).
  destruct (idx_topk_row_spec X_pred n k u Hk) as (Hp & Hl & _).
  cbn zeta in *. split_and!.
  - by rewrite Hp.
  - done.
  - intros i Hi. rewrite Hp in Hi. by apply Hlt.
Qed.

(** X12.  The ranking that [NDCG_binary_at_k_batch] scores, [idx_topk], is
    what the comment in the code says: the [k] items of highest predicted
    score (no item outside it has a higher score than one inside), without
    repetition and in order of non-increasing score. *)
Theorem idx_topk_is_sorted_top_k (X_pred : nat → nat → Qc) (heldout_batch : spmatrix)
    (k u : nat) (idx_topk_part : list (list nat)) :
  k < ncols heldout_batch → u < nrows heldout_batch →
  argpartition_rows X_pred (nrows heldout_batch) (ncols heldout_batch) k
    = Ok idx_topk_part →
  let idx_topk := idx_topk_row X_pred k u (idx_topk_part !!! u) in
  NoDup idx_topk ∧ length idx_topk = k ∧
  (∀ i, i ∈ idx_topk → i < ncols heldout_batch) ∧
  (∀ p q a b, p ≤ q → idx_topk !! p = Some a → idx_topk !! q = Some b →
     (X_pred u b ≤ X_pred u a)%Qc) ∧
  (∀ i j, i ∈ idx_topk → j < ncols heldout_batch → j ∉ idx_topk →
     (X_pred u j ≤ X_pred u i)%Qc).
Proof.
  intros Hk Hu Hpart.
  rewrite (argpartition_rows_lookup _ _ _ _ _ _ Hk Hu Hpart).
  set (n := ncols heldout_batch) in *.
  destruct (argpartition_top (X_pred u) n k Hk) as (_ & _ & _ & _ & Hdom).
  destruct (idx_topk_row_spec X_pred n k u Hk) as (Hp & _ & Hsorted).
  destruct (idx_topk_row_members X_pred n k u Hk) as (Hnd & Hlen & Hlt).
  cbn zeta in *.
  set (part := bn_argpartition ((λ i, - X_pred u i)%Qc <$> seq 0 n) k) in *.
  split_and!; [done..| |].
  - exact Hsorted.
  - intros i j Hi Hj Hnot. rewrite Hp in Hi. apply Hdom; [done..|].
    by rewrite <- Hp.
Qed.

(** X13.  [NDCG_binary_at_k_batch] for [k] below the number of items and
    binary relevance (every stored entry of [heldout_batch] is 1, the
    assumption the docstring states): the value of a user is [nan] exactly
    for [k = 0] or a user without held-out item, and otherwise lies between
    0 and 1, the discounted gain of no ranking exceeding the ideal one.
    For [k] not below a positive number of items the call raises
    [ValueError]. *)
Theorem NDCG_binary_at_k_batch_range (X_pred : nat → nat → Qc)
    (heldout_batch : spmatrix) (k : nat) :
  (0 < ncols heldout_batch ≤ k →
   NDCG_binary_at_k_batch X_pred heldout_batch k = Raise ValueError) ∧
  (k < ncols heldout_batch →
   (∀ u i v, entries heldout_batch !! (u, i) = Some v → v = 1%Qc) →
   ∃ ndcg, NDCG_binary_at_k_batch X_pred heldout_batch k = Ok ndcg ∧
     length ndcg = nrows heldout_batch ∧
     ∀ u, u < nrows heldout_batch →
       (ndcg !! u = Some None ↔ k = 0 ∨ getnnz_row heldout_batch u = 0) ∧
       ∀ q, ndcg !! u = Some (Some q) → (0 ≤ q)%Qc ∧ (q ≤ 1)%Qc).
Proof.
  split.
  { intros [Hn Hk]. unfold NDCG_binary_at_k_batch, argpartition_rows. cbn zeta.
    rewrite decide_False by lia. by rewrite decide_False by lia. }
  intros Hk Hbin. unfold NDCG_binary_at_k_batch. cbn zeta.
  destruct (argpartition_rows X_pred (nrows heldout_batch) (ncols heldout_batch) k)
    as [idx_topk_part|e] eqn:Hpart.
  2:{ unfold argpartition_rows in Hpart. rewrite decide_False in Hpart by lia.
      by rewrite decide_True in Hpart by done. }
  cbn [mbind result_bind]. rewrite decide_False by lia.
  eexists. split; [reflexivity|]. split; [by rewrite length_fmap, length_seq|].
  intros u Hu.
  rewrite list_lookup_fmap, lookup_seq_lt by done. cbn [fmap option_fmap option_map Nat.add].
  rewrite (argpartition_rows_lookup _ _ _ _ _ _ Hk Hu Hpart).
  destruct (idx_topk_row_members X_pred (ncols heldout_batch) k u Hk)
    as (Hnd & Hlen & Hlt).
  cbn zeta in *.
  set (part := bn_argpartition ((λ i, - X_pred u i)%Qc
                                  <$> seq 0 (ncols heldout_batch)) k) in *.
  set (idx_topk := idx_topk_row X_pred k u part) in *.
  set (d := (λ j, 1 / np_log2 (j + 2))%Qc).
  set (rel := λ j, getv heldout_batch u (idx_topk !!! j)).
  set (n_u := getnnz_row heldout_batch u).
  (* the gain as a sum over the ranks *)
  assert (zip_with (λ i t, getv heldout_batch u i * t)%Qc idx_topk (discount k)
          = (λ j, rel j * d j)%Qc <$> seq 0 k) as ->.
  { unfold discount. rewrite <- Hlen. by rewrite zip_with_seq. }
  rewrite take_discount by lia. fold d.
  assert (∀ i, getv heldout_batch u i = 0%Qc ∨ getv heldout_batch u i = 1%Qc) as Hrel.
  { intros i. unfold getv. destruct (entries heldout_batch !! (u, i)) as [v|] eqn:Hv.
    - right. cbn. by eapply Hbin. - by left. }
  set (c := length (filter (λ j, rel j = 1%Qc) (seq 0 k))).
  assert (c ≤ Nat.min n_u k) as Hc.
  { apply Nat.min_glb.
    - assert (c = length (filter (λ i, getv heldout_batch u i = 1%Qc) idx_topk)) as ->.
      { unfold c.
        transitivity (length (filter (λ i, getv heldout_batch u i = 1%Qc)
                        ((λ j, idx_topk !!! j) <$> seq 0 (length idx_topk))));
          [|by rewrite fmap_lookup_total_seq].
        rewrite filter_fmap, length_fmap, Hlen. done. }
      unfold n_u, getnnz_row. apply NoDup_incl_length; [by apply NoDup_filter|].
      intros i [Hone Hin]%list_elem_of_filter. apply list_elem_of_filter. split.
      + unfold getv in Hone. destruct (entries heldout_batch !! (u, i)); [done|].
        cbn in Hone. by destruct Qc_0_neq_1.
      + apply elem_of_seq. specialize (Hlt i Hin). lia.
    - unfold c. etrans; [apply length_filter|]. by rewrite length_seq. }
  assert (∀ j, (0 ≤ d j)%Qc) as Hd0 by (intros j; apply Qclt_le_weak, discount_pos).
  assert (Qcsum ((λ j, rel j * d j)%Qc <$> seq 0 k)
          ≤ Qcsum (d <$> seq 0 (Nat.min n_u k)))%Qc as Hle.
  { eapply Qcle_trans; [apply (Qcsum_hits_le d rel k)|].
    - intros i j Hij. by apply discount_antitone.
    - intros j. apply Hrel.
    - by apply Qcsum_seq_mono. }
  assert (0 ≤ Qcsum ((λ j, rel j * d j)%Qc <$> seq 0 k))%Qc as Hge.
  { apply Qcsum_nonneg, Forall_fmap, Forall_forall. intros j _. cbn.
    destruct (Hrel (idx_topk !!! j)) as [Hr|Hr]; unfold rel; rewrite Hr.
    - rewrite Qcmult_0_l. apply Qcle_refl.
    - by rewrite Qcmult_1_l. }
  split.
  - case_decide as HI.
    + split; [|done]. intros _.
      destruct (Nat.min n_u k) as [|m] eqn:Hm; [lia|].
      pose proof (Qcsum_discount_pos (S m) ltac:(lia)) as Hpos. fold d in Hpos.
      rewrite HI in Hpos. by apply Qclt_not_le in Hpos; destruct Hpos; apply Qcle_refl.
    + split; [done|]. intros Hz. exfalso. apply HI.
      assert (Nat.min n_u k = 0) as -> by lia. done.
  - intros q. case_decide as HI; [done|]. intros [= <-].
    apply Qcdiv_bounds; [done..|].
    destruct (Nat.min n_u k) as [|m] eqn:Hm; [done|].
    apply (Qcsum_discount_pos (S m)). lia.
Qed.

End gain_facts.

Lemma H_ex_binary u i v : entries H_ex !! (u, i) = Some v → v = 1%Qc.
Proof.
  intros Hv. apply elem_of_map_to_list in Hv.
  remember (map_to_list (entries H_ex)) as L eqn:HL. vm_compute in HL. subst L.
  repeat (apply elem_of_cons in Hv as [Hv|Hv];
          [injection Hv as _ _ ->; by apply Qc_is_canon|]).
  by apply not_elem_of_nil in Hv.
Qed.

Lemma Recall_at_k_batch_range_witness :
  Recall_at_k_batch P_ex H_ex 4 = Raise ValueError ∧
  ∃ recall, Recall_at_k_batch P_ex H_ex 2 = Ok recall ∧
    length recall = nrows H_ex ∧
    ∀ u, u < nrows H_ex →
      ∃ top,
        NoDup top ∧ length top = 2 ∧
        (∀ i j, i ∈ top → j < ncols H_ex → j ∉ top → (P_ex u j ≤ P_ex u i)%Qc) ∧
        let hits := length (filter (λ i, i ∈ top) (true_items H_ex u)) in
        let denominator := Nat.min 2 (length (true_items H_ex u)) in
        (recall !! u = Some None ↔ 2 = 0 ∨ true_items H_ex u = []) ∧
        ∀ q, recall !! u = Some (Some q) →
          q = (Qc_of_nat hits / Qc_of_nat denominator)%Qc ∧
          (0 ≤ q)%Qc ∧ (q ≤ 1)%Qc ∧ (q = 1%Qc ↔ hits = denominator).
Proof.
  destruct (Recall_at_k_batch_range P_ex H_ex 4) as [H1 _].
  destruct (Recall_at_k_batch_range P_ex H_ex 2) as [_ H2].
  split.
  - apply H1. vm_compute. lia.
  - apply H2. vm_compute. lia.
Defined.

Lemma idx_topk_is_sorted_top_k_witness :
  ∃ idx_topk_part,
    2 < ncols H_ex ∧ 0 < nrows H_ex ∧
    argpartition_rows P_ex (nrows H_ex) (ncols H_ex) 2 = Ok idx_topk_part ∧
    let idx_topk := idx_topk_row P_ex 2 0 (idx_topk_part !!! 0) in
    NoDup idx_topk ∧ length idx_topk = 2 ∧
    (∀ i, i ∈ idx_topk → i < ncols H_ex) ∧
    (∀ p q a b, p ≤ q → idx_topk !! p = Some a → idx_topk !! q = Some b →
       (P_ex 0 b ≤ P_ex 0 a)%Qc) ∧
    (∀ i j, i ∈ idx_topk → j < ncols H_ex → j ∉ idx_topk → (P_ex 0 j ≤ P_ex 0 i)%Qc).
Proof.
  eexists.
  split; [vm_compute; lia|]. split; [vm_compute; lia|].
  split; [vm_compute; reflexivity|].
  eapply (idx_topk_is_sorted_top_k P_ex H_ex 2 0).
  - vm_compute; lia.
  - vm_compute; lia.
  - vm_compute; reflexivity.
Defined.

Lemma NDCG_binary_at_k_batch_range_witness :
  NDCG_binary_at_k_batch P_ex H_ex 4 = Raise ValueError ∧
  ∃ ndcg, NDCG_binary_at_k_batch P_ex H_ex 2 = Ok ndcg ∧
    length ndcg = nrows H_ex ∧
    ∀ u, u < nrows H_ex →
      (ndcg !! u = Some None ↔ 2 = 0 ∨ getnnz_row H_ex u = 0) ∧
      ∀ q, ndcg !! u = Some (Some q) → (0 ≤ q)%Qc ∧ (q ≤ 1)%Qc.
Proof.
  destruct (NDCG_binary_at_k_batch_range P_ex H_ex 4) as [H1 _].
  destruct (NDCG_binary_at_k_batch_range P_ex H_ex 2) as [_ H2].
  split.
  - apply H1. vm_compute. lia.
  - apply H2; [vm_compute; lia | exact H_ex_binary].
Defined.

(** ** Train, validation and test users *)

Lemma slice_bound_le (b : Z) (n : nat) : slice_bound b n ≤ n.
Proof. unfold slice_bound. case_decide; lia. Qed.

Lemma take_idx_seq {A} `{Inhabited A} (l : list A) (a m : nat) :
  a + m ≤ length l → take_idx l (seq a m) = take m (drop a l).
Proof.
  intros Hle. unfold take_idx. apply list_eq. intros i.
  rewrite list_lookup_fmap.
  destruct (decide (i < m)) as [Hi|Hi].
  - rewrite lookup_seq_lt, lookup_take_lt, lookup_drop by done. cbn.
    by rewrite list_lookup_lookup_total_lt by lia.
  - rewrite lookup_seq_ge, lookup_take_ge by lia. done.
Qed.

Lemma slice_take_drop {A} `{Inhabited A} (l : list A) (lo hi : Z) :
  slice l lo hi
  = take (slice_bound hi (length l) - slice_bound lo (length l))
      (drop (slice_bound lo (length l)) l).
Proof.
  unfold slice, py_slice. apply take_idx_seq.
  pose proof (slice_bound_le lo (length l)). pose proof (slice_bound_le hi (length l)).
  lia.
Qed.

(** X14.  The cell that cuts the users into training, validation and test
    users yields a partition of [unique_uid], with [n_heldout_users]
    validation and as many test users, when there are at least twice
    [n_heldout_users] users.  It silently does something else for fewer
    users, the negative bound of a slice counting from the end: with more
    than [n_heldout_users] but fewer than twice as many users there are no
    validation users and some user is both a training and a test user. *)
Theorem split_users_partition {A} `{Inhabited A} (unique_uid : list A)
    (n_heldout_users : nat) (tr_users vd_users te_users : list A) :
  split_users unique_uid n_heldout_users = (tr_users, vd_users, te_users) →
  let n_users := length unique_uid in
  (n_heldout_users * 2 ≤ n_users →
   tr_users ++ vd_users ++ te_users = unique_uid ∧
   length vd_users = n_heldout_users ∧ length te_users = n_heldout_users) ∧
  (n_users ≤ n_heldout_users →
   tr_users = [] ∧ vd_users ++ te_users = unique_uid) ∧
  (n_heldout_users < n_users < n_heldout_users * 2 →
   vd_users = [] ∧
   length tr_users + length te_users > n_users ∧
   ∃ x, x ∈ tr_users ∧ x ∈ te_users).
Proof.
  unfold split_users. cbn zeta. rewrite !slice_take_drop. intros [= <- <- <-].
  set (n := length unique_uid). set (h := n_heldout_users).
  split_and!.
  - intros Hn.
    assert (slice_bound 0 n = 0) as -> by (unfold slice_bound; case_decide; lia).
    assert (slice_bound (Z.of_nat n - Z.of_nat h * 2) n = n - h * 2) as ->
      by (unfold slice_bound; case_decide; lia).
    assert (slice_bound (Z.of_nat n - Z.of_nat h) n = n - h) as ->
      by (unfold slice_bound; case_decide; lia).
    assert (slice_bound (Z.of_nat n) n = n) as ->
      by (unfold slice_bound; case_decide; lia).
    rewrite drop_0, !length_take, !length_drop. fold n. split_and!; [|lia..].
    replace (n - h - (n - h * 2)) with h by lia.
    replace (n - (n - h)) with h by lia.
    rewrite Nat.sub_0_r.
    rewrite (take_ge (drop (n - h) unique_uid)) by (rewrite length_drop; fold n; lia).
    replace (n - h) with (n - h * 2 + h) by lia.
    by rewrite <- drop_drop, !take_drop.
  - intros Hn.
    assert (slice_bound 0 n = 0) as -> by (unfold slice_bound; case_decide; lia).
    assert (slice_bound (Z.of_nat n - Z.of_nat h * 2) n = 0) as ->
      by (unfold slice_bound; case_decide; lia).
    assert (slice_bound (Z.of_nat n) n = n) as ->
      by (unfold slice_bound; case_decide; lia).
    pose proof (slice_bound_le (Z.of_nat n - Z.of_nat h) n) as Hb.
    set (b := slice_bound (Z.of_nat n - Z.of_nat h) n) in *.
    rewrite !drop_0, !Nat.sub_0_r. split; [done|].
    rewrite (take_ge (drop b unique_uid)) by (rewrite length_drop; fold n; lia).
    by rewrite take_drop.
  - intros Hn.
    assert (slice_bound 0 n = 0) as -> by (unfold slice_bound; case_decide; lia).
    assert (slice_bound (Z.of_nat n - Z.of_nat h * 2) n = n * 2 - h * 2) as ->
      by (unfold slice_bound; case_decide; lia).
    assert (slice_bound (Z.of_nat n - Z.of_nat h) n = n - h) as ->
      by (unfold slice_bound; case_decide; lia).
    assert (slice_bound (Z.of_nat n) n = n) as ->
      by (unfold slice_bound; case_decide; lia).
    rewrite !drop_0, !Nat.sub_0_r.
    replace (n - h - (n * 2 - h * 2)) with 0 by lia.
    split_and!; [done| |].
    + rewrite !length_take, !length_drop. fold n. lia.
    + destruct (lookup_lt_is_Some_2 unique_uid (n - h)) as [x Hx]; [fold n; lia|].
      exists x. split.
      * apply elem_of_take. exists (n - h). split; [done|lia].
      * apply (list_elem_of_lookup_2 _ 0). rewrite lookup_take_lt by lia.
        rewrite lookup_drop. by rewrite Nat.add_0_r.
Qed.

(** ** Numbering users and items *)

Lemma pd_unique_NoDup l : NoDup (pd_unique l).
Proof. unfold pd_unique. rewrite reverse_Permutation. apply NoDup_remove_dups. Qed.

Lemma elem_of_pd_unique l x : x ∈ pd_unique l ↔ x ∈ l.
Proof.
  unfold pd_unique. by rewrite elem_of_reverse, elem_of_remove_dups, elem_of_reverse.
Qed.

Lemma enumerate_dict_snoc l x :
  enumerate_dict (l ++ [x]) = <[x := length l]> (enumerate_dict l).
Proof.
  unfold enumerate_dict. rewrite imap_app, foldl_app. cbn.
  by rewrite Nat.add_0_r.
Qed.

Lemma enumerate_dict_lookup l x i :
  NoDup l → enumerate_dict l !! x = Some i ↔ l !! i = Some x.
Proof.
  induction l as [|y l IH] using rev_ind; intros Hnd.
  - unfold enumerate_dict. cbn. by rewrite lookup_empty.
  - apply NoDup_app in Hnd as (Hnd & Hdisj & _).
    rewrite enumerate_dict_snoc.
    destruct (decide (x = y)) as [->|Hxy].
    + rewrite lookup_insert_eq. split.
      * intros [= <-]. by rewrite lookup_app_r, Nat.sub_diag by lia.
      * intros Hi. destruct (decide (i < length l)) as [Hlt|Hge].
        -- rewrite lookup_app_l in Hi by done. exfalso.
           apply (Hdisj y); [by eapply list_elem_of_lookup_2 | left].
        -- apply lookup_lt_Some in Hi as Hlt. rewrite length_app in Hlt. cbn in Hlt.
           f_equal. lia.
    + rewrite lookup_insert_ne by done. rewrite IH by done. split.
      * intros Hi. by apply lookup_app_l_Some.
      * intros Hi. destruct (decide (i < length l)) as [Hlt|Hge].
        -- by rewrite lookup_app_l in Hi.
        -- rewrite lookup_app_r in Hi by lia.
           destruct (i - length l) as [|?]; cbn in Hi; [congruence|done].
Qed.

(** X15.  The item numbering [show2id] of the distinct items
    [pd.unique(...)] of a column is one-to-one: [unique_sid] lists every
    item of the column once, and [show2id[x] = i] exactly when
    [unique_sid[i] = x]; an item that is not in the column is not a key. *)
Theorem show2id_round_trip (column : list nat) :
  let unique_sid := pd_unique column in
  let show2id := enumerate_dict unique_sid in
  NoDup unique_sid ∧
  (∀ x, x ∈ unique_sid ↔ x ∈ column) ∧
  (∀ x i, show2id !! x = Some i ↔ unique_sid !! i = Some x) ∧
  (∀ x, show2id !! x = None ↔ x ∉ column) ∧
  (∀ x i, show2id !! x = Some i → i < length unique_sid).
Proof.
  cbn zeta. pose proof (pd_unique_NoDup column) as Hnd.
  split_and!.
  - done.
  - apply elem_of_pd_unique.
  - intros x i. by apply enumerate_dict_lookup.
  - intros x. rewrite <- elem_of_pd_unique. rewrite eq_None_not_Some. split.
    + intros Hnone Hin. apply Hnone. apply list_elem_of_lookup in Hin as [i Hi].
      exists i. by apply enumerate_dict_lookup.
    + intros Hnot [i Hi]. apply Hnot. apply enumerate_dict_lookup in Hi; [|done].
      by eapply list_elem_of_lookup_2.
  - intros x i Hi. apply enumerate_dict_lookup in Hi; [|done].
    by eapply lookup_lt_Some.
Qed.

Lemma numerize_Some profile2id show2id tp rows :
  numerize profile2id show2id tp = Some rows ↔
  Forall2 (λ t r, profile2id !! userId t = Some r.1 ∧ show2id !! songId t = Some r.2)
    tp rows.
Proof.
  unfold numerize. split.
  - intros Hrun.
    destruct (mapM (λ t, profile2id !! userId t) tp) as [uid|] eqn:Hu; [|done].
    destruct (mapM (λ t, show2id !! songId t) tp) as [sid|] eqn:Hs; [|done].
    cbn in Hrun. injection Hrun as <-.
    apply mapM_Some in Hu, Hs. clear -Hu Hs.
    revert sid Hs. induction Hu as [|t u tp uid Ht Hu IH]; intros sid Hs.
    + inversion Hs. constructor.
    + inversion Hs as [|? s ? sid' Hts Hs']; subst. cbn. constructor; [done|].
      by apply IH.
  - intros HF.
    assert (mapM (λ t, profile2id !! userId t) tp = Some rows.*1) as ->.
    { apply mapM_Some. induction HF as [|t r tp rows [Ht _] _ IH]; constructor; done. }
    assert (mapM (λ t, show2id !! songId t) tp = Some rows.*2) as ->.
    { apply mapM_Some. induction HF as [|t r tp rows [_ Ht] _ IH]; constructor; done. }
    cbn. f_equal. clear. induction rows as [|[u s] rows IH]; [done|]. cbn. by f_equal.
Qed.

Lemma numerize_is_Some unique_uid unique_sid tp :
  NoDup unique_uid → NoDup unique_sid →
  Forall (λ t, userId t ∈ unique_uid ∧ songId t ∈ unique_sid) tp →
  ∃ rows, numerize (enumerate_dict unique_uid) (enumerate_dict unique_sid) tp
          = Some rows.
Proof.
  intros Hnu Hns. induction tp as [|t tp IH]; intros Hall.
  - by exists [].
  - apply Forall_cons in Hall as [[Hu Hs] Hall]. destruct (IH Hall) as [rows Hrows].
    apply list_elem_of_lookup in Hu as [u Hu].
    apply list_elem_of_lookup in Hs as [s Hs].
    exists ((u, s) :: rows). apply numerize_Some. constructor.
    + split; by apply enumerate_dict_lookup.
    + by apply numerize_Some.
Qed.

(** X16.  [numerize] with the dictionaries of the distinct users and
    items: it raises [KeyError] exactly when a row has a user that is not
    in [unique_uid] or an item that is not in [unique_sid]; otherwise it
    returns one row per row of the frame, in order, and the numbers decode
    to the row's user and item: [unique_uid[uid] = userId] and
    [unique_sid[sid] = songId]. *)
Theorem numerize_round_trip (unique_uid unique_sid : list nat) (tp : list triplet) :
  NoDup unique_uid → NoDup unique_sid →
  let profile2id := enumerate_dict unique_uid in
  let show2id := enumerate_dict unique_sid in
  (numerize profile2id show2id tp = None ↔
   ∃ t, t ∈ tp ∧ (userId t ∉ unique_uid ∨ songId t ∉ unique_sid)) ∧
  (∀ rows, numerize profile2id show2id tp = Some rows →
     length rows = length tp ∧
     ∀ k t, tp !! k = Some t →
       ∃ uid sid, rows !! k = Some (uid, sid) ∧
         unique_uid !! uid = Some (userId t) ∧
         unique_sid !! sid = Some (songId t)).
Proof.
  intros Hnu Hns. cbn zeta. split.
  - split.
    + intros Hnone.
      destruct (decide (Forall (λ t, userId t ∈ unique_uid ∧ songId t ∈ unique_sid) tp))
        as [Hall|Hnot].
      * exfalso.
        destruct (numerize_is_Some unique_uid unique_sid tp Hnu Hns Hall) as [rows Hr].
        congruence.
      * apply not_Forall_Exists in Hnot; [|apply _].
        apply Exists_exists in Hnot as (t & Hin & Hbad). exists t. split; [done|].
        cbn in Hbad. apply not_and_l in Hbad. done.
    + intros (t & Hin & Hbad).
      destruct (numerize _ _ tp) as [rows|] eqn:Hrun; [|done]. exfalso.
      apply numerize_Some in Hrun.
      apply list_elem_of_lookup in Hin as [k Hk].
      destruct (Forall2_lookup_l _ _ _ _ _ Hrun Hk) as ([u s] & _ & Hu & Hs).
      cbn in Hu, Hs.
      apply enumerate_dict_lookup in Hu; [|done].
      apply enumerate_dict_lookup in Hs; [|done].
      destruct Hbad as [Hbad|Hbad]; apply Hbad; by eapply list_elem_of_lookup_2.
  - intros rows Hrun. apply numerize_Some in Hrun. split.
    + symmetry. by eapply Forall2_length.
    + intros k t Hk.
      destruct (Forall2_lookup_l _ _ _ _ _ Hrun Hk) as ([u s] & Hr & Hu & Hs).
      exists u, s. split; [done|]. cbn in Hu, Hs.
      split; by apply enumerate_dict_lookup.
Qed.

Lemma csr_of_ones_is_Ok n1 n2 coords :
  Forall (λ rc, rc.1 < n1 ∧ rc.2 < n2) coords → is_Ok (csr_of_ones n1 n2 coords).
Proof. intros Hall. unfold csr_of_ones. rewrite decide_True by done. by eexists. Qed.

(** X17.  The numbered training frame always exists and fits the loader:
    for training users that are among the numbered users, [numerize] of
    their rows does not raise; every item number it writes is below
    [n_items = len(unique_sid)] and every number below [n_items] is written
    for some row.  So [load_train_data] accepts the frame as soon as there
    is a training play, and every column of the training matrix has a
    stored entry; without a training play the loader raises [TypeError]. *)
Theorem train_frame_loads (raw_data : list triplet) (unique_uid tr_users : list nat) :
  NoDup unique_uid → (∀ u, u ∈ tr_users → u ∈ unique_uid) →
  ∃ unique_sid rows,
    train_frame raw_data unique_uid tr_users = (unique_sid, Some rows) ∧
    let n_items := length unique_sid in
    (∀ uid sid, (uid, sid) ∈ rows → uid < length unique_uid ∧ sid < n_items) ∧
    (∀ sid, sid < n_items → ∃ uid, (uid, sid) ∈ rows) ∧
    ((∀ t, t ∈ raw_data → userId t ∉ tr_users) →
     load_train_data n_items rows = Raise TypeError) ∧
    ((∃ t, t ∈ raw_data ∧ userId t ∈ tr_users) →
     ∃ M, load_train_data n_items rows = Ok M ∧ ncols M = n_items ∧
       ∀ sid, sid < n_items → ∃ uid, is_Some (entries M !! (uid, sid))).
Proof.
  intros Hnu Hsub. unfold train_frame. cbn zeta.
  set (train_plays := filter (λ t, userId t ∈ tr_users) raw_data).
  set (unique_sid := pd_unique (songId <$> train_plays)).
  pose proof (pd_unique_NoDup (songId <$> train_plays)) as Hns. fold unique_sid in Hns.
  destruct (numerize_is_Some unique_uid unique_sid train_plays Hnu Hns) as [rows Hrows].
  { apply Forall_forall. intros t Ht. split.
    - apply list_elem_of_filter in Ht as [Hu _]. by apply Hsub.
    - apply elem_of_pd_unique, list_elem_of_fmap. eauto. }
  exists unique_sid, rows. split; [by rewrite Hrows|]. cbn zeta.
  pose proof Hrows as HF. apply numerize_Some in HF.
  assert (∀ uid sid, (uid, sid) ∈ rows →
            uid < length unique_uid ∧ sid < length unique_sid) as Hrange.
  { intros uid sid Hin. apply list_elem_of_lookup in Hin as [k Hk].
    destruct (Forall2_lookup_r _ _ _ _ _ HF Hk) as (t & _ & Hu & Hs). cbn in Hu, Hs.
    apply enumerate_dict_lookup in Hu; [|done].
    apply enumerate_dict_lookup in Hs; [|done].
    split; by eapply lookup_lt_Some. }
  assert (∀ sid, sid < length unique_sid → ∃ uid, (uid, sid) ∈ rows) as Hcover.
  { intros sid Hsid. destruct (lookup_lt_is_Some_2 unique_sid sid Hsid) as [x Hx].
    assert (x ∈ songId <$> train_plays) as Hin.
    { apply elem_of_pd_unique. by eapply list_elem_of_lookup_2. }
    apply list_elem_of_fmap in Hin as (t & -> & Ht).
    apply list_elem_of_lookup in Ht as [k Hk].
    destruct (Forall2_lookup_l _ _ _ _ _ HF Hk) as ([u s] & Hr & _ & Hs). cbn in Hs.
    apply enumerate_dict_lookup in Hs; [|done].
    assert (s = sid) as -> by (by eapply NoDup_lookup).
    exists u. by eapply list_elem_of_lookup_2. }
  split_and!; [done..| |].
  - intros Hnone.
    assert (train_plays = []) as Hnil.
    { unfold train_plays. apply filter_none. intros t Ht. by apply Hnone. }
    rewrite Hnil in HF. by inversion HF.
  - intros (t & Ht & Hu).
    assert (rows ≠ []) as Hne.
    { intros ->. assert (t ∈ train_plays) as Hin by (by apply list_elem_of_filter).
      inversion HF as [Hnil|]; subst. rewrite <- Hnil in Hin.
      by apply not_elem_of_nil in Hin. }
    rewrite load_train_data_unfold by done.
    destruct (csr_of_ones_is_Ok (max_list rows.*1 + 1) (length unique_sid) rows)
      as [M HM].
    { apply Forall_forall. intros [u s] Hin. cbn. split; [|by eapply Hrange].
      assert (u ∈ rows.*1) as Hu1 by (apply list_elem_of_fmap; by exists (u, s)).
      apply max_list_elem_of_le in Hu1. lia. }
    exists M. split; [done|].
    destruct (csr_of_ones_Ok _ _ _ _ HM) as (_ & Hm & _ & Hsome & _).
    split; [done|]. intros sid Hsid. destruct (Hcover sid Hsid) as [uid Hin].
    exists uid. by apply Hsome.
Qed.

(** ** Filtering the play counts *)

Lemma sorted_keys_perm ids : sorted_keys ids ≡ₚ remove_dups ids.
Proof. apply merge_sort_Permutation. Qed.

Lemma NoDup_sorted_keys ids : NoDup (sorted_keys ids).
Proof. rewrite sorted_keys_perm. apply NoDup_remove_dups. Qed.

Lemma elem_of_sorted_keys ids x : x ∈ sorted_keys ids ↔ x ∈ ids.
Proof. by rewrite sorted_keys_perm, elem_of_remove_dups. Qed.

Lemma sorted_keys_sorted ids : StronglySorted (≤) (sorted_keys ids).
Proof. apply StronglySorted_merge_sort; apply _. Qed.

Lemma length_filter_column {A} (id : A → nat) (x : nat) (tp : list A) :
  length (filter (λ y, y = x) (id <$> tp)) = length (filter (λ t, id t = x) tp).
Proof. by rewrite filter_fmap, length_fmap. Qed.

Lemma elem_of_get_count {A} (id : A → nat) (tp : list A) x c :
  (x, c) ∈ get_count (id <$> tp) ↔
  x ∈ id <$> tp ∧ c = length (filter (λ t, id t = x) tp).
Proof.
  unfold get_count. rewrite list_elem_of_fmap. split.
  - intros (y & [= -> ->] & Hy). apply (proj1 (elem_of_sorted_keys _ _)) in Hy.
    split; [done|]. apply length_filter_column.
  - intros [Hx ->]. exists x. rewrite length_filter_column. split; [done|].
    by apply (proj2 (elem_of_sorted_keys _ _)).
Qed.

Lemma get_count_index ids : (get_count ids).*1 = sorted_keys ids.
Proof.
  unfold get_count. rewrite <- list_fmap_compose. cbn. apply list_fmap_id.
Qed.

Lemma keep_frequent_filter min_c (id : triplet → nat) tp :
  keep_frequent min_c id tp
  = filter (λ t, min_c ≤ length (filter (λ t', id t' = id t) tp)) tp.
Proof.
  unfold keep_frequent. cbn zeta. apply filter_ext_in. intros t Ht.
  rewrite list_elem_of_fmap. split.
  - intros ([x c] & -> & [Hc Hin]%list_elem_of_filter). cbn in *.
    apply elem_of_get_count in Hin as [_ ->]. done.
  - intros Hc. exists (id t, length (filter (λ t', id t' = id t) tp)).
    split; [done|]. apply list_elem_of_filter. split; [done|].
    apply elem_of_get_count. split; [|done]. apply list_elem_of_fmap. eauto.
Qed.

(** Dropping whole groups does not change the size of the groups kept. *)
Lemma keep_frequent_group min_c (id : triplet → nat) tp x :
  filter (λ t, id t = x) (keep_frequent min_c id tp)
  = if decide (min_c ≤ length (filter (λ t, id t = x) tp))
    then filter (λ t, id t = x) tp else [].
Proof.
  rewrite keep_frequent_filter, list_filter_filter. case_decide as Hc.
  - apply filter_ext_in. intros t _. split; [by intros [? _]|].
    intros <-. done.
  - apply filter_none. intros t _ [<- ?]. done.
Qed.

(** X18.  [filter_triplets] returns a sub-frame of its argument (rows in
    their order) with the two series of group sizes of that sub-frame,
    indexed by increasing identifier.  Every user it keeps has at least
    [min_uc] rows in the result.  The items are filtered first, on the
    frame as given: an item that is kept had at least [min_sc] rows there,
    which the later removal of users may have reduced. *)
Theorem filter_triplets_guarantee (tp : list triplet) (min_uc min_sc : nat)
    (tp' : list triplet) (usercount itemcount : list (nat * nat)) :
  filter_triplets tp min_uc min_sc = (tp', usercount, itemcount) →
  sublist tp' tp ∧
  (∀ u c, (u, c) ∈ usercount ↔
     u ∈ userId <$> tp' ∧ c = length (filter (λ t, userId t = u) tp')) ∧
  (∀ i c, (i, c) ∈ itemcount ↔
     i ∈ songId <$> tp' ∧ c = length (filter (λ t, songId t = i) tp')) ∧
  StronglySorted (≤) usercount.*1 ∧ StronglySorted (≤) itemcount.*1 ∧
  (∀ u c, (u, c) ∈ usercount → min_uc ≤ c) ∧
  (∀ i c, (i, c) ∈ itemcount → min_sc ≤ length (filter (λ t, songId t = i) tp)).
Proof.
  unfold filter_triplets. cbn zeta.
  set (tp1 := if decide (0 < min_sc) then keep_frequent min_sc songId tp else tp).
  set (tp2 := if decide (0 < min_uc) then keep_frequent min_uc userId tp1 else tp1).
  intros [= <- <- <-].
  assert (sublist tp1 tp) as Hs1.
  { unfold tp1. case_decide; [|done]. rewrite keep_frequent_filter. apply sublist_filter. }
  assert (sublist tp2 tp1) as Hs2.
  { unfold tp2. case_decide; [|done]. rewrite keep_frequent_filter. apply sublist_filter. }
  split_and!.
  - by etrans.
  - intros u c. apply (elem_of_get_count userId).
  - intros i c. apply (elem_of_get_count songId).
  - rewrite get_count_index. apply sorted_keys_sorted.
  - rewrite get_count_index. apply sorted_keys_sorted.
  - intros u c [Hu ->]%(elem_of_get_count userId).
    unfold tp2 in *. case_decide as Hm; [|lia].
    rewrite keep_frequent_group. case_decide as Hc; [done|].
    apply list_elem_of_fmap in Hu as (t & -> & Ht).
    rewrite keep_frequent_filter in Ht. apply list_elem_of_filter in Ht as [Ht _]. done.
  - intros i c [Hi _]%(elem_of_get_count songId).
    apply list_elem_of_fmap in Hi as (t & -> & Ht).
    assert (t ∈ tp1) as Ht1 by (by eapply elem_of_sublist).
    unfold tp1 in Ht1. case_decide as Hm; [|lia].
    rewrite keep_frequent_filter in Ht1. by apply list_elem_of_filter in Ht1 as [? _].
Qed.

(** ** Fold-in and held-out rows *)

Lemma group_by_perm {A} (f : A → nat) (keys : list nat) (data : list A) :
  NoDup keys → (∀ t, t ∈ data → f t ∈ keys) →
  mjoin ((λ u, filter (λ t, f t = u) data) <$> keys) ≡ₚ data.
Proof.
  intros Hnd. revert data. induction Hnd as [|k ks Hk Hnd IH]; intros data Hin.
  - destruct data as [|t data]; [done|]. specialize (Hin t ltac:(left)).
    by apply not_elem_of_nil in Hin.
  - cbn [fmap list_fmap mjoin list_join].
    etrans; [|apply (filter_app_complement (λ t, f t = k) data)].
    apply Permutation_app; [done|].
    set (data' := filter (λ t, ¬ f t = k) data).
    rewrite <- (IH data').
    + apply Permutation_refl'. f_equal. apply list_fmap_ext. intros _ u Hu%list_elem_of_lookup_2.
      unfold data'. rewrite list_filter_filter. apply filter_ext_in.
      intros t _. split; [|by intros [? _]]. intros Heq. split; [done|].
      intros Hk'. apply Hk. congruence.
    + intros t [Hne Ht]%list_elem_of_filter. specialize (Hin t Ht).
      apply elem_of_cons in Hin as [?|?]; done.
Qed.

Lemma groups_by_user_perm data : mjoin (groups_by_user data) ≡ₚ data.
Proof.
  unfold groups_by_user. apply group_by_perm.
  - apply NoDup_sorted_keys.
  - intros t Ht. apply elem_of_sorted_keys, list_elem_of_fmap. eauto.
Qed.

Lemma Qc_int_bounds (q : Qc) (n : nat) :
  (0 ≤ q)%Qc → (q ≤ Qc_of_nat n)%Qc →
  (0 ≤ Qc_int q ≤ Z.of_nat n)%Z.
Proof.
  intros Hlo Hhi.
  unfold Qc_int. unfold Qcle, Qle in Hlo, Hhi.
  change (this 0%Qc) with (0 # 1)%Q in Hlo.
  change (this (Qc_of_nat n)) with (Z.of_nat n # 1)%Q in Hhi.
  destruct (this q) as [a b]. cbn [Qnum Qden] in *.
  assert (0 ≤ a)%Z by lia.
  split.
  - apply Z.quot_pos; lia.
  - apply Z.quot_le_upper_bound; lia.
Qed.

Lemma float_mul_comm (x y : Qc) : float_mul x y = float_mul y x.
Proof. unfold float_mul. by rewrite Qcmult_comm. Qed.

(** The size of a sample, for a proportion between 0 and 1 and a group
    whose length [float] converts without rounding. *)
Lemma sample_size_bounds (test_prop : Qc) (n : nat) :
  (0 ≤ test_prop)%Qc → (test_prop ≤ 1)%Qc → float_exact n →
  (0 ≤ Qc_int (float_mul (b64_round test_prop) (float_of_nat n)) ≤ Z.of_nat n)%Z.
Proof.
  intros H0 H1 Hn. rewrite float_mul_comm. apply Qc_int_bounds.
  - by apply float_mul_nonneg.
  - by apply float_mul_le.
Qed.

Section split_facts.
Context `{RandomLib}.

Lemma split_group_Ok test_prop calls tr_list te_list group st' :
  split_group test_prop (calls, tr_list, te_list) group = Ok st' →
  ∃ calls' tr te,
    tr ++ te ≡ₚ group ∧ length te = held_out test_prop group ∧
    st' = (calls', tr_list ++ [tr],
           if decide (5 ≤ length group) then te_list ++ [te] else te_list).
Proof.
  unfold split_group, held_out. case_decide as H5.
  - cbn zeta. case_decide as Hsize; [|done]. intros [= <-].
    set (n := length group) in *.
    set (size := Z.to_nat (Qc_int (float_mul (b64_round test_prop) (float_of_nat n)))) in *.
    assert (size ≤ n) as Hle by (unfold size; lia).
    set (chosen := np_random_choice calls n size).
    eexists _, _, _. split_and!; [| |reflexivity].
    + rewrite <- fmap_app.
      rewrite (Permutation_app_comm (filter _ _)).
      rewrite (filter_app_complement (λ p, p ∈ chosen) (seq 0 n)).
      unfold n. by rewrite fmap_lookup_total_seq.
    + rewrite length_fmap. rewrite length_filter_elem_of.
      * by apply np_random_choice_length.
      * by apply np_random_choice_NoDup.
      * intros x Hx. by eapply np_random_choice_lt.
  - intros [= <-]. exists calls, group, []. split_and!; [|done..].
    by rewrite app_nil_r.
Qed.

Lemma split_groups_Ok test_prop gs calls tr_list te_list calls' tr_list' te_list' :
  foldM (split_group test_prop) (calls, tr_list, te_list) gs
    = Ok (calls', tr_list', te_list') →
  ∃ parts : list (list triplet * list triplet),
    Forall2 (λ g pr, pr.1 ++ pr.2 ≡ₚ g ∧ length pr.2 = held_out test_prop g) gs parts ∧
    tr_list' = tr_list ++ parts.*1 ∧
    mjoin te_list' = mjoin te_list ++ mjoin parts.*2 ∧
    (te_list' = [] ↔ te_list = [] ∧ Forall (λ g, length g < 5) gs).
Proof.
  revert calls tr_list te_list. induction gs as [|g gs IH]; intros calls tr_list te_list.
  - intros [= <- <- <-]. exists []. split_and!; [constructor|by rewrite app_nil_r..|].
    split; [by intros ->|by intros [-> _]].
  - cbn [foldM]. intros (st1 & Hstep & Hrest)%result_bind_Ok.
    destruct (split_group_Ok _ _ _ _ _ _ Hstep) as (c1 & tr & te & Hp & Hlen & ->).
    destruct (IH _ _ _ Hrest) as (parts & HF & -> & Hte & Hnil).
    exists ((tr, te) :: parts). split_and!.
    + constructor; [done|done].
    + cbn. by rewrite <- app_assoc.
    + rewrite Hte. cbn [fmap list_fmap snd mjoin list_join].
      case_decide as H5.
      * rewrite join_app. cbn. by rewrite app_nil_r, <- app_assoc.
      * unfold held_out in Hlen. rewrite decide_False in Hlen by done.
        apply nil_length_inv in Hlen as ->. done.
    + rewrite Hnil. rewrite Forall_cons. case_decide as H5.
      * split; [intros [Habs _]; by destruct te_list | intros [_ [? _]]; lia].
      * split; [intros [-> ?]|intros [-> [_ ?]]]; split_and!; (done || lia).
Qed.

Lemma parts_perm (gs : list (list triplet)) (parts : list (list triplet * list triplet))
    (P : list triplet → list triplet * list triplet → Prop) :
  (∀ g pr, P g pr → pr.1 ++ pr.2 ≡ₚ g) →
  Forall2 P gs parts →
  mjoin parts.*1 ++ mjoin parts.*2 ≡ₚ mjoin gs.
Proof.
  intros HP. induction 1 as [|g pr gs parts Hg _ IH]; [done|].
  change (mjoin (pr :: parts).*1) with (pr.1 ++ mjoin parts.*1).
  change (mjoin (pr :: parts).*2) with (pr.2 ++ mjoin parts.*2).
  change (mjoin (g :: gs)) with (g ++ mjoin gs).
  rewrite <- IH, <- (HP g pr Hg).
  rewrite <- !app_assoc. apply Permutation_app; [done|].
  rewrite !app_assoc. apply Permutation_app; [|done]. apply Permutation_app_comm.
Qed.

Lemma held_out_count test_prop (data : list triplet) (keys : list nat)
    (parts : list (list triplet * list triplet)) (u : nat) :
  NoDup keys →
  Forall2 (λ g pr, pr.1 ++ pr.2 ≡ₚ g ∧ length pr.2 = held_out test_prop g)
    ((λ k, filter (λ t, userId t = k) data) <$> keys) parts →
  length (filter (λ t, userId t = u) (mjoin parts.*2))
  = if decide (u ∈ keys)
    then held_out test_prop (filter (λ t, userId t = u) data) else 0.
Proof.
  intros Hnd. revert parts. induction Hnd as [|k ks Hk Hnd IH]; intros parts HF.
  - inversion HF; subst. cbn. by rewrite decide_False by apply not_elem_of_nil.
  - cbn [fmap list_fmap] in HF.
    inversion HF as [|g pr gs prs [Hp Hlen] HF']; subst.
    change (mjoin (pr :: prs).*2) with (pr.2 ++ mjoin prs.*2).
    rewrite filter_app, length_app, (IH _ HF').
    assert (∀ t, t ∈ pr.2 → userId t = k) as Hall.
    { intros t Ht.
      assert (t ∈ filter (λ t, userId t = k) data) as Hin.
      { rewrite <- Hp. apply elem_of_app. by right. }
      by apply list_elem_of_filter in Hin as [? _]. }
    destruct (decide (u = k)) as [->|Hne].
    + rewrite (decide_True (P := k ∈ k :: ks)) by left.
      rewrite (decide_False (P := k ∈ ks)) by done.
      rewrite filter_all by (by apply Forall_forall). lia.
    + rewrite filter_none by (intros t Ht Hu; apply Hne; rewrite <- Hu; by apply Hall).
      cbn [length Nat.add]. apply decide_ext. rewrite elem_of_cons. intuition congruence.
Qed.

(** X19.  When [split_train_test_proportion] returns, the two frames
    together hold the rows of [data], each once; of a user with at least
    five rows exactly [int(test_prop * n)] of the [n] rows are held out,
    the product being the binary64 product that the program computes, and
    of a user with fewer rows none. *)
Theorem split_train_test_proportion_partition (data : list triplet) (test_prop : Qc)
    (data_tr data_te : list triplet) :
  split_train_test_proportion data test_prop = Ok (data_tr, data_te) →
  data_tr ++ data_te ≡ₚ data ∧
  ∀ u, length (filter (λ t, userId t = u) data_te)
       = held_out test_prop (filter (λ t, userId t = u) data).
Proof.
  unfold split_train_test_proportion.
  intros ([[calls tr_list] te_list] & Hloop & Hrest)%result_bind_Ok.
  apply result_bind_Ok in Hrest as (tr & Htr & Hrest).
  apply result_bind_Ok in Hrest as (te & Hte & [= <- <-]).
  destruct (split_groups_Ok _ _ _ _ _ _ _ _ Hloop) as (parts & HF & -> & Hjoin & _).
  cbn [app mjoin list_join] in Hjoin.
  assert (tr = mjoin parts.*1) as -> by (destruct parts.*1; [done|by injection Htr]).
  assert (te = mjoin parts.*2) as ->.
  { destruct te_list; [done|]. injection Hte as <-. done. }
  split.
  - rewrite (parts_perm _ _ _ (λ g pr Hg, proj1 Hg) HF). apply groups_by_user_perm.
  - intros u. unfold groups_by_user in HF.
    rewrite (held_out_count test_prop data _ parts u (NoDup_sorted_keys _) HF).
    case_decide as Hin; [done|].
    rewrite filter_none; [done|]. intros t Ht Hu. apply Hin.
    apply elem_of_sorted_keys, list_elem_of_fmap. eauto.
Qed.

Lemma split_groups_small test_prop gs calls tr_list te_list :
  Forall (λ g : list triplet, length g < 5) gs →
  foldM (split_group test_prop) (calls, tr_list, te_list) gs
  = Ok (calls, tr_list ++ gs, te_list).
Proof.
  intros Hall. revert tr_list. induction Hall as [|g gs Hg _ IH]; intros tr_list.
  - by rewrite app_nil_r.
  - cbn [foldM]. unfold split_group at 2. rewrite decide_False by lia.
    cbn [mbind result_bind]. rewrite IH. by rewrite <- app_assoc.
Qed.

Lemma split_groups_is_Ok test_prop gs st :
  (0 ≤ test_prop)%Qc → (test_prop ≤ 1)%Qc →
  Forall (λ g : list triplet, float_exact (length g)) gs →
  is_Ok (foldM (split_group test_prop) st gs).
Proof.
  intros H0 H1 Hgs. revert st.
  induction Hgs as [|g gs Hg _ IH]; intros st; [by eexists|].
  cbn [foldM]. destruct st as [[calls tr_list] te_list]. unfold split_group at 2.
  case_decide.
  - cbn zeta. rewrite decide_True by (by apply sample_size_bounds).
    cbn [mbind result_bind]. apply IH.
  - cbn [mbind result_bind]. apply IH.
Qed.

(** X20.  [split_train_test_proportion] raises [ValueError] when no user
    has five rows, in particular on an empty frame, since [pd.concat] is
    then given nothing to concatenate; it returns for every proportion
    between 0 and 1 as soon as some user has five rows (the frame having
    fewer than [2 ** 53] rows, so that the size of a group is a binary64
    number and the size of a sample does not exceed it). *)
Theorem split_train_test_proportion_errors (data : list triplet) (test_prop : Qc) :
  ((∀ u, length (filter (λ t, userId t = u) data) < 5) →
   split_train_test_proportion data test_prop = Raise ValueError) ∧
  ((0 ≤ test_prop)%Qc → (test_prop ≤ 1)%Qc → float_exact (length data) →
   (∃ u, 5 ≤ length (filter (λ t, userId t = u) data)) →
   is_Ok (split_train_test_proportion data test_prop)).
Proof.
  unfold split_train_test_proportion. split.
  - intros Hsmall. rewrite split_groups_small.
    + cbn [mbind result_bind app]. by destruct (groups_by_user data).
    + apply Forall_fmap, Forall_forall. intros u _. apply Hsmall.
  - intros H0 H1 Hdata (u & Hu).
    assert (Forall (λ g : list triplet, float_exact (length g)) (groups_by_user data))
      as Hgs.
    { apply Forall_fmap, Forall_forall. intros k _. cbn.
      pose proof (length_filter (λ t, userId t = k) data).
      unfold float_exact in *. lia. }
    destruct (split_groups_is_Ok test_prop (groups_by_user data) (0, [], []) H0 H1 Hgs)
      as [[[calls tr_list] te_list] Hloop].
    rewrite Hloop. cbn [mbind result_bind].
    destruct (split_groups_Ok _ _ _ _ _ _ _ _ Hloop) as (parts & HF & -> & _ & Hnil).
    assert (filter (λ t, userId t = u) data ∈ groups_by_user data) as Hin.
    { apply list_elem_of_fmap. exists u. split; [done|].
      destruct (filter (λ t, userId t = u) data) as [|t l] eqn:Hf; [cbn in Hu; lia|].
      assert (t ∈ filter (λ t, userId t = u) data) as Ht by (rewrite Hf; left).
      apply list_elem_of_filter in Ht as [<- Ht].
      apply elem_of_sorted_keys, list_elem_of_fmap. eauto. }
    assert (te_list ≠ []) as Hte.
    { intros Habs. apply Hnil in Habs as [_ Hall]. rewrite Forall_forall in Hall.
      specialize (Hall _ Hin). lia. }
    assert (parts ≠ []) as Hparts.
    { intros ->. inversion HF as [Hg|]. rewrite <- Hg in Hin.
      by apply not_elem_of_nil in Hin. }
    cbn [app]. destruct parts as [|pr parts]; [done|]. cbn [fmap list_fmap pd_concat].
    cbn [mbind result_bind]. destruct te_list; [done|]. by eexists.
Qed.

End split_facts.

Lemma split_users_partition_witness :
  (∃ tr_users vd_users te_users,
     split_users [10; 11; 12; 13; 14] 2 = (tr_users, vd_users, te_users) ∧
     tr_users ++ vd_users ++ te_users = [10; 11; 12; 13; 14] ∧
     length vd_users = 2 ∧ length te_users = 2) ∧
  (∃ tr_users vd_users te_users,
     split_users [10; 11; 12; 13; 14] 3 = (tr_users, vd_users, te_users) ∧
     vd_users = [] ∧
     length tr_users + length te_users > 5 ∧
     ∃ x, x ∈ tr_users ∧ x ∈ te_users).
Proof.
  split.
  - eexists _, _, _. split; [reflexivity|].
    eapply (split_users_partition [10; 11; 12; 13; 14] 2); [reflexivity|].
    cbn. lia.
  - eexists _, _, _. split; [reflexivity|].
    eapply (split_users_partition [10; 11; 12; 13; 14] 3); [reflexivity|].
    cbn. lia.
Defined.

Lemma numerize_round_trip_witness :
  NoDup [7; 5] ∧ NoDup [3; 9] ∧
  (numerize (enumerate_dict [7; 5]) (enumerate_dict [3; 9])
     [Triplet 5 9 1; Triplet 7 4 2] = None ↔
   ∃ t, t ∈ [Triplet 5 9 1; Triplet 7 4 2] ∧ (userId t ∉ [7; 5] ∨ songId t ∉ [3; 9])) ∧
  ∀ rows,
    numerize (enumerate_dict [7; 5]) (enumerate_dict [3; 9])
      [Triplet 5 9 1; Triplet 7 3 2] = Some rows →
    length rows = length [Triplet 5 9 1; Triplet 7 3 2] ∧
    ∀ k t, [Triplet 5 9 1; Triplet 7 3 2] !! k = Some t →
      ∃ uid sid, rows !! k = Some (uid, sid) ∧
        [7; 5] !! uid = Some (userId t) ∧ [3; 9] !! sid = Some (songId t).
Proof.
  assert (NoDup [7; 5]) as H1 by compute_done.
  assert (NoDup [3; 9]) as H2 by compute_done.
  split; [exact H1|]. split; [exact H2|].
  split.
  - exact (proj1 (numerize_round_trip [7; 5] [3; 9] [Triplet 5 9 1; Triplet 7 4 2] H1 H2)).
  - exact (proj2 (numerize_round_trip [7; 5] [3; 9] [Triplet 5 9 1; Triplet 7 3 2] H1 H2)).
Defined.

Lemma train_frame_loads_witness :
  NoDup [2; 9; 4] ∧ (∀ u, u ∈ [4; 2] → u ∈ [2; 9; 4]) ∧
  ∃ unique_sid rows,
    train_frame raw_ex [2; 9; 4] [4; 2] = (unique_sid, Some rows) ∧
    let n_items := length unique_sid in
    (∀ uid sid, (uid, sid) ∈ rows → uid < length [2; 9; 4] ∧ sid < n_items) ∧
    (∀ sid, sid < n_items → ∃ uid, (uid, sid) ∈ rows) ∧
    ((∀ t, t ∈ raw_ex → userId t ∉ [4; 2]) →
     load_train_data n_items rows = Raise TypeError) ∧
    ((∃ t, t ∈ raw_ex ∧ userId t ∈ [4; 2]) →
     ∃ M, load_train_data n_items rows = Ok M ∧ ncols M = n_items ∧
       ∀ sid, sid < n_items → ∃ uid, is_Some (entries M !! (uid, sid))).
Proof.
  assert (NoDup [2; 9; 4]) as H1 by compute_done.
  assert (∀ u, u ∈ [4; 2] → u ∈ [2; 9; 4]) as H2.
  { intros u Hu. rewrite !elem_of_cons in Hu. rewrite !elem_of_cons. tauto. }
  split; [exact H1|]. split; [exact H2|].
  exact (train_frame_loads raw_ex [2; 9; 4] [4; 2] H1 H2).
Defined.

Lemma filter_triplets_guarantee_witness :
  ∃ tp' usercount itemcount,
    filter_triplets raw_ex 2 2 = (tp', usercount, itemcount) ∧
    sublist tp' raw_ex ∧
    (∀ u c, (u, c) ∈ usercount ↔
       u ∈ userId <$> tp' ∧ c = length (filter (λ t, userId t = u) tp')) ∧
    (∀ i c, (i, c) ∈ itemcount ↔
       i ∈ songId <$> tp' ∧ c = length (filter (λ t, songId t = i) tp')) ∧
    StronglySorted (≤) usercount.*1 ∧ StronglySorted (≤) itemcount.*1 ∧
    (∀ u c, (u, c) ∈ usercount → 2 ≤ c) ∧
    (∀ i c, (i, c) ∈ itemcount → 2 ≤ length (filter (λ t, songId t = i) raw_ex)).
Proof.
  eexists _, _, _. split; [vm_compute; reflexivity|].
  eapply (filter_triplets_guarantee raw_ex 2 2). vm_compute; reflexivity.
Defined.

Lemma split_train_test_proportion_partition_witness :
  ∃ data_tr data_te,
    split_train_test_proportion raw_hundred (Q2Qc (29 # 100)) = Ok (data_tr, data_te) ∧
    (data_tr ++ data_te ≡ₚ raw_hundred ∧
     ∀ u, length (filter (λ t, userId t = u) data_te)
          = held_out (Q2Qc (29 # 100)) (filter (λ t, userId t = u) raw_hundred)) ∧
    held_out (Q2Qc (29 # 100)) (filter (λ t, userId t = 1) raw_hundred) = 28.
Proof.
  eexists _, _. split; [vm_compute; reflexivity|]. split.
  - eapply (split_train_test_proportion_partition raw_hundred (Q2Qc (29 # 100))).
    vm_compute; reflexivity.
  - vm_compute; reflexivity.
Defined.

Lemma split_train_test_proportion_errors_witness :
  split_train_test_proportion [Triplet 1 1 1; Triplet 2 1 1] (Q2Qc (1 # 5))
    = Raise ValueError ∧
  is_Ok (split_train_test_proportion raw_ex (Q2Qc (1 # 5))).
Proof.
  destruct (split_train_test_proportion_errors [Triplet 1 1 1; Triplet 2 1 1]
              (Q2Qc (1 # 5))) as [H1 _].
  destruct (split_train_test_proportion_errors raw_ex (Q2Qc (1 # 5))) as [_ H2].
  split.
  - apply H1. intros u.
    pose proof (length_filter (λ t, userId t = u) [Triplet 1 1 1; Triplet 2 1 1]) as Hle.
    cbn [length] in Hle. lia.
  - apply H2; [by vm_compute | by vm_compute | by vm_compute |].
    exists 4. vm_compute. lia.
Defined.
